(** * debug-shm: the decoder of the PipeWire volume-mixer snapshot

    A shallow embedding of [scripts/debug-shm.py].  The script reads the
    shared-memory file into one [bytes] object and scans it forward with an
    integer cursor, printing one line per decoded item.  The embedding keeps
    that shape: the buffer is a [list byte], the cursor is a [Z] (a Python
    [int]), every access to the buffer is logged and may raise as in Python,
    and every [print] is an event of the trace.

    Three library functions the script calls are modelled after CPython:
    [bytes.decode] for UTF-8 with its error handlers, [struct.unpack] for the
    little-endian formats [<I], [<Q] and [<f], and [datetime.fromtimestamp],
    which depends on the time zone of the host.  A float read by [<f] is
    named by the binary32 pattern of its value, and standard output is taken
    to accept every string. *)

From Stdlib Require Import Strings.String Strings.Byte.
From Stdlib Require Import ZArith List Bool Lia.
Import ListNotations.

Local Open Scope Z_scope.

(* ================================================================== *)
(** * Bytes objects *)

Module Bytes.

Definition bytes := list byte.

(** The integer a byte stands for, as [data[i]] yields it. *)
Definition to_Z (b : byte) : Z := Z.of_N (Byte.to_N b).

(** The byte of an integer in [0, 256); [x00] outside (never used there). *)
Definition of_Z (z : Z) : byte :=
  match Byte.of_N (Z.to_N z) with
  | Some b => b
  | None => x00
  end.

(** [len(data)] *)
Definition len (data : bytes) : Z := Z.of_nat (length data).

(** Python's clamping of one slice bound: a negative bound counts from the
    end, and the result is confined to [0, len]. *)
Definition clamp (n i : Z) : Z :=
  if i <? 0 then Z.max 0 (i + n) else Z.min i n.

(** [data[lo:hi]]: never raises, shorter than [hi - lo] when the buffer
    ends first. *)
Definition slice (data : bytes) (lo hi : Z) : bytes :=
  let lo' := clamp (len data) lo in
  let hi' := clamp (len data) hi in
  firstn (Z.to_nat (hi' - lo')) (skipn (Z.to_nat lo') data).

(** [data[i]] where it is defined: a negative index counts from the end;
    [None] stands for IndexError. *)
Definition item (data : bytes) (i : Z) : option byte :=
  if (0 <=? i) && (i <? len data) then nth_error data (Z.to_nat i)
  else if (- len data <=? i) && (i <? 0) then nth_error data (Z.to_nat (i + len data))
  else None.

(** The little-endian unsigned integer held by a byte string. *)
Fixpoint le_decode (bs : bytes) : Z :=
  match bs with
  | [] => 0
  | b :: rest => to_Z b + 256 * le_decode rest
  end.

(** The [n]-byte little-endian image of [v], as a producer writes it. *)
Fixpoint le_encode (n : nat) (v : Z) : bytes :=
  match n with
  | O => []
  | S n' => of_Z (v mod 256) :: le_encode n' (v / 256)
  end.

End Bytes.
Import Bytes.

(* ================================================================== *)
(** * The UTF-8 codec of [bytes.decode] *)

Module Utf8.

(** A Python [str]: a sequence of code points. *)
Definition str := list Z.

(** What the decoder sees at one position: a code point, or a run of [n]
    bytes that decodes to nothing (invalid start byte, invalid continuation
    byte, or unexpected end of data), which it hands to the error handler. *)
Inductive chunk : Type :=
| Char (cp : Z)
| Undecodable (n : nat).

Definition is_continuation (ch : Z) : bool := (0x80 <=? ch) && (ch <? 0xC0).

(** The scan of CPython's UTF-8 decoder.  An undecodable lead byte or
    truncated prefix is reported with the length the decoder skips: the
    lead byte alone when the next byte cannot continue it, the bytes read
    so far when a later one cannot, the whole remainder at the end of the
    data. *)
Fixpoint scan (s : bytes) : list chunk :=
  match s with
  | [] => []
  | b1 :: s1 =>
    let ch := to_Z b1 in
    if ch <? 0x80 then Char ch :: scan s1
    else if ch <? 0xC2 then Undecodable 1 :: scan s1
    else if ch <? 0xE0 then
      match s1 with
      | [] => [Undecodable 1]
      | b2 :: s2 =>
        let ch2 := to_Z b2 in
        if negb (is_continuation ch2) then Undecodable 1 :: scan s1
        else Char (Z.shiftl ch 6 + ch2 - (Z.shiftl 0xC0 6 + 0x80)) :: scan s2
      end
    else if ch <? 0xF0 then
      match s1 with
      | [] => [Undecodable 1]
      | b2 :: s2 =>
        let ch2 := to_Z b2 in
        if negb (is_continuation ch2)
           || (if ch2 <? 0xA0 then ch =? 0xE0 else ch =? 0xED)
        then Undecodable 1 :: scan s1
        else
          match s2 with
          | [] => [Undecodable 2]
          | b3 :: s3 =>
            let ch3 := to_Z b3 in
            if negb (is_continuation ch3) then Undecodable 2 :: scan s2
            else Char (Z.shiftl ch 12 + Z.shiftl ch2 6 + ch3
                       - (Z.shiftl 0xE0 12 + Z.shiftl 0x80 6 + 0x80)) :: scan s3
          end
      end
    else if ch <? 0xF5 then
      match s1 with
      | [] => [Undecodable 1]
      | b2 :: s2 =>
        let ch2 := to_Z b2 in
        if negb (is_continuation ch2)
           || (if ch2 <? 0x90 then ch =? 0xF0 else ch =? 0xF4)
        then Undecodable 1 :: scan s1
        else
          match s2 with
          | [] => [Undecodable 2]
          | b3 :: s3 =>
            let ch3 := to_Z b3 in
            if negb (is_continuation ch3) then Undecodable 2 :: scan s2
            else
              match s3 with
              | [] => [Undecodable 3]
              | b4 :: s4 =>
                let ch4 := to_Z b4 in
                if negb (is_continuation ch4) then Undecodable 3 :: scan s3
                else Char (Z.shiftl ch 18 + Z.shiftl ch2 12 + Z.shiftl ch3 6 + ch4
                           - (Z.shiftl 0xF0 18 + Z.shiftl 0x80 12
                              + Z.shiftl 0x80 6 + 0x80)) :: scan s4
              end
          end
      end
    else Undecodable 1 :: scan s1
  end.

(** The [errors=] argument of [bytes.decode]. *)
Inductive errors : Type := Strict | Ignore | Replace.

(** U+FFFD, what the [replace] handler substitutes. *)
Definition REPLACEMENT_CHARACTER : Z := 0xFFFD.

(** The code points the handlers [ignore] and [replace] leave. *)
Fixpoint resolve (subst : str) (cs : list chunk) : str :=
  match cs with
  | [] => []
  | Char cp :: cs' => cp :: resolve subst cs'
  | Undecodable _ :: cs' => subst ++ resolve subst cs'
  end.

Definition all_decodable (cs : list chunk) : bool :=
  forallb (fun c => match c with Char _ => true | Undecodable _ => false end) cs.

(** [s.decode('utf-8', errors=e)]; [None] is UnicodeDecodeError, which only
    the [strict] handler raises. *)
Definition decode (e : errors) (s : bytes) : option str :=
  match e with
  | Strict => if all_decodable (scan s) then Some (resolve [] (scan s)) else None
  | Ignore => Some (resolve [] (scan s))
  | Replace => Some (resolve [REPLACEMENT_CHARACTER] (scan s))
  end.

(** How many runs of the buffer a handler was called for. *)
Definition undecodable_runs (s : bytes) : nat :=
  length (filter (fun c => match c with Char _ => false | Undecodable _ => true end)
                 (scan s)).

(** A Unicode scalar value: a code point that is not a surrogate. *)
Definition scalar (cp : Z) : Prop :=
  0 <= cp <= 0x10FFFF /\ ~ (0xD800 <= cp <= 0xDFFF).

(** The UTF-8 image of one scalar value, as a producer writes it. *)
Definition encode_char (cp : Z) : bytes :=
  if cp <? 0x80 then [of_Z cp]
  else if cp <? 0x800 then
    [of_Z (0xC0 + cp / 64); of_Z (0x80 + cp mod 64)]
  else if cp <? 0x10000 then
    [of_Z (0xE0 + cp / 4096); of_Z (0x80 + (cp / 64) mod 64); of_Z (0x80 + cp mod 64)]
  else
    [of_Z (0xF0 + cp / 262144); of_Z (0x80 + (cp / 4096) mod 64);
     of_Z (0x80 + (cp / 64) mod 64); of_Z (0x80 + cp mod 64)].

Definition encode (s : str) : bytes := flat_map encode_char s.

End Utf8.
Import Utf8.

(** [l1] is [l2] with some of its elements deleted. *)
Inductive subseq {A : Type} : list A -> list A -> Prop :=
| subseq_nil : subseq [] []
| subseq_keep (x : A) (l1 l2 : list A) : subseq l1 l2 -> subseq (x :: l1) (x :: l2)
| subseq_drop (x : A) (l1 l2 : list A) : subseq l1 l2 -> subseq l1 (x :: l2).

(* ================================================================== *)
(** * The trace of a run *)

(** The exceptions the operations of the script can raise. *)
Inductive exn : Type :=
| IndexError            (* [data[i]] with [i] outside the buffer *)
| StructError           (* [struct.unpack] on a buffer of the wrong size *)
| UnicodeDecodeError    (* [bytes.decode] under the [strict] handler *)
| TimestampError.       (* [datetime.fromtimestamp]: ValueError or OverflowError *)

(** The value [struct.unpack('<f', b)] returns: a Python float that is a
    binary32 value, named by the binary32 pattern of that value.  Its
    rendering by [:.2f] is left out: a line carries the value it formats. *)
Inductive float32 : Type := F32 (bits : Z).

Definition float32_bits (f : float32) : Z := match f with F32 b => b end.

(** A binary32 pattern that is a signaling NaN: the exponent bits 23 to 30
    all set, the mantissa not zero, its top bit 22 clear. *)
Definition signaling_nan (bits : Z) : bool :=
  ((bits / 0x800000) mod 256 =? 255)
  && negb (bits mod 0x800000 =? 0)
  && ((bits / 0x400000) mod 2 =? 0).

(** The pattern of the float that four bytes unpack to.  CPython reads the
    bytes into a C float and converts it to the double a Python float is;
    the conversion keeps every value, and turns a signaling NaN into the
    quiet NaN of the same sign and payload, which is bit 22 set. *)
Definition widen (bits : Z) : Z :=
  if signaling_nan bits then bits + 0x400000 else bits.

(** A local date and time, as [datetime.fromtimestamp] returns it: the
    local second, and the millisecond of the timestamp. *)
Record datetime : Type := mk_datetime { local_second : Z; millisecond : Z }.

(** One printed line.  A line without placeholders is its text; a formatted
    line is the tuple of the values it interpolates. *)
Inductive line : Type :=
| Text (s : string)
| Version (version : Z)
| Generation (generation : Z)
| Timestamp (t : datetime)
| SinksHeader (sink_count : Z)
| SinkLine (name : str) (sink_id : Z) (volume : float32) (muted : bool)
| AppsHeader (app_count : Z)
| AppLine (name : str) (current_sink : str) (active : bool)
| TotalSize (size : Z)
| FileNotFound
| ErrorParsing (e : exn).

(** What a run does, in order: it prints, and it reads the buffer. *)
Inductive event : Type :=
| Print (l : line)
| Index (i : Z)          (* [data[i]] *)
| Slice (lo hi : Z).     (* [data[lo:hi]] *)

(** A computation: the events so far, then an exception or a value. *)
Definition Comp (A : Type) : Type := (list event * (exn + A))%type.

Definition ret {A : Type} (a : A) : Comp A := ([], inr a).

Definition raise {A : Type} (e : exn) : Comp A := ([], inl e).

Definition bind {A B : Type} (m : Comp A) (f : A -> Comp B) : Comp B :=
  match m with
  | (tr, inl e) => (tr, inl e)
  | (tr, inr a) => let '(tr', r) := f a in (tr ++ tr', r)
  end.

Notation "x <- m ;; k" := (bind m (fun x => k))
  (at level 61, m at next level, right associativity).
Notation "m ;; k" := (bind m (fun _ => k))
  (at level 61, right associativity).

Definition print (l : line) : Comp unit := ([Print l], inr tt).

Definition events {A : Type} (m : Comp A) : list event := fst m.

Definition outcome {A : Type} (m : Comp A) : exn + A := snd m.

(** The lines of a trace, in order. *)
Fixpoint stdout (tr : list event) : list line :=
  match tr with
  | [] => []
  | Print l :: tr' => l :: stdout tr'
  | _ :: tr' => stdout tr'
  end.

(** An access that stays inside a buffer of [n] bytes. *)
Definition in_bounds (n : Z) (ev : event) : Prop :=
  match ev with
  | Print _ => True
  | Index i => 0 <= i < n
  | Slice lo hi => 0 <= lo <= hi /\ hi <= n
  end.

Definition is_read (ev : event) : bool :=
  match ev with Print _ => false | _ => true end.

(* ================================================================== *)
(** * The operations on the buffer *)

(** [data[i]] *)
Definition getitem (data : bytes) (i : Z) : Comp Z :=
  match item data i with
  | Some b => ([Index i], inr (to_Z b))
  | None => ([Index i], inl IndexError)
  end.

(** [data[lo:hi]] *)
Definition getslice (data : bytes) (lo hi : Z) : Comp bytes :=
  ([Slice lo hi], inr (slice data lo hi)).

(** [struct.unpack('<I', b)[0]] for [size = 4], ['<Q'] for [size = 8]. *)
Definition unpack_uint (size : nat) (b : bytes) : Comp Z :=
  if Nat.eqb (length b) size then ret (le_decode b) else raise StructError.

(** [struct.unpack('<f', b)[0]] *)
Definition unpack_float (b : bytes) : Comp float32 :=
  if Nat.eqb (length b) 4 then ret (F32 (widen (le_decode b))) else raise StructError.

(** [b.decode('utf-8', errors=e)] *)
Definition bytes_decode (e : errors) (b : bytes) : Comp str :=
  match decode e b with
  | Some s => ret s
  | None => raise UnicodeDecodeError
  end.

(** [read_string(data, offset)]: the pair of the string, or [None], and the
    cursor. *)
Definition read_string (data : bytes) (offset : Z) : Comp (option str * Z) :=
  if offset >=? len data then ret (None, offset)
  else
    length <- getitem data offset ;;
    let offset := offset + 1 in
    if offset + length >? len data then ret (None, offset)
    else
      payload <- getslice data offset (offset + length) ;;
      string <- bytes_decode Ignore payload ;;
      let offset := offset + length in
      ret (Some string, offset).

(** The sink loop, [for i in range(n)]; a [break] leaves with the cursor as
    it stands.  The value is the cursor after the loop. *)
Fixpoint sink_loop (data : bytes) (n : nat) (offset : Z) : Comp Z :=
  match n with
  | O => ret offset
  | S n' =>
    r <- read_string data offset ;;
    let '(name, offset) := r in
    match name with
    | None => ret offset
    | Some name =>
      if offset + 9 >? len data then ret offset
      else
        b <- getslice data offset (offset + 4) ;;
        sink_id <- unpack_uint 4 b ;;
        let offset := offset + 4 in
        b <- getslice data offset (offset + 4) ;;
        volume <- unpack_float b ;;
        let offset := offset + 4 in
        flag <- getitem data offset ;;
        let muted := flag =? 1 in
        let offset := offset + 1 in
        print (SinkLine name sink_id volume muted) ;;
        sink_loop data n' offset
    end
  end.

(** The app loop. *)
Fixpoint app_loop (data : bytes) (n : nat) (offset : Z) : Comp Z :=
  match n with
  | O => ret offset
  | S n' =>
    r <- read_string data offset ;;
    let '(name, offset) := r in
    match name with
    | None => ret offset
    | Some name =>
      r <- read_string data offset ;;
      let '(current_sink, offset) := r in
      match current_sink with
      | None => ret offset
      | Some current_sink =>
        if offset >=? len data then ret offset
        else
          flag <- getitem data offset ;;
          let active := flag =? 1 in
          let offset := offset + 1 in
          print (AppLine name current_sink active) ;;
          app_loop data n' offset
      end
    end
  end.

(** Where the body of [parse_shared_memory] is left: at one of its three
    [return] statements or at its end, with the cursor where it has one. *)
Inductive ending : Type :=
| TooSmall
| NoSinkData
| NoAppData (offset : Z)
| Finished (offset : Z).

Section Host.

(** The local-time rule of the host: the offset from UTC, in seconds, in
    force at a POSIX second. *)
Variable utcoffset : Z -> Z.

(** The POSIX second of 10000-01-01T00:00:00, one past [datetime.max]. *)
Definition END_OF_MAXYEAR : Z := 253402300800.

(** [datetime.fromtimestamp(timestamp / 1000)] for [timestamp >= 0]: the
    local date of the second the timestamp falls in; it raises when that
    date is past the year 9999. *)
Definition fromtimestamp (timestamp : Z) : Comp datetime :=
  let second := timestamp / 1000 in
  let local := second + utcoffset second in
  if local <? END_OF_MAXYEAR then ret (mk_datetime local (timestamp mod 1000))
  else raise TimestampError.

(** The body of the [try] statement, after the file was read. *)
Definition parse_body (data : bytes) : Comp ending :=
  if len data <? 32 then
    print (Text "File too small to contain valid data") ;;
    ret TooSmall
  else
    b <- getslice data 0 4 ;;
    version <- unpack_uint 4 b ;;
    b <- getslice data 4 12 ;;
    generation <- unpack_uint 8 b ;;
    b <- getslice data 12 20 ;;
    timestamp <- unpack_uint 8 b ;;
    print (Text "Shared Memory Cache Debug") ;;
    print (Text "========================") ;;
    print (Version version) ;;
    print (Generation generation) ;;
    t <- fromtimestamp timestamp ;;
    print (Timestamp t) ;;
    print (Text "") ;;
    let offset := 32 in
    if offset + 4 >? len data then
      print (Text "No sink data found") ;;
      ret NoSinkData
    else
      b <- getslice data offset (offset + 4) ;;
      sink_count <- unpack_uint 4 b ;;
      let offset := offset + 4 in
      print (SinksHeader sink_count) ;;
      offset <- sink_loop data (Z.to_nat sink_count) offset ;;
      print (Text "") ;;
      if offset + 4 >? len data then
        print (Text "No app data found") ;;
        ret (NoAppData offset)
      else
        b <- getslice data offset (offset + 4) ;;
        app_count <- unpack_uint 4 b ;;
        let offset := offset + 4 in
        print (AppsHeader app_count) ;;
        offset <- app_loop data (Z.to_nat app_count) offset ;;
        print (Text "") ;;
        print (TotalSize (len data)) ;;
        ret (Finished offset).

(** [parse_shared_memory(filename)], given what opening and reading the
    file yields: its bytes, or [None] when the file does not exist.  The
    handlers of the [try] statement turn an exception into a last line. *)
Definition parse_shared_memory (file : option bytes) : list event :=
  match file with
  | None => [Print FileNotFound]
  | Some data =>
    match parse_body data with
    | (tr, inr _) => tr
    | (tr, inl e) => tr ++ [Print (ErrorParsing e)]
    end
  end.

End Host.

(** A host on UTC. *)
Definition utc (second : Z) : Z := 0.

(* ================================================================== *)
(** * The layout of a snapshot, as its producer writes it

    The script only reads.  The definitions of this part follow the data
    model of the format: they build the buffer the round-trip and truncation
    properties speak of. *)

Module Layout.

Record header : Type := mk_header {
  version : Z;
  generation : Z;
  timestamp_ms : Z;
  reserved : bytes
}.

Record sink : Type := mk_sink {
  sink_name : str;
  sink_id : Z;
  sink_volume : float32;
  sink_muted : bool
}.

Record app : Type := mk_app {
  app_name : str;
  app_current_sink : str;
  app_active : bool
}.

(** One length byte, then the UTF-8 bytes. *)
Definition put_string (s : str) : bytes :=
  of_Z (len (encode s)) :: encode s.

Definition put_bool (b : bool) : byte := if b then x01 else x00.

Definition put_header (h : header) : bytes :=
  le_encode 4 (version h) ++ le_encode 8 (generation h)
  ++ le_encode 8 (timestamp_ms h) ++ reserved h.

Definition put_sink (s : sink) : bytes :=
  put_string (sink_name s) ++ le_encode 4 (sink_id s)
  ++ le_encode 4 (float32_bits (sink_volume s)) ++ [put_bool (sink_muted s)].

Definition put_app (a : app) : bytes :=
  put_string (app_name a) ++ put_string (app_current_sink a)
  ++ [put_bool (app_active a)].

Definition put_sinks (sinks : list sink) : bytes :=
  le_encode 4 (Z.of_nat (length sinks)) ++ flat_map put_sink sinks.

Definition put_apps (apps : list app) : bytes :=
  le_encode 4 (Z.of_nat (length apps)) ++ flat_map put_app apps.

Definition put_snapshot (h : header) (sinks : list sink) (apps : list app) : bytes :=
  put_header h ++ put_sinks sinks ++ put_apps apps.

(** The sinks whose records lie whole within the first [room] bytes of the
    sink records: the longest run of records, from the first on, that fits. *)
Fixpoint complete_before (room : Z) (sinks : list sink) : list sink :=
  match sinks with
  | [] => []
  | s :: rest =>
    if len (put_sink s) <=? room
    then s :: complete_before (room - len (put_sink s)) rest
    else []
  end.

(** What the data model asks of the values written. *)
Definition wf_string (s : str) : Prop :=
  Forall scalar s /\ len (encode s) <= 255.

Definition wf_header (h : header) : Prop :=
  0 <= version h < 2 ^ 32 /\ 0 <= generation h < 2 ^ 64
  /\ 0 <= timestamp_ms h < 2 ^ 64 /\ length (reserved h) = 12%nat.

Definition wf_sink (s : sink) : Prop :=
  wf_string (sink_name s) /\ 0 <= sink_id s < 2 ^ 32
  /\ 0 <= float32_bits (sink_volume s) < 2 ^ 32.

Definition wf_app (a : app) : Prop :=
  wf_string (app_name a) /\ wf_string (app_current_sink a).

(** The header of a snapshot can be shown: its timestamp is a local date
    that [datetime] can hold. *)
Definition displayable (utcoffset : Z -> Z) (timestamp : Z) : Prop :=
  timestamp / 1000 + utcoffset (timestamp / 1000) < END_OF_MAXYEAR.

(** The lines a decoded snapshot is shown as. *)
Definition header_lines (utcoffset : Z -> Z) (h : header) : list line :=
  [ Text "Shared Memory Cache Debug";
    Text "========================";
    Version (version h);
    Generation (generation h);
    Timestamp (mk_datetime (timestamp_ms h / 1000 + utcoffset (timestamp_ms h / 1000))
                           (timestamp_ms h mod 1000));
    Text "" ].

(** The line printed for a sink written as [s]: its name, id and flag, and
    the float that the volume pattern written unpacks to. *)
Definition sink_line (s : sink) : line :=
  SinkLine (sink_name s) (sink_id s) (F32 (widen (float32_bits (sink_volume s))))
           (sink_muted s).

(** The same line with the volume pattern exactly as it was written. *)
Definition sink_as_written (s : sink) : line :=
  SinkLine (sink_name s) (sink_id s) (sink_volume s) (sink_muted s).

Definition app_line (a : app) : line :=
  AppLine (app_name a) (app_current_sink a) (app_active a).

End Layout.
Import Layout.

(** The header a buffer of at least 32 bytes holds: what the three
    [struct.unpack] calls of the script read. *)
Definition header_of (data : bytes) : header :=
  mk_header (le_decode (slice data 0 4)) (le_decode (slice data 4 12))
            (le_decode (slice data 12 20)) (slice data 20 32).

(** The integer at an index inside the buffer ([0] outside, where the script
    never looks). *)
Definition byte_at (data : bytes) (i : Z) : Z :=
  match item data i with
  | Some b => to_Z b
  | None => 0
  end.

(** The three reads of the header fields. *)
Definition header_reads : list event := [Slice 0 4; Slice 4 12; Slice 12 20].

(** The lines printed before the timestamp is converted. *)
Definition opening_lines (h : header) : list line :=
  [ Text "Shared Memory Cache Debug";
    Text "========================";
    Version (version h);
    Generation (generation h) ].

(** The end of the body, from the blank line after the sink loop on, as a
    function of the cursor the sink loop leaves. *)
Definition app_section (data : bytes) (offset : Z) : Comp ending :=
  print (Text "") ;;
  if offset + 4 >? len data then
    print (Text "No app data found") ;;
    ret (NoAppData offset)
  else
    b <- getslice data offset (offset + 4) ;;
    app_count <- unpack_uint 4 b ;;
    let offset := offset + 4 in
    print (AppsHeader app_count) ;;
    offset <- app_loop data (Z.to_nat app_count) offset ;;
    print (Text "") ;;
    print (TotalSize (len data)) ;;
    ret (Finished offset).

Definition is_sink_line (l : line) : bool :=
  match l with SinkLine _ _ _ _ => true | _ => false end.

Definition is_app_line (l : line) : bool :=
  match l with AppLine _ _ _ => true | _ => false end.

Definition is_error_line (l : line) : bool :=
  match l with ErrorParsing _ => true | _ => false end.

(** A line of the app section: its header, an app, a blank line, the
    missing-count report or the total size. *)
Definition is_app_section_line (l : line) : bool :=
  match l with
  | AppsHeader _ | AppLine _ _ _ | TotalSize _ | Text _ => true
  | _ => false
  end.

(* ================================================================== *)
(** * Sample snapshots *)

Module Samples.

(** "Speakers" and "firefox" *)
Definition speakers : str := [83; 112; 101; 97; 107; 101; 114; 115].
Definition firefox : str := [102; 105; 114; 101; 102; 111; 120].

(** Volume 0.75 is the binary32 pattern 0x3F400000. *)
Definition sample_sink : sink := mk_sink speakers 7 (F32 0x3F400000) false.
Definition sample_app : app := mk_app firefox speakers true.

Definition sample_header : header := mk_header 1 42 1700000000000 (repeat x00 12).

(** A header whose timestamp is the largest the field holds. *)
Definition late_header : header := mk_header 1 42 (2 ^ 64 - 1) (repeat x00 12).

Definition sample_snapshot : bytes :=
  put_snapshot sample_header [sample_sink] [sample_app].

Definition late_snapshot : bytes :=
  put_snapshot late_header [sample_sink] [sample_app].

(** A sink whose volume is the signaling NaN 0x7FA00000, under the sample
    header. *)
Definition nan_sink : sink := mk_sink speakers 7 (F32 0x7FA00000) false.

Definition nan_snapshot : bytes :=
  put_snapshot sample_header [nan_sink] [sample_app].

(** The sample header and a sink count of 3, and the same under the late
    header: 36 bytes each. *)
Definition three_announced : bytes := put_header sample_header ++ le_encode 4 3.
Definition late_three_announced : bytes := put_header late_header ++ le_encode 4 3.

(** Two sinks under the late header, cut five bytes into the second. *)
Definition late_two_sinks_cut : bytes :=
  firstn 59 (put_header late_header ++ put_sinks [sample_sink; sample_sink]).

(** Two sinks under the sample header, cut five bytes into the second. *)
Definition two_sinks_cut : bytes :=
  firstn 59 (put_header sample_header ++ put_sinks [sample_sink; sample_sink]).

(** Only the header of [late_snapshot]. *)
Definition late_header_only : bytes := put_header late_header.

(** A header, no sink, one app announced, and two more bytes: a length byte
    5 with one byte after it, or an empty name and then a length byte 5. *)
Definition cut_in_name : bytes :=
  put_header sample_header ++ le_encode 4 0 ++ le_encode 4 1 ++ [x05; x00].

(** A string field of one byte that is not UTF-8. *)
Definition invalid_name : bytes := [x01; xff].

End Samples.
Import Samples.

(* ================================================================== *)
(** * Records as they lie in the buffer

    The scan frames a record by its length bytes alone.  A record here is
    any run of bytes with that framing: the name fields hold arbitrary
    bytes and the flag is an arbitrary byte. *)

Module Records.

(** What [payload.decode('utf-8', errors='ignore')] returns. *)
Definition lenient (payload : bytes) : str := resolve [] (scan payload).

Record sink_record : Type := mk_sink_record {
  rs_name : bytes;
  rs_id : Z;
  rs_volume : float32;
  rs_flag : byte
}.

Record app_record : Type := mk_app_record {
  ra_name : bytes;
  ra_current_sink : bytes;
  ra_flag : byte
}.

(** One length byte, then the payload. *)
Definition put_field (payload : bytes) : bytes := of_Z (len payload) :: payload.

Definition put_sink_record (r : sink_record) : bytes :=
  put_field (rs_name r) ++ le_encode 4 (rs_id r)
  ++ le_encode 4 (float32_bits (rs_volume r)) ++ [rs_flag r].

Definition put_app_record (r : app_record) : bytes :=
  put_field (ra_name r) ++ put_field (ra_current_sink r) ++ [ra_flag r].

(** The fields fit their framing: a payload of at most 255 bytes, a number
    of four bytes. *)
Definition framed_sink (r : sink_record) : Prop :=
  len (rs_name r) <= 255 /\ 0 <= rs_id r < 2 ^ 32
  /\ 0 <= float32_bits (rs_volume r) < 2 ^ 32.

Definition framed_app (r : app_record) : Prop :=
  len (ra_name r) <= 255 /\ len (ra_current_sink r) <= 255.

(** The line the script prints for a record. *)
Definition shown_sink (r : sink_record) : line :=
  SinkLine (lenient (rs_name r)) (rs_id r) (F32 (widen (float32_bits (rs_volume r))))
           (to_Z (rs_flag r) =? 1).

Definition shown_app (r : app_record) : line :=
  AppLine (lenient (ra_name r)) (lenient (ra_current_sink r)) (to_Z (ra_flag r) =? 1).

(** The app records that lie whole within the first [room] bytes of the app
    records. *)
Fixpoint whole_apps (room : Z) (apps : list app_record) : list app_record :=
  match apps with
  | [] => []
  | a :: rest =>
    if len (put_app_record a) <=? room
    then a :: whole_apps (room - len (put_app_record a)) rest
    else []
  end.

(** A buffer made of a header, a sink count and sink records, then whatever
    follows. *)
Definition put_sink_section (h : header) (count : Z) (sinks : list sink_record) : bytes :=
  put_header h ++ le_encode 4 count ++ flat_map put_sink_record sinks.

Definition put_app_section (count : Z) (apps : list app_record) : bytes :=
  le_encode 4 count ++ flat_map put_app_record apps.

End Records.
Import Records.

(* ================================================================== *)
(** * The order of the reads *)

(** The position a trace leaves the scan at, from [pos]: the end of its last
    read. *)
Fixpoint reach (pos : Z) (tr : list event) : Z :=
  match tr with
  | [] => pos
  | Print _ :: tr' => reach pos tr'
  | Index i :: tr' => reach (i + 1) tr'
  | Slice lo hi :: tr' => reach hi tr'
  end.

(** A trace that only goes forward from [pos]: every read starts at or
    after the end of the read before it. *)
Fixpoint forward (pos : Z) (tr : list event) : Prop :=
  match tr with
  | [] => True
  | Print _ :: tr' => forward pos tr'
  | Index i :: tr' => pos <= i /\ forward (i + 1) tr'
  | Slice lo hi :: tr' => pos <= lo <= hi /\ forward hi tr'
  end.

(** The event reads the byte at index [k]. *)
Definition reads_byte (k : Z) (ev : event) : Prop :=
  match ev with
  | Print _ => False
  | Index i => i = k
  | Slice lo hi => lo <= k < hi
  end.

(** The numbers of a line fit the fields they were read from, and a name has
    at most 255 code points, none of them a surrogate. *)
Definition name_in_range (s : str) : Prop :=
  Z.of_nat (length s) <= 255 /\ Forall scalar s.

Definition line_in_range (l : line) : Prop :=
  match l with
  | Version v => 0 <= v < 2 ^ 32
  | Generation g => 0 <= g < 2 ^ 64
  | SinksHeader n => 0 <= n < 2 ^ 32
  | AppsHeader n => 0 <= n < 2 ^ 32
  | SinkLine name id volume _ =>
    name_in_range name /\ 0 <= id < 2 ^ 32 /\ 0 <= float32_bits volume < 2 ^ 32
  | AppLine name current_sink _ => name_in_range name /\ name_in_range current_sink
  | TotalSize n => 0 <= n
  | _ => True
  end.

(* ================================================================== *)
(** * More sample buffers *)

Module MoreSamples.

(** A sink whose name is the two bytes [c3 28], not UTF-8, with flag 2, and
    an app whose names are [ff 41] and [42], with flag 1. *)
Definition odd_sink : sink_record := mk_sink_record [xc3; x28] 7 (F32 0x3F400000) x02.
Definition odd_app : app_record := mk_app_record [xff; x41] [x42] x01.

(** The same sink with flag 1. *)
Definition odd_sink_muted : sink_record :=
  mk_sink_record [xc3; x28] 9 (F32 0) x01.

End MoreSamples.
Import MoreSamples.

(* ================================================================== *)
(** * Facts about bytes objects *)

Section BytesFacts.

Lemma to_Z_range (b : byte) : 0 <= to_Z b < 256.
Proof.
  unfold to_Z. pose proof (Byte.to_N_bounded b) as H.
  apply N2Z.inj_le in H. simpl in H. lia.
Qed.

Lemma to_Z_of_Z (z : Z) : 0 <= z < 256 -> to_Z (of_Z z) = z.
Proof.
  intros Hz. unfold of_Z, to_Z.
  destruct (Byte.of_N (Z.to_N z)) as [b|] eqn:E.
  - apply Byte.to_of_N in E. rewrite E. lia.
  - apply Byte.of_N_None_iff in E. lia.
Qed.

Lemma of_Z_to_Z (b : byte) : of_Z (to_Z b) = b.
Proof.
  unfold of_Z, to_Z. rewrite N2Z.id, Byte.of_to_N. reflexivity.
Qed.

Lemma len_nonneg (data : bytes) : 0 <= len data.
Proof. unfold len. lia. Qed.

Lemma len_app (a b : bytes) : len (a ++ b) = len a + len b.
Proof. unfold len. rewrite length_app. lia. Qed.

Lemma len_cons (x : byte) (a : bytes) : len (x :: a) = 1 + len a.
Proof. unfold len. simpl length. lia. Qed.

Lemma len_nil : len [] = 0.
Proof. reflexivity. Qed.

Lemma clamp_inside (n i : Z) : 0 <= i <= n -> clamp n i = i.
Proof.
  intros H. unfold clamp. destruct (Z.ltb_spec i 0); lia.
Qed.

Lemma slice_inside (data : bytes) (lo hi : Z) :
  0 <= lo <= hi -> hi <= len data ->
  slice data lo hi = firstn (Z.to_nat (hi - lo)) (skipn (Z.to_nat lo) data).
Proof.
  intros H1 H2. unfold slice. rewrite !clamp_inside by lia. reflexivity.
Qed.

Lemma length_slice (data : bytes) (lo hi : Z) :
  0 <= lo <= hi -> hi <= len data ->
  length (slice data lo hi) = Z.to_nat (hi - lo).
Proof.
  intros H1 H2. rewrite slice_inside by assumption.
  rewrite length_firstn, length_skipn. unfold len in H2. lia.
Qed.

Lemma len_slice (data : bytes) (lo hi : Z) :
  0 <= lo <= hi -> hi <= len data -> len (slice data lo hi) = hi - lo.
Proof.
  intros H1 H2. unfold len at 1. rewrite length_slice by assumption. lia.
Qed.

(** The slice that covers a middle part of the buffer is that part. *)
Lemma slice_app (pre mid post : bytes) :
  slice (pre ++ mid ++ post) (len pre) (len pre + len mid) = mid.
Proof.
  rewrite slice_inside.
  - replace (Z.to_nat (len pre)) with (length pre) by (unfold len; lia).
    replace (Z.to_nat (len pre + len mid - len pre)) with (length mid)
      by (unfold len; lia).
    rewrite skipn_app, skipn_all, Nat.sub_diag. simpl.
    rewrite firstn_app, firstn_all, Nat.sub_diag. simpl.
    apply app_nil_r.
  - pose proof (len_nonneg pre). pose proof (len_nonneg mid). lia.
  - rewrite !len_app. pose proof (len_nonneg post). lia.
Qed.

Lemma item_inside (data : bytes) (i : Z) :
  0 <= i < len data -> exists b, item data i = Some b.
Proof.
  intros H. unfold item.
  destruct (Z.leb_spec 0 i); [|lia]. destruct (Z.ltb_spec i (len data)); [|lia].
  simpl. destruct (nth_error data (Z.to_nat i)) as [b|] eqn:E.
  - now exists b.
  - apply nth_error_None in E. unfold len in H. lia.
Qed.

Lemma item_app (pre post : bytes) (b : byte) :
  item (pre ++ b :: post) (len pre) = Some b.
Proof.
  unfold item. pose proof (len_nonneg pre) as H0.
  rewrite len_app, len_cons. pose proof (len_nonneg post).
  destruct (Z.leb_spec 0 (len pre)); [|lia].
  destruct (Z.ltb_spec (len pre) (len pre + (1 + len post))); [|lia].
  simpl. replace (Z.to_nat (len pre)) with (length pre) by (unfold len; lia).
  rewrite nth_error_app2 by lia. now rewrite Nat.sub_diag.
Qed.

Lemma byte_at_app (pre post : bytes) (b : byte) :
  byte_at (pre ++ b :: post) (len pre) = to_Z b.
Proof. unfold byte_at. now rewrite item_app. Qed.

Lemma length_le_encode (n : nat) (v : Z) : length (le_encode n v) = n.
Proof.
  revert v. induction n as [|n IH]; intros v; simpl; [reflexivity|].
  now rewrite IH.
Qed.

Lemma len_le_encode (n : nat) (v : Z) : len (le_encode n v) = Z.of_nat n.
Proof. unfold len. now rewrite length_le_encode. Qed.

(** A little-endian field reads back as the value written. *)
Lemma le_decode_encode (n : nat) (v : Z) :
  0 <= v < 256 ^ Z.of_nat n -> le_decode (le_encode n v) = v.
Proof.
  revert v. induction n as [|n IH]; intros v Hv.
  - simpl in *. lia.
  - cbn [le_encode le_decode].
    rewrite to_Z_of_Z by (apply Z.mod_pos_bound; lia).
    rewrite IH.
    + pose proof (Z.div_mod v 256). lia.
    + rewrite Nat2Z.inj_succ, Z.pow_succ_r in Hv by lia.
      split; [apply Z.div_pos; lia|].
      apply Z.div_lt_upper_bound; lia.
Qed.

Lemma le_decode_range (b : bytes) : 0 <= le_decode b < 256 ^ len b.
Proof.
  induction b as [|x b IH].
  - simpl. lia.
  - cbn [le_decode]. rewrite len_cons.
    replace (1 + len b) with (Z.succ (len b)) by lia.
    rewrite Z.pow_succ_r by apply len_nonneg.
    pose proof (to_Z_range x). lia.
Qed.

End BytesFacts.

Section FloatFacts.

Lemma widen_range (bits : Z) : 0 <= bits < 2 ^ 32 -> 0 <= widen bits < 2 ^ 32.
Proof.
  intros H. unfold widen, signaling_nan.
  destruct (Z.eqb_spec ((bits / 0x800000) mod 256) 255) as [E1|E1];
    [|cbn [andb]; exact H].
  destruct (Z.eqb_spec (bits mod 0x800000) 0) as [E2|E2]; [cbn [andb negb]; exact H|].
  destruct (Z.eqb_spec ((bits / 0x400000) mod 2) 0) as [E3|E3];
    [|cbn [andb negb]; exact H].
  cbn [andb negb]. Z.div_mod_to_equations. lia.
Qed.

(** A pattern that is not a signaling NaN is the pattern of the float it
    unpacks to. *)
Lemma widen_quiet (bits : Z) : signaling_nan bits = false -> widen bits = bits.
Proof. intros H. unfold widen. now rewrite H. Qed.

End FloatFacts.

(* ================================================================== *)
(** * UTF-8: what is encoded decodes back *)

Section Utf8Facts.

Local Ltac divmod := Z.div_mod_to_equations; lia.

(** Settle the comparisons met on the way through [scan]. *)
Local Ltac compare :=
  repeat match goal with
  | |- context [?x <? ?y] => destruct (Z.ltb_spec x y); try lia
  | |- context [?x <=? ?y] => destruct (Z.leb_spec x y); try lia
  | |- context [?x =? ?y] => destruct (Z.eqb_spec x y); try lia
  end.

Local Ltac shifts :=
  rewrite !Z.shiftl_mul_pow2 by lia;
  change (2 ^ 6) with 64; change (2 ^ 12) with 4096; change (2 ^ 18) with 262144.

Lemma scan_encode_char (cp : Z) (rest : bytes) :
  scalar cp -> scan (encode_char cp ++ rest) = Char cp :: scan rest.
Proof.
  intros [Hr Hs]. unfold encode_char.
  destruct (Z.ltb_spec cp 0x80) as [H1|H1];
    [|destruct (Z.ltb_spec cp 0x800) as [H2|H2];
      [|destruct (Z.ltb_spec cp 0x10000) as [H3|H3]]].
  - cbn [List.app scan]; cbv zeta.
    rewrite !to_Z_of_Z by lia. compare. reflexivity.
  - set (a := cp / 64). set (d := cp mod 64).
    assert (cp = 64 * a + d /\ 0 <= d < 64) as [E Hd] by (subst a d; divmod).
    clearbody a d. subst cp.
    cbn [List.app scan]; cbv zeta; unfold is_continuation.
    rewrite !to_Z_of_Z by lia. compare. cbn [negb andb orb].
    f_equal. f_equal. shifts. lia.
  - set (a := cp / 4096). set (b := (cp / 64) mod 64). set (d := cp mod 64).
    assert (cp = 4096 * a + 64 * b + d /\ 0 <= b < 64 /\ 0 <= d < 64)
      as (E & Hb & Hd) by (subst a b d; divmod).
    clearbody a b d. subst cp.
    cbn [List.app scan]; cbv zeta; unfold is_continuation.
    rewrite !to_Z_of_Z by lia.
    compare; cbn [negb andb orb]; f_equal; f_equal; shifts; lia.
  - set (a := cp / 262144). set (b := (cp / 4096) mod 64).
    set (c := (cp / 64) mod 64). set (d := cp mod 64).
    assert (cp = 262144 * a + 4096 * b + 64 * c + d
            /\ 0 <= b < 64 /\ 0 <= c < 64 /\ 0 <= d < 64)
      as (E & Hb & Hc & Hd) by (subst a b c d; divmod).
    clearbody a b c d. subst cp.
    cbn [List.app scan]; cbv zeta; unfold is_continuation.
    rewrite !to_Z_of_Z by lia.
    compare; cbn [negb andb orb]; f_equal; f_equal; shifts; lia.
Qed.

Lemma scan_encode (s : str) (rest : bytes) :
  Forall scalar s -> scan (encode s ++ rest) = map Char s ++ scan rest.
Proof.
  induction 1 as [|cp s Hcp Hs IH]; [reflexivity|].
  unfold encode in *. cbn [flat_map map List.app].
  rewrite <- app_assoc, scan_encode_char by assumption.
  now rewrite IH.
Qed.

Lemma resolve_chars (subst : str) (s : str) : resolve subst (map Char s) = s.
Proof. induction s as [|cp s IH]; simpl; [reflexivity|now rewrite IH]. Qed.

(** The string a producer encodes is the string [bytes.decode] returns,
    under any handler. *)
Lemma decode_encode (e : errors) (s : str) :
  Forall scalar s -> decode e (encode s) = Some s.
Proof.
  intros H. pose proof (scan_encode s [] H) as E.
  rewrite !app_nil_r in E. unfold decode. rewrite E, !resolve_chars.
  destruct e; try reflexivity.
  replace (all_decodable (map Char s)) with true; [reflexivity|].
  symmetry. unfold all_decodable. apply forallb_forall.
  intros c Hc. apply in_map_iff in Hc. destruct Hc as (cp & <- & _). reflexivity.
Qed.

Lemma of_Z_eq (b : byte) (z : Z) : z = to_Z b -> of_Z z = b.
Proof. intros ->. apply of_Z_to_Z. Qed.

Lemma encode_cons (cp : Z) (s : str) : encode (cp :: s) = encode_char cp ++ encode s.
Proof. reflexivity. Qed.

Lemma encode_char_1 (b1 : byte) : to_Z b1 < 0x80 -> encode_char (to_Z b1) = [b1].
Proof.
  intros H. unfold encode_char. destruct (Z.ltb_spec (to_Z b1) 0x80); [|lia].
  now rewrite of_Z_to_Z.
Qed.

Lemma encode_char_2 (b1 b2 : byte) :
  0xC2 <= to_Z b1 < 0xE0 -> 0x80 <= to_Z b2 < 0xC0 ->
  encode_char (Z.shiftl (to_Z b1) 6 + to_Z b2 - (Z.shiftl 0xC0 6 + 0x80)) = [b1; b2].
Proof.
  intros H1 H2. shifts. unfold encode_char. compare.
  f_equal; [|f_equal]; apply of_Z_eq; divmod.
Qed.

Lemma encode_char_3 (b1 b2 b3 : byte) :
  0xE0 <= to_Z b1 < 0xF0 -> 0x80 <= to_Z b2 < 0xC0 -> 0x80 <= to_Z b3 < 0xC0 ->
  (to_Z b1 = 0xE0 -> 0xA0 <= to_Z b2) -> (to_Z b1 = 0xED -> to_Z b2 < 0xA0) ->
  encode_char (Z.shiftl (to_Z b1) 12 + Z.shiftl (to_Z b2) 6 + to_Z b3
               - (Z.shiftl 0xE0 12 + Z.shiftl 0x80 6 + 0x80)) = [b1; b2; b3].
Proof.
  intros H1 H2 H3 Ha Hb. shifts. unfold encode_char. compare.
  f_equal; [|f_equal; [|f_equal]]; apply of_Z_eq; divmod.
Qed.

Lemma encode_char_4 (b1 b2 b3 b4 : byte) :
  0xF0 <= to_Z b1 < 0xF5 -> 0x80 <= to_Z b2 < 0xC0 -> 0x80 <= to_Z b3 < 0xC0 ->
  0x80 <= to_Z b4 < 0xC0 ->
  (to_Z b1 = 0xF0 -> 0x90 <= to_Z b2) -> (to_Z b1 = 0xF4 -> to_Z b2 < 0x90) ->
  encode_char (Z.shiftl (to_Z b1) 18 + Z.shiftl (to_Z b2) 12 + Z.shiftl (to_Z b3) 6
               + to_Z b4
               - (Z.shiftl 0xF0 18 + Z.shiftl 0x80 12 + Z.shiftl 0x80 6 + 0x80))
  = [b1; b2; b3; b4].
Proof.
  intros H1 H2 H3 H4 Ha Hb. shifts. unfold encode_char. compare.
  f_equal; [|f_equal; [|f_equal; [|f_equal]]]; apply of_Z_eq; divmod.
Qed.


Lemma subseq_nil_l {A : Type} (l : list A) : subseq [] l.
Proof. induction l; constructor; assumption. Qed.

(** What the [ignore] handler returns, encoded again, is the buffer with
    bytes deleted: the sequences that decode are kept as they are, in
    order, and nothing is put in for the others. *)
Lemma ignore_deletes_aux (n : nat) : forall s : bytes,
  (length s <= n)%nat -> subseq (encode (resolve [] (scan s))) s.
Proof.
  induction n as [|n IH]; intros s Hn.
  { destruct s; [constructor|simpl in Hn; lia]. }
  destruct s as [|b1 s1]; [constructor|].
  cbn [length] in Hn. cbn [scan]; cbv zeta. unfold is_continuation.
  pose proof (to_Z_range b1) as R1.
  destruct (Z.ltb_spec (to_Z b1) 0x80).
  { cbn [resolve]. rewrite encode_cons, encode_char_1 by assumption.
    apply subseq_keep, IH. lia. }
  destruct (Z.ltb_spec (to_Z b1) 0xC2).
  { cbn [resolve List.app]. apply subseq_drop, IH. lia. }
  destruct (Z.ltb_spec (to_Z b1) 0xE0).
  { destruct s1 as [|b2 s2]; [apply subseq_nil_l|].
    cbn [length] in Hn.
    destruct (Z.leb_spec 0x80 (to_Z b2)); destruct (Z.ltb_spec (to_Z b2) 0xC0);
      cbn [negb andb orb resolve List.app];
      try (apply subseq_drop, IH; cbn [length]; lia).
    rewrite encode_cons, encode_char_2 by lia.
    do 2 apply subseq_keep. apply IH. lia. }
  destruct (Z.ltb_spec (to_Z b1) 0xF0).
  { destruct s1 as [|b2 s2]; [apply subseq_nil_l|].
    cbn [length] in Hn.
    destruct (Z.leb_spec 0x80 (to_Z b2)); destruct (Z.ltb_spec (to_Z b2) 0xC0);
      destruct (Z.ltb_spec (to_Z b2) 0xA0);
      destruct (Z.eqb_spec (to_Z b1) 0xE0); destruct (Z.eqb_spec (to_Z b1) 0xED);
      cbn [negb andb orb resolve List.app];
      try lia; try (apply subseq_drop, IH; cbn [length]; lia).
    all: destruct s2 as [|b3 s3]; [apply subseq_nil_l|]; cbn [length] in Hn;
      destruct (Z.leb_spec 0x80 (to_Z b3)); destruct (Z.ltb_spec (to_Z b3) 0xC0);
      cbn [negb andb orb resolve List.app];
      try (do 2 apply subseq_drop; apply IH; cbn [length]; lia);
      rewrite encode_cons, encode_char_3 by lia;
      do 3 apply subseq_keep; apply IH; lia. }
  destruct (Z.ltb_spec (to_Z b1) 0xF5).
  { destruct s1 as [|b2 s2]; [apply subseq_nil_l|].
    cbn [length] in Hn.
    destruct (Z.leb_spec 0x80 (to_Z b2)); destruct (Z.ltb_spec (to_Z b2) 0xC0);
      destruct (Z.ltb_spec (to_Z b2) 0x90);
      destruct (Z.eqb_spec (to_Z b1) 0xF0); destruct (Z.eqb_spec (to_Z b1) 0xF4);
      cbn [negb andb orb resolve List.app];
      try lia; try (apply subseq_drop, IH; cbn [length]; lia).
    all: destruct s2 as [|b3 s3]; [apply subseq_nil_l|]; cbn [length] in Hn;
      destruct (Z.leb_spec 0x80 (to_Z b3)); destruct (Z.ltb_spec (to_Z b3) 0xC0);
      cbn [negb andb orb resolve List.app];
      try (do 2 apply subseq_drop; apply IH; cbn [length]; lia);
      (destruct s3 as [|b4 s4]; [apply subseq_nil_l|]); cbn [length] in Hn;
      destruct (Z.leb_spec 0x80 (to_Z b4)); destruct (Z.ltb_spec (to_Z b4) 0xC0);
      cbn [negb andb orb resolve List.app];
      try (do 3 apply subseq_drop; apply IH; cbn [length]; lia);
      rewrite encode_cons, encode_char_4 by lia;
      do 4 apply subseq_keep; apply IH; lia. }
  cbn [resolve List.app]. apply subseq_drop, IH. lia.
Qed.

Lemma ignore_deletes (s : bytes) : subseq (encode (resolve [] (scan s))) s.
Proof. apply (ignore_deletes_aux (length s)). lia. Qed.

End Utf8Facts.

(* ================================================================== *)
(** * Facts about the string helper *)

Section ReadString.

Variable data : bytes.

Lemma getitem_inside (i : Z) :
  0 <= i < len data -> getitem data i = ([Index i], inr (byte_at data i)).
Proof.
  intros H. unfold getitem, byte_at.
  destruct (item_inside data i H) as [b ->]. reflexivity.
Qed.

Lemma byte_at_range (i : Z) : 0 <= byte_at data i < 256.
Proof.
  unfold byte_at. destruct (item data i); [apply to_Z_range|lia].
Qed.

Lemma unpack_uint_slice (size : nat) (lo : Z) :
  0 <= lo -> lo + Z.of_nat size <= len data ->
  unpack_uint size (slice data lo (lo + Z.of_nat size))
  = ret (le_decode (slice data lo (lo + Z.of_nat size))).
Proof.
  intros H1 H2. unfold unpack_uint.
  rewrite length_slice by lia.
  replace (Z.to_nat (lo + Z.of_nat size - lo)) with size by lia.
  now rewrite Nat.eqb_refl.
Qed.

Lemma unpack_uint_field (size : nat) (lo hi : Z) :
  0 <= lo -> hi = lo + Z.of_nat size -> hi <= len data ->
  unpack_uint size (slice data lo hi) = ([], inr (le_decode (slice data lo hi))).
Proof. intros H1 -> H2. now apply unpack_uint_slice. Qed.

Lemma unpack_float_slice (lo : Z) :
  0 <= lo -> lo + 4 <= len data ->
  unpack_float (slice data lo (lo + 4))
  = ret (F32 (widen (le_decode (slice data lo (lo + 4))))).
Proof.
  intros H1 H2. unfold unpack_float.
  rewrite length_slice by lia.
  replace (Z.to_nat (lo + 4 - lo)) with 4%nat by lia.
  reflexivity.
Qed.

(** At or past the end: no read, [None], cursor unchanged. *)
Lemma read_string_past (c : Z) :
  len data <= c -> read_string data c = ([], inr (None, c)).
Proof.
  intros H. unfold read_string.
  rewrite Z.geb_leb. destruct (Z.leb_spec (len data) c); [reflexivity|lia].
Qed.

(** The payload does not fit: the length byte was read, [None], cursor
    after the length byte. *)
Lemma read_string_short (c : Z) :
  0 <= c < len data -> len data < c + 1 + byte_at data c ->
  read_string data c = ([Index c], inr (None, c + 1)).
Proof.
  intros H1 H2. unfold read_string.
  rewrite Z.geb_leb. destruct (Z.leb_spec (len data) c); [lia|].
  rewrite getitem_inside by assumption. cbn [bind].
  rewrite Z.gtb_ltb.
  destruct (Z.ltb_spec (len data) (c + 1 + byte_at data c)); [reflexivity|lia].
Qed.

(** The payload fits: it is decoded under the [ignore] handler, cursor
    after the payload. *)
Lemma read_string_whole (c : Z) :
  0 <= c < len data -> c + 1 + byte_at data c <= len data ->
  read_string data c
  = ([Index c; Slice (c + 1) (c + 1 + byte_at data c)],
     inr (Some (resolve [] (scan (slice data (c + 1) (c + 1 + byte_at data c)))),
          c + 1 + byte_at data c)).
Proof.
  intros H1 H2. unfold read_string.
  rewrite Z.geb_leb. destruct (Z.leb_spec (len data) c); [lia|].
  rewrite getitem_inside by assumption. cbn [bind].
  rewrite Z.gtb_ltb.
  destruct (Z.ltb_spec (len data) (c + 1 + byte_at data c)); [lia|].
  reflexivity.
Qed.

(** Whatever the buffer holds, the helper returns, reads inside the buffer,
    prints nothing and leaves the cursor inside the buffer. *)
Lemma read_string_safe (c : Z) :
  0 <= c <= len data ->
  exists tr r c',
    read_string data c = (tr, inr (r, c'))
    /\ Forall (in_bounds (len data)) tr /\ stdout tr = []
    /\ c <= c' <= len data.
Proof.
  intros H.
  destruct (Z.le_gt_cases (len data) c) as [Hc|Hc].
  - exists [], None, c. rewrite read_string_past by assumption.
    repeat split; auto; lia.
  - pose proof (byte_at_range c) as Hb.
    destruct (Z.le_gt_cases (c + 1 + byte_at data c) (len data)) as [Hl|Hl].
    + eexists _, _, _. rewrite read_string_whole by lia.
      split; [reflexivity|]. repeat split; simpl; try lia.
      repeat constructor; simpl; lia.
    + eexists _, _, _. rewrite read_string_short by lia.
      split; [reflexivity|]. repeat split; simpl; try lia.
      repeat constructor; simpl; lia.
Qed.

End ReadString.

(* ================================================================== *)
(** * Facts about the two loops *)

Section Loops.

Variable data : bytes.

Lemma unpack_uint4 (lo : Z) :
  0 <= lo -> lo + 4 <= len data ->
  unpack_uint 4 (slice data lo (lo + 4)) = ([], inr (le_decode (slice data lo (lo + 4)))).
Proof. intros H1 H2. exact (unpack_uint_slice data 4 lo H1 H2). Qed.

Lemma unpack_uint8 (lo : Z) :
  0 <= lo -> lo + 8 <= len data ->
  unpack_uint 8 (slice data lo (lo + 8)) = ([], inr (le_decode (slice data lo (lo + 8)))).
Proof. intros H1 H2. exact (unpack_uint_slice data 8 lo H1 H2). Qed.

Lemma sink_loop_break_name (n : nat) (c : Z) tr c1 :
  read_string data c = (tr, inr (None, c1)) ->
  sink_loop data (S n) c = (tr, inr c1).
Proof.
  intros H. cbn [sink_loop]. rewrite H. cbn [bind ret]. now rewrite app_nil_r.
Qed.

Lemma sink_loop_break_fixed (n : nat) (c : Z) tr name c1 :
  read_string data c = (tr, inr (Some name, c1)) ->
  len data < c1 + 9 ->
  sink_loop data (S n) c = (tr, inr c1).
Proof.
  intros H Hl. cbn [sink_loop]. rewrite H. cbn [bind].
  rewrite Z.gtb_ltb. destruct (Z.ltb_spec (len data) (c1 + 9)); [|lia].
  cbn [ret]. now rewrite app_nil_r.
Qed.

(** One full turn of the sink loop. *)
Lemma sink_loop_step (n : nat) (c : Z) tr name c1 :
  read_string data c = (tr, inr (Some name, c1)) ->
  0 <= c1 -> c1 + 9 <= len data ->
  sink_loop data (S n) c
  = (tr ++ [Slice c1 (c1 + 4); Slice (c1 + 4) (c1 + 4 + 4); Index (c1 + 4 + 4);
            Print (SinkLine name (le_decode (slice data c1 (c1 + 4)))
                            (F32 (widen (le_decode (slice data (c1 + 4) (c1 + 4 + 4)))))
                            (byte_at data (c1 + 4 + 4) =? 1))]
        ++ events (sink_loop data n (c1 + 4 + 4 + 1)),
     outcome (sink_loop data n (c1 + 4 + 4 + 1))).
Proof.
  intros H H0 Hl. cbn [sink_loop]. rewrite H. cbn [bind].
  rewrite Z.gtb_ltb. destruct (Z.ltb_spec (len data) (c1 + 9)); [lia|].
  unfold getslice. cbn [bind].
  rewrite unpack_uint4 by lia. cbn [bind].
  rewrite unpack_float_slice by lia. cbn [bind ret].
  rewrite getitem_inside by lia. cbn [bind print].
  destruct (sink_loop data n (c1 + 4 + 4 + 1)) as [tr' r]. cbn [events outcome fst snd].
  rewrite <- ?app_assoc. reflexivity.
Qed.

Lemma app_loop_break_name (n : nat) (c : Z) tr c1 :
  read_string data c = (tr, inr (None, c1)) ->
  app_loop data (S n) c = (tr, inr c1).
Proof.
  intros H. cbn [app_loop]. rewrite H. cbn [bind ret]. now rewrite app_nil_r.
Qed.

Lemma app_loop_break_sink (n : nat) (c : Z) tr name c1 tr2 c2 :
  read_string data c = (tr, inr (Some name, c1)) ->
  read_string data c1 = (tr2, inr (None, c2)) ->
  app_loop data (S n) c = (tr ++ tr2, inr c2).
Proof.
  intros H H2. cbn [app_loop]. rewrite H. cbn [bind]. rewrite H2. cbn [bind ret].
  now rewrite app_nil_r.
Qed.

Lemma app_loop_break_flag (n : nat) (c : Z) tr name c1 tr2 current c2 :
  read_string data c = (tr, inr (Some name, c1)) ->
  read_string data c1 = (tr2, inr (Some current, c2)) ->
  len data <= c2 ->
  app_loop data (S n) c = (tr ++ tr2, inr c2).
Proof.
  intros H H2 Hl. cbn [app_loop]. rewrite H. cbn [bind]. rewrite H2. cbn [bind].
  rewrite Z.geb_leb. destruct (Z.leb_spec (len data) c2); [|lia].
  cbn [ret]. now rewrite app_nil_r.
Qed.

(** One full turn of the app loop. *)
Lemma app_loop_step (n : nat) (c : Z) tr name c1 tr2 current c2 :
  read_string data c = (tr, inr (Some name, c1)) ->
  read_string data c1 = (tr2, inr (Some current, c2)) ->
  0 <= c2 < len data ->
  app_loop data (S n) c
  = (tr ++ tr2 ++ [Index c2; Print (AppLine name current (byte_at data c2 =? 1))]
        ++ events (app_loop data n (c2 + 1)),
     outcome (app_loop data n (c2 + 1))).
Proof.
  intros H H2 Hl. cbn [app_loop]. rewrite H. cbn [bind]. rewrite H2. cbn [bind].
  rewrite Z.geb_leb. destruct (Z.leb_spec (len data) c2); [lia|].
  rewrite getitem_inside by lia. cbn [bind print].
  destruct (app_loop data n (c2 + 1)) as [tr' r]. cbn [events outcome fst snd].
  rewrite <- ?app_assoc. reflexivity.
Qed.

End Loops.

(* ================================================================== *)
(** * The loops stay inside the buffer *)

Section Safety.

Variable data : bytes.

Lemma stdout_app (a b : list event) : stdout (a ++ b) = stdout a ++ stdout b.
Proof.
  induction a as [|ev a IH]; [reflexivity|].
  destruct ev; simpl; now rewrite IH.
Qed.

Lemma stdout_prints (ls : list line) : stdout (map Print ls) = ls.
Proof. induction ls as [|l ls IH]; simpl; [reflexivity|now rewrite IH]. Qed.

Lemma prints_in_bounds (n : Z) (ls : list line) : Forall (in_bounds n) (map Print ls).
Proof. induction ls; simpl; constructor; simpl; auto. Qed.

(** The sink loop, from any cursor inside the buffer and for any count:
    it returns, every access is inside the buffer, it prints sink lines
    only, and the cursor it leaves is inside the buffer. *)
Lemma sink_loop_safe (n : nat) : forall c : Z,
  0 <= c <= len data ->
  exists tr c',
    sink_loop data n c = (tr, inr c')
    /\ Forall (in_bounds (len data)) tr
    /\ Forall (fun l => is_sink_line l = true) (stdout tr)
    /\ c <= c' <= len data.
Proof.
  induction n as [|n IH]; intros c Hc.
  - exists [], c. simpl. repeat split; auto; lia.
  - destruct (read_string_safe data c Hc) as (tr & r & c1 & Hr & Hb & Ho & Hc1).
    destruct r as [name|].
    + destruct (Z.le_gt_cases (c1 + 9) (len data)) as [Hl|Hl].
      * rewrite (sink_loop_step data n c tr name c1 Hr) by lia.
        destruct (IH (c1 + 4 + 4 + 1)) as (tr' & c' & E & Hb' & Ho' & Hc'); [lia|].
        rewrite E. cbn [events outcome fst snd].
        eexists _, c'. split; [reflexivity|]. split; [|split].
        -- apply Forall_app. split; [assumption|].
           apply Forall_app. split; [|assumption].
           repeat constructor; simpl; lia.
        -- rewrite !stdout_app, Ho. simpl. constructor; [reflexivity|assumption].
        -- lia.
      * rewrite (sink_loop_break_fixed data n c tr name c1 Hr) by lia.
        exists tr, c1. rewrite Ho. repeat split; auto; lia.
    + rewrite (sink_loop_break_name data n c tr c1 Hr).
      exists tr, c1. rewrite Ho. repeat split; auto; lia.
Qed.

(** The same for the app loop, which prints app lines only. *)
Lemma app_loop_safe (n : nat) : forall c : Z,
  0 <= c <= len data ->
  exists tr c',
    app_loop data n c = (tr, inr c')
    /\ Forall (in_bounds (len data)) tr
    /\ Forall (fun l => is_app_line l = true) (stdout tr)
    /\ c <= c' <= len data.
Proof.
  induction n as [|n IH]; intros c Hc.
  - exists [], c. simpl. repeat split; auto; lia.
  - destruct (read_string_safe data c Hc) as (tr & r & c1 & Hr & Hb & Ho & Hc1).
    destruct r as [name|].
    + destruct (read_string_safe data c1) as (tr2 & r2 & c2 & Hr2 & Hb2 & Ho2 & Hc2);
        [lia|].
      destruct r2 as [current|].
      * destruct (Z.le_gt_cases (len data) c2) as [Hl|Hl].
        -- rewrite (app_loop_break_flag data n c tr name c1 tr2 current c2 Hr Hr2 Hl).
           exists (tr ++ tr2), c2. rewrite stdout_app, Ho, Ho2.
           repeat split; auto; try lia. apply Forall_app; auto.
        -- rewrite (app_loop_step data n c tr name c1 tr2 current c2 Hr Hr2) by lia.
           destruct (IH (c2 + 1)) as (tr' & c' & E & Hb' & Ho' & Hc'); [lia|].
           rewrite E. cbn [events outcome fst snd].
           eexists _, c'. split; [reflexivity|]. split; [|split].
           ++ apply Forall_app. split; [assumption|].
              apply Forall_app. split; [assumption|].
              apply Forall_app. split; [|assumption].
              repeat constructor; simpl; lia.
           ++ rewrite !stdout_app, Ho, Ho2. simpl.
              constructor; [reflexivity|assumption].
           ++ lia.
      * rewrite (app_loop_break_sink data n c tr name c1 tr2 c2 Hr Hr2).
        exists (tr ++ tr2), c2. rewrite stdout_app, Ho, Ho2.
        repeat split; auto; try lia. apply Forall_app; auto.
    + rewrite (app_loop_break_name data n c tr c1 Hr).
      exists tr, c1. rewrite Ho. repeat split; auto; lia.
Qed.

(** The app section after a cursor inside the buffer. *)
Lemma app_section_absent (c : Z) :
  len data < c + 4 ->
  app_section data c
  = ([Print (Text ""); Print (Text "No app data found")], inr (NoAppData c)).
Proof.
  intros H. unfold app_section. cbn [bind print].
  rewrite Z.gtb_ltb. destruct (Z.ltb_spec (len data) (c + 4)); [|lia].
  reflexivity.
Qed.

Lemma app_section_present (c : Z) tr c' :
  0 <= c -> c + 4 <= len data ->
  app_loop data (Z.to_nat (le_decode (slice data c (c + 4)))) (c + 4) = (tr, inr c') ->
  app_section data c
  = (Print (Text "") :: Slice c (c + 4)
       :: Print (AppsHeader (le_decode (slice data c (c + 4))))
       :: tr ++ [Print (Text ""); Print (TotalSize (len data))],
     inr (Finished c')).
Proof.
  intros H0 H E. unfold app_section. cbn [bind print].
  rewrite Z.gtb_ltb. destruct (Z.ltb_spec (len data) (c + 4)); [lia|].
  unfold getslice. cbn [bind]. rewrite unpack_uint4 by lia. cbn [bind].
  rewrite E. cbn [bind ret]. rewrite ?app_nil_r. reflexivity.
Qed.

Lemma app_section_safe (c : Z) :
  0 <= c <= len data ->
  exists tr e,
    app_section data c = (tr, inr e)
    /\ Forall (in_bounds (len data)) tr
    /\ Forall (fun l => is_app_section_line l = true) (stdout tr)
    /\ (e = NoAppData c /\ len data < c + 4
        \/ exists c', e = Finished c' /\ c + 4 <= c' <= len data).
Proof.
  intros Hc. destruct (Z.le_gt_cases (c + 4) (len data)) as [Hl|Hl].
  - destruct (app_loop_safe (Z.to_nat (le_decode (slice data c (c + 4)))) (c + 4))
      as (tr & c' & E & Hb & Ho & Hc'); [lia|].
    rewrite (app_section_present c tr c') by (assumption || lia).
    eexists _, _. split; [reflexivity|]. split; [|split].
    + constructor; [exact I|]. constructor; [simpl; lia|]. constructor; [exact I|].
      apply Forall_app. split; [assumption|]. repeat constructor.
    + simpl. constructor; [reflexivity|]. constructor; [reflexivity|].
      rewrite stdout_app. apply Forall_app. split.
      * eapply Forall_impl; [|exact Ho]. intros l Hl'. now destruct l.
      * repeat constructor.
    + right. exists c'. split; [reflexivity|lia].
  - rewrite app_section_absent by lia.
    eexists _, _. split; [reflexivity|]. split; [|split].
    + repeat constructor.
    + repeat constructor.
    + left. split; [reflexivity|lia].
Qed.

End Safety.

(* ================================================================== *)
(** * The paths through the body *)

Section Body.

Variable utcoffset : Z -> Z.
Variable data : bytes.

Lemma fromtimestamp_displayable (timestamp : Z) :
  displayable utcoffset timestamp ->
  fromtimestamp utcoffset timestamp
  = ([], inr (mk_datetime (timestamp / 1000 + utcoffset (timestamp / 1000))
                          (timestamp mod 1000))).
Proof.
  unfold displayable, fromtimestamp. intros H.
  destruct (Z.ltb_spec (timestamp / 1000 + utcoffset (timestamp / 1000)) END_OF_MAXYEAR);
    [reflexivity|lia].
Qed.

Lemma fromtimestamp_raises (timestamp : Z) :
  ~ displayable utcoffset timestamp ->
  fromtimestamp utcoffset timestamp = ([], inl TimestampError).
Proof.
  unfold displayable, fromtimestamp. intros H.
  destruct (Z.ltb_spec (timestamp / 1000 + utcoffset (timestamp / 1000)) END_OF_MAXYEAR);
    [lia|reflexivity].
Qed.

Lemma displayable_dec (timestamp : Z) :
  displayable utcoffset timestamp \/ ~ displayable utcoffset timestamp.
Proof. unfold displayable. lia. Qed.

(** Under 32 bytes: one line, no read. *)
Lemma parse_body_too_small :
  len data < 32 ->
  parse_body utcoffset data
  = ([Print (Text "File too small to contain valid data")], inr TooSmall).
Proof.
  intros H. unfold parse_body.
  destruct (Z.ltb_spec (len data) 32); [reflexivity|lia].
Qed.

(** The timestamp is past what [datetime] holds: four lines, then the
    exception. *)
Lemma parse_body_undisplayable :
  32 <= len data ->
  ~ displayable utcoffset (timestamp_ms (header_of data)) ->
  parse_body utcoffset data
  = (header_reads ++ map Print (opening_lines (header_of data)), inl TimestampError).
Proof.
  intros H Hd. unfold parse_body.
  destruct (Z.ltb_spec (len data) 32); [lia|].
  unfold getslice. cbn [bind].
  rewrite (unpack_uint_field data 4 0 4) by (cbn; lia). cbn [bind ret].
  rewrite (unpack_uint_field data 8 4 12) by (cbn; lia). cbn [bind ret].
  rewrite (unpack_uint_field data 8 12 20) by (cbn; lia). cbn [bind ret print].
  rewrite fromtimestamp_raises by exact Hd.
  reflexivity.
Qed.

(** No room for the sink count. *)
Lemma parse_body_no_sink :
  32 <= len data < 36 ->
  displayable utcoffset (timestamp_ms (header_of data)) ->
  parse_body utcoffset data
  = (header_reads ++ map Print (header_lines utcoffset (header_of data))
       ++ [Print (Text "No sink data found")],
     inr NoSinkData).
Proof.
  intros H Hd. unfold parse_body.
  destruct (Z.ltb_spec (len data) 32); [lia|].
  unfold getslice. cbn [bind].
  rewrite (unpack_uint_field data 4 0 4) by (cbn; lia). cbn [bind ret].
  rewrite (unpack_uint_field data 8 4 12) by (cbn; lia). cbn [bind ret].
  rewrite (unpack_uint_field data 8 12 20) by (cbn; lia). cbn [bind ret print].
  rewrite fromtimestamp_displayable by exact Hd. cbn [bind].
  rewrite Z.gtb_ltb. destruct (Z.ltb_spec (len data) (32 + 4)); [|lia].
  reflexivity.
Qed.

(** The body, with its end named. *)
Lemma parse_body_unfold :
  parse_body utcoffset data
  = if len data <? 32 then
      print (Text "File too small to contain valid data") ;;
      ret TooSmall
    else
      b <- getslice data 0 4 ;;
      version <- unpack_uint 4 b ;;
      b <- getslice data 4 12 ;;
      generation <- unpack_uint 8 b ;;
      b <- getslice data 12 20 ;;
      timestamp <- unpack_uint 8 b ;;
      print (Text "Shared Memory Cache Debug") ;;
      print (Text "========================") ;;
      print (Version version) ;;
      print (Generation generation) ;;
      t <- fromtimestamp utcoffset timestamp ;;
      print (Timestamp t) ;;
      print (Text "") ;;
      if 32 + 4 >? len data then
        print (Text "No sink data found") ;;
        ret NoSinkData
      else
        b <- getslice data 32 (32 + 4) ;;
        sink_count <- unpack_uint 4 b ;;
        print (SinksHeader sink_count) ;;
        offset <- sink_loop data (Z.to_nat sink_count) (32 + 4) ;;
        app_section data offset.
Proof. reflexivity. Qed.

(** The sink count is there: the sink loop runs, and the body ends as the
    app section does from the cursor the loop leaves. *)
Lemma parse_body_sinks tr c :
  36 <= len data ->
  displayable utcoffset (timestamp_ms (header_of data)) ->
  sink_loop data (Z.to_nat (le_decode (slice data 32 36))) 36 = (tr, inr c) ->
  parse_body utcoffset data
  = (header_reads ++ map Print (header_lines utcoffset (header_of data))
       ++ Slice 32 36 :: Print (SinksHeader (le_decode (slice data 32 36)))
       :: tr ++ events (app_section data c),
     outcome (app_section data c)).
Proof.
  intros H Hd E. rewrite parse_body_unfold.
  destruct (Z.ltb_spec (len data) 32); [lia|].
  unfold getslice. cbn [bind].
  rewrite (unpack_uint_field data 4 0 4) by (cbn; lia). cbn [bind ret].
  rewrite (unpack_uint_field data 8 4 12) by (cbn; lia). cbn [bind ret].
  rewrite (unpack_uint_field data 8 12 20) by (cbn; lia). cbn [bind ret print].
  rewrite fromtimestamp_displayable by exact Hd. cbn [bind].
  rewrite Z.gtb_ltb. destruct (Z.ltb_spec (len data) (32 + 4)); [lia|].
  change (32 + 4) with 36.
  rewrite (unpack_uint_field data 4 32 36) by (cbn; lia). cbn [bind ret].
  rewrite E. cbn [bind].
  destruct (app_section data c) as [tr' r]. reflexivity.
Qed.

End Body.

(* ================================================================== *)
(** * The string helper *)

(** C5.  The contract of [read_string] at a cursor [c]: at or past the end
    of the buffer it fails and leaves the cursor; when fewer than [L] bytes
    follow the length byte [L = data[c]] it fails; a length byte 0 gives the
    empty string and moves the cursor by exactly 1; otherwise the [L] bytes
    after the length byte are decoded and the cursor moves by [1 + L]. *)
Theorem read_string_contract (data : bytes) (c : Z) :
  0 <= c ->
  (len data <= c -> read_string data c = ([], inr (None, c)))
  /\ (c < len data -> len data - (c + 1) < byte_at data c ->
      outcome (read_string data c) = inr (None, c + 1))
  /\ (c < len data -> byte_at data c = 0 ->
      outcome (read_string data c) = inr (Some [], c + 1))
  /\ (c < len data -> byte_at data c <= len data - (c + 1) ->
      let payload := slice data (c + 1) (c + 1 + byte_at data c) in
      len payload = byte_at data c
      /\ exists s, decode Ignore payload = Some s
                   /\ outcome (read_string data c) = inr (Some s, c + 1 + byte_at data c)).
Proof.
  intros Hc. pose proof (byte_at_range data c) as Hb.
  split; [|split; [|split]].
  - intros H. now apply read_string_past.
  - intros H1 H2. rewrite read_string_short by lia. reflexivity.
  - intros H1 H2. rewrite read_string_whole by lia.
    rewrite H2. cbn [outcome snd].
    replace (c + 1 + 0) with (c + 1) by lia.
    unfold slice. rewrite Z.sub_diag. reflexivity.
  - intros H1 H2. cbv zeta. split.
    + rewrite len_slice by lia. lia.
    + eexists. split; [reflexivity|].
      rewrite read_string_whole by lia. reflexivity.
Qed.

Lemma read_string_contract_witness :
  outcome (read_string [x02; x41; x42; x00] 0) = inr (Some [65; 66], 3)
  /\ outcome (read_string [x02; x41; x42; x00] 3) = inr (Some [], 4)
  /\ outcome (read_string [x02; x41] 0) = inr (None, 1).
Proof.
  split; [|split].
  - destruct (read_string_contract [x02; x41; x42; x00] 0) as (_ & _ & _ & H);
      [lia|].
    destruct H as (_ & s & Hs & Hr); [vm_compute; reflexivity|vm_compute; discriminate|].
    vm_compute in Hs. injection Hs as <-. exact Hr.
  - destruct (read_string_contract [x02; x41; x42; x00] 3) as (_ & _ & H & _);
      [lia|].
    apply H; vm_compute; reflexivity.
  - destruct (read_string_contract [x02; x41] 0) as (_ & H & _); [lia|].
    apply H; vm_compute; reflexivity.
Defined.

(** C6, against the code: the one-byte name [ff] is not valid UTF-8; the
    helper returns the empty string, where replacing the invalid byte would
    give U+FFFD. *)
Lemma invalid_bytes_not_replaced :
  outcome (read_string invalid_name 0) = inr (Some [], 2)
  /\ decode Replace (slice invalid_name 1 2) = Some [REPLACEMENT_CHARACTER]
  /\ outcome (read_string invalid_name 0)
     <> inr (decode Replace (slice invalid_name 1 2), 2).
Proof.
  split; [|split]; vm_compute; try reflexivity. discriminate.
Qed.

Lemma length_resolve (subst : str) (cs : list chunk) :
  length (resolve subst cs)
  = (length (resolve [] cs)
     + length subst
       * length (filter (fun c => match c with Char _ => false | Undecodable _ => true end)
                        cs))%nat.
Proof.
  induction cs as [|[cp|k] cs IH]; simpl.
  - lia.
  - rewrite IH. lia.
  - rewrite length_app, IH. simpl. lia.
Qed.

(** C6, as the code has it: whatever the [L] payload bytes are, the helper
    does not raise; it returns the string decoded under the [ignore] handler
    with the cursor past all [L] bytes.  Every run of bytes that is not UTF-8
    is dropped, where the [replace] handler would put one U+FFFD: the string
    returned, encoded again, is the payload with bytes deleted. *)
Theorem read_string_drops_invalid (data : bytes) (c : Z) :
  0 <= c < len data ->
  byte_at data c <= len data - (c + 1) ->
  let L := byte_at data c in
  let payload := slice data (c + 1) (c + 1 + L) in
  exists s s',
    read_string data c = ([Index c; Slice (c + 1) (c + 1 + L)], inr (Some s, c + 1 + L))
    /\ decode Ignore payload = Some s
    /\ subseq (encode s) payload
    /\ decode Replace payload = Some s'
    /\ length s' = (length s + undecodable_runs payload)%nat.
Proof.
  intros Hc Hl. cbv zeta. eexists _, _.
  split; [apply read_string_whole; lia|].
  split; [reflexivity|]. split; [apply ignore_deletes|]. split; [reflexivity|].
  rewrite length_resolve. unfold undecodable_runs. simpl. lia.
Qed.

Lemma read_string_drops_invalid_witness :
  exists s s',
    read_string invalid_name 0 = ([Index 0; Slice 1 2], inr (Some s, 2))
    /\ decode Ignore [xff] = Some s
    /\ subseq (encode s) [xff]
    /\ decode Replace [xff] = Some s'
    /\ length s' = (length s + 1)%nat.
Proof.
  apply (read_string_drops_invalid invalid_name 0); vm_compute; intuition discriminate.
Defined.

(* ================================================================== *)
(** * The scan as a whole *)

(** C4.  A buffer of fewer than 32 bytes: the run prints the one line "File
    too small to contain valid data" and nothing else, and reads nothing,
    no header field included; the body is left at its first [return]. *)
Theorem too_small_report (utcoffset : Z -> Z) (data : bytes) :
  len data < 32 ->
  parse_shared_memory utcoffset (Some data)
  = [Print (Text "File too small to contain valid data")]
  /\ outcome (parse_body utcoffset data) = inr TooSmall
  /\ filter is_read (parse_shared_memory utcoffset (Some data)) = [].
Proof.
  intros H. unfold parse_shared_memory.
  rewrite parse_body_too_small by assumption. repeat split.
Qed.

Lemma too_small_report_witness :
  parse_shared_memory utc (Some (firstn 31 sample_snapshot))
  = [Print (Text "File too small to contain valid data")].
Proof.
  apply (too_small_report utc (firstn 31 sample_snapshot)). vm_compute. reflexivity.
Defined.

Lemma header_reads_in_bounds (data : bytes) :
  32 <= len data -> Forall (in_bounds (len data)) header_reads.
Proof. intros H. repeat constructor; simpl; lia. Qed.

(** Every path through the body: the accesses are inside the buffer, the
    only exception is the one of the timestamp, and a cursor the body ends
    with is inside the buffer. *)
Lemma parse_body_safe (utcoffset : Z -> Z) (data : bytes) :
  exists tr r,
    parse_body utcoffset data = (tr, r)
    /\ Forall (in_bounds (len data)) tr
    /\ (r = inl TimestampError \/ r = inr TooSmall \/ r = inr NoSinkData
        \/ exists c, (r = inr (NoAppData c) \/ r = inr (Finished c))
                     /\ 36 <= c <= len data).
Proof.
  destruct (Z.lt_ge_cases (len data) 32) as [Hs|Hs].
  { rewrite parse_body_too_small by assumption.
    eexists _, _. split; [reflexivity|]. split; [repeat constructor|]. auto. }
  destruct (displayable_dec utcoffset (timestamp_ms (header_of data))) as [Hd|Hd].
  2:{ rewrite parse_body_undisplayable by assumption.
      eexists _, _. split; [reflexivity|]. split; [|auto].
      apply Forall_app. split; [now apply header_reads_in_bounds|].
      apply prints_in_bounds. }
  destruct (Z.lt_ge_cases (len data) 36) as [Hc|Hc].
  { rewrite parse_body_no_sink by (assumption || lia).
    eexists _, _. split; [reflexivity|]. split; [|auto].
    apply Forall_app. split; [now apply header_reads_in_bounds|].
    apply Forall_app. split; [apply prints_in_bounds|repeat constructor]. }
  destruct (sink_loop_safe data (Z.to_nat (le_decode (slice data 32 36))) 36)
    as (tr & c & E & Hb & _ & Hcc); [lia|].
  rewrite (parse_body_sinks utcoffset data tr c) by assumption.
  destruct (app_section_safe data c) as (tr2 & e & E2 & Hb2 & _ & He); [lia|].
  rewrite E2. cbn [events outcome fst snd].
  eexists _, _. split; [reflexivity|]. split.
  - apply Forall_app. split; [now apply header_reads_in_bounds|].
    apply Forall_app. split; [apply prints_in_bounds|].
    constructor; [simpl; lia|]. constructor; [exact I|].
    apply Forall_app. split; assumption.
  - right. right. right.
    destruct He as [[-> Hl]|(c' & -> & Hl)].
    + exists c. split; [auto|lia].
    + exists c'. split; [auto|lia].
Qed.

(** C3.  Whatever the buffer holds and however large the counts it
    announces: every single-byte access and every slice of the run lies
    inside the buffer, no access raises (neither IndexError nor the error of
    [struct.unpack] on a short slice), both loops, for any count, stop with
    the cursor inside the buffer, and so does the body. *)
Theorem no_read_outside_buffer (utcoffset : Z -> Z) (data : bytes) :
  Forall (in_bounds (len data)) (parse_shared_memory utcoffset (Some data))
  /\ outcome (parse_body utcoffset data) <> inl IndexError
  /\ outcome (parse_body utcoffset data) <> inl StructError
  /\ (forall c, outcome (parse_body utcoffset data) = inr (NoAppData c)
                \/ outcome (parse_body utcoffset data) = inr (Finished c) ->
                0 <= c <= len data)
  /\ (forall (n : nat) (c : Z), 0 <= c <= len data ->
        exists tr c', sink_loop data n c = (tr, inr c')
                      /\ Forall (in_bounds (len data)) tr /\ c <= c' <= len data)
  /\ (forall (n : nat) (c : Z), 0 <= c <= len data ->
        exists tr c', app_loop data n c = (tr, inr c')
                      /\ Forall (in_bounds (len data)) tr /\ c <= c' <= len data).
Proof.
  destruct (parse_body_safe utcoffset data) as (tr & r & E & Hb & Hr).
  unfold parse_shared_memory. rewrite E. cbn [outcome snd].
  split; [|split; [|split; [|split; [|split]]]].
  - destruct r as [e|e]; [|assumption].
    apply Forall_app. split; [assumption|repeat constructor].
  - destruct Hr as [->|[->|[->|(c & [->| ->] & _)]]]; discriminate.
  - destruct Hr as [->|[->|[->|(c & [->| ->] & _)]]]; discriminate.
  - intros c Hc.
    destruct Hr as [->|[->|[->|(c' & [->| ->] & Hl)]]];
      destruct Hc as [Hc|Hc]; try discriminate; injection Hc as <-; lia.
  - intros n c Hc.
    destruct (sink_loop_safe data n c Hc) as (tr' & c' & E' & Hb' & _ & Hc').
    now exists tr', c'.
  - intros n c Hc.
    destruct (app_loop_safe data n c Hc) as (tr' & c' & E' & Hb' & _ & Hc').
    now exists tr', c'.
Qed.

Lemma no_read_outside_buffer_witness :
  Forall (in_bounds 39) (parse_shared_memory utc (Some (firstn 39 sample_snapshot))).
Proof.
  exact (proj1 (no_read_outside_buffer utc (firstn 39 sample_snapshot))).
Defined.

(** C7, against the code: a buffer of 32 bytes, so with no room for the sink
    count, whose timestamp field is past what [datetime] holds: the run ends
    in the handler of the [try] statement, and "No sink data found" is not
    printed. *)
Lemma late_header_not_no_sink_data :
  32 <= len late_header_only
  /\ len late_header_only - 32 < 4
  /\ stdout (parse_shared_memory utc (Some late_header_only))
     = opening_lines late_header ++ [ErrorParsing TimestampError]
  /\ ~ In (Text "No sink data found")
          (stdout (parse_shared_memory utc (Some late_header_only))).
Proof.
  split; [vm_compute; discriminate|].
  split; [vm_compute; reflexivity|].
  split; [vm_compute; reflexivity|].
  vm_compute. intros H. repeat (destruct H as [H|H]; [discriminate H|]). exact H.
Qed.

(** C7, as the code has it.  For a buffer of at least 32 bytes whose
    timestamp [datetime] can hold: with fewer than 4 bytes at offset 32 the
    run prints the header and "No sink data found" and ends there, reading
    nothing past the header fields; with fewer than 4 bytes at the cursor
    the sink loop leaves, the run prints the sinks parsed, a blank line and
    "No app data found" and ends there, with no app line and no total.
    Each is a [return] of the whole body. *)
Theorem missing_count_returns (utcoffset : Z -> Z) (data : bytes) :
  32 <= len data ->
  displayable utcoffset (timestamp_ms (header_of data)) ->
  (len data - 32 < 4 ->
     parse_shared_memory utcoffset (Some data)
     = header_reads ++ map Print (header_lines utcoffset (header_of data))
       ++ [Print (Text "No sink data found")]
     /\ outcome (parse_body utcoffset data) = inr NoSinkData)
  /\ (4 <= len data - 32 ->
      exists tr c,
        sink_loop data (Z.to_nat (le_decode (slice data 32 36))) 36 = (tr, inr c)
        /\ Forall (fun l => is_sink_line l = true) (stdout tr)
        /\ (len data - c < 4 ->
            parse_shared_memory utcoffset (Some data)
            = header_reads ++ map Print (header_lines utcoffset (header_of data))
              ++ Slice 32 36 :: Print (SinksHeader (le_decode (slice data 32 36)))
              :: tr ++ [Print (Text ""); Print (Text "No app data found")]
            /\ outcome (parse_body utcoffset data) = inr (NoAppData c))).
Proof.
  intros Hl Hd. split.
  - intros H. unfold parse_shared_memory.
    rewrite parse_body_no_sink by (assumption || lia). split; reflexivity.
  - intros H.
    destruct (sink_loop_safe data (Z.to_nat (le_decode (slice data 32 36))) 36)
      as (tr & c & E & _ & Ho & Hc); [lia|].
    exists tr, c. split; [assumption|]. split; [assumption|].
    intros Hr. unfold parse_shared_memory.
    rewrite (parse_body_sinks utcoffset data tr c) by (assumption || lia).
    rewrite app_section_absent by lia. split; reflexivity.
Qed.

Lemma missing_count_returns_witness :
  parse_shared_memory utc (Some (firstn 33 sample_snapshot))
  = header_reads ++ map Print (header_lines utc sample_header)
    ++ [Print (Text "No sink data found")].
Proof.
  destruct (missing_count_returns utc (firstn 33 sample_snapshot)) as [H _].
  - vm_compute. discriminate.
  - vm_compute. reflexivity.
  - destruct H as [H _]; [vm_compute; reflexivity|]. exact H.
Defined.

(** C8, against the code: the sample header and a sink count of 3, 36 bytes.
    The run prints "Sinks (3):", a blank line and "No app data found", and
    the body is left by the return of the app-count check: "No sink data
    found" is not printed and nothing reported says that sink data is
    absent.  Under the late header the same 36 bytes give the error line
    only. *)
Lemma count_announced_reports_no_app_data :
  (len three_announced = 36 /\ le_decode (slice three_announced 32 36) = 3
   /\ stdout (parse_shared_memory utc (Some three_announced))
      = header_lines utc sample_header
        ++ [SinksHeader 3; Text ""; Text "No app data found"]
   /\ outcome (parse_body utc three_announced) = inr (NoAppData 36)
   /\ outcome (parse_body utc three_announced) <> inr NoSinkData
   /\ ~ In (Text "No sink data found")
           (stdout (parse_shared_memory utc (Some three_announced))))
  /\ (len late_three_announced = 36
      /\ le_decode (slice late_three_announced 32 36) = 3
      /\ stdout (parse_shared_memory utc (Some late_three_announced))
         = opening_lines late_header ++ [ErrorParsing TimestampError]).
Proof.
  split.
  - split; [vm_compute; reflexivity|]. split; [vm_compute; reflexivity|].
    split; [vm_compute; reflexivity|]. split; [vm_compute; reflexivity|].
    split; [vm_compute; discriminate|].
    vm_compute. intros H. repeat (destruct H as [H|H]; [discriminate H|]). exact H.
  - repeat split; vm_compute; reflexivity.
Qed.

(** C8, as the code has it.  A buffer that ends right after the sink-count
    field, at offset 36, and announces 3 sinks.  The first turn of the sink
    loop finds no byte and leaves the loop with the cursor still at 36; no
    sink line is printed; no line of the app section (header, app, total) is
    printed and the body does not run to its end; "No sink data found" is
    not printed and the body is not left by the return of the sink-count
    check.  When the timestamp converts, the run is: the header, "Sinks
    (3):" with nothing under it, a blank line, "No app data found", the body
    left by the return of the app-count check. *)
Theorem count_without_sinks (utcoffset : Z -> Z) (data : bytes) :
  len data = 36 ->
  le_decode (slice data 32 36) = 3 ->
  sink_loop data 3 36 = ([], inr 36)
  /\ Forall (fun l => is_sink_line l = false /\ is_app_line l = false
                      /\ (forall n, l <> AppsHeader n) /\ (forall n, l <> TotalSize n)
                      /\ l <> Text "No sink data found")
            (stdout (parse_shared_memory utcoffset (Some data)))
  /\ (forall c, outcome (parse_body utcoffset data) <> inr (Finished c))
  /\ outcome (parse_body utcoffset data) <> inr NoSinkData
  /\ (displayable utcoffset (timestamp_ms (header_of data)) ->
      parse_shared_memory utcoffset (Some data)
      = header_reads ++ map Print (header_lines utcoffset (header_of data))
        ++ [Slice 32 36; Print (SinksHeader 3); Print (Text "");
            Print (Text "No app data found")]
      /\ outcome (parse_body utcoffset data) = inr (NoAppData 36)).
Proof.
  intros Hl H3.
  assert (Hloop : sink_loop data 3 36 = ([], inr 36)).
  { apply sink_loop_break_name. apply read_string_past. lia. }
  assert (Hshown : displayable utcoffset (timestamp_ms (header_of data)) ->
      parse_shared_memory utcoffset (Some data)
      = header_reads ++ map Print (header_lines utcoffset (header_of data))
        ++ [Slice 32 36; Print (SinksHeader 3); Print (Text "");
            Print (Text "No app data found")]
      /\ outcome (parse_body utcoffset data) = inr (NoAppData 36)).
  { intros Hd. unfold parse_shared_memory.
    rewrite (parse_body_sinks utcoffset data [] 36);
      [|lia|assumption|rewrite H3; exact Hloop].
    rewrite app_section_absent by lia. rewrite H3. split; reflexivity. }
  split; [exact Hloop|]. split; [|split; [|split; [|exact Hshown]]].
  - destruct (displayable_dec utcoffset (timestamp_ms (header_of data))) as [Hd|Hd].
    + destruct (Hshown Hd) as [-> _].
      rewrite !stdout_app, stdout_prints. simpl.
      repeat constructor; discriminate.
    + unfold parse_shared_memory. rewrite parse_body_undisplayable by (assumption || lia).
      rewrite !stdout_app, stdout_prints. simpl.
      repeat constructor; discriminate.
  - intros c.
    destruct (displayable_dec utcoffset (timestamp_ms (header_of data))) as [Hd|Hd].
    + destruct (Hshown Hd) as [_ ->]. discriminate.
    + rewrite parse_body_undisplayable by (assumption || lia). discriminate.
  - destruct (displayable_dec utcoffset (timestamp_ms (header_of data))) as [Hd|Hd].
    + destruct (Hshown Hd) as [_ ->]. discriminate.
    + rewrite parse_body_undisplayable by (assumption || lia). discriminate.
Qed.

Lemma count_without_sinks_witness :
  parse_shared_memory utc (Some (put_header sample_header ++ le_encode 4 3))
  = header_reads ++ map Print (header_lines utc sample_header)
    ++ [Slice 32 36; Print (SinksHeader 3); Print (Text "");
        Print (Text "No app data found")].
Proof.
  destruct (count_without_sinks utc (put_header sample_header ++ le_encode 4 3))
    as (_ & _ & _ & _ & H); [vm_compute; reflexivity|vm_compute; reflexivity|].
  destruct H as [H _]; [vm_compute; reflexivity|].
  exact H.
Defined.

Lemma wf_speakers : wf_string speakers.
Proof.
  split; [|vm_compute; discriminate].
  unfold speakers, scalar. repeat constructor; lia.
Qed.

Lemma wf_firefox : wf_string firefox.
Proof.
  split; [|vm_compute; discriminate].
  unfold firefox, scalar. repeat constructor; lia.
Qed.

Lemma wf_sample_sink : wf_sink sample_sink.
Proof.
  split; [exact wf_speakers|]. simpl. lia.
Qed.

Lemma wf_sample_app : wf_app sample_app.
Proof. split; [exact wf_firefox|exact wf_speakers]. Qed.

(** The run on a buffer whose timestamp [datetime] cannot hold: the three
    header reads, four lines, and the line of the handler. *)
Lemma undisplayable_report (utcoffset : Z -> Z) (data : bytes) :
  32 <= len data ->
  ~ displayable utcoffset (timestamp_ms (header_of data)) ->
  parse_shared_memory utcoffset (Some data)
  = header_reads
    ++ map Print (opening_lines (header_of data) ++ [ErrorParsing TimestampError]).
Proof.
  intros Hl Hd. unfold parse_shared_memory.
  rewrite parse_body_undisplayable by assumption.
  rewrite map_app, app_assoc. reflexivity.
Qed.

(** C10.  On any host whose local time is within a day of UTC there is a
    snapshot of more than 32 bytes, with a well-formed header and one
    complete, well-formed sink and app record, for which the run shows no
    sink and no app: its timestamp field holds 2^64 - 1, the conversion to a
    local date raises, and the run is the three header reads, the banner,
    the rule, the version and generation lines, and then only the line
    "Error parsing shared memory: ..." of the handler, which ends it
    normally.  The same holds for every buffer of at least 32 bytes whose
    timestamp [datetime] cannot hold. *)
Theorem late_timestamp_hides_records (utcoffset : Z -> Z) :
  (forall second, Z.abs (utcoffset second) < 86400) ->
  (exists (h : header) (sinks : list sink) (apps : list app),
      wf_header h /\ Forall wf_sink sinks /\ Forall wf_app apps
      /\ sinks <> [] /\ apps <> []
      /\ 32 <= len (put_snapshot h sinks apps)
      /\ parse_shared_memory utcoffset (Some (put_snapshot h sinks apps))
         = header_reads
           ++ map Print [ Text "Shared Memory Cache Debug";
                          Text "========================";
                          Version (version h); Generation (generation h);
                          ErrorParsing TimestampError ])
  /\ (forall data : bytes,
        32 <= len data ->
        END_OF_MAXYEAR + 86400 <= timestamp_ms (header_of data) / 1000 ->
        parse_shared_memory utcoffset (Some data)
        = header_reads
          ++ map Print (opening_lines (header_of data) ++ [ErrorParsing TimestampError])).
Proof.
  intros Hhost.
  assert (Hgen : forall data : bytes,
        32 <= len data ->
        END_OF_MAXYEAR + 86400 <= timestamp_ms (header_of data) / 1000 ->
        parse_shared_memory utcoffset (Some data)
        = header_reads
          ++ map Print (opening_lines (header_of data) ++ [ErrorParsing TimestampError])).
  { intros data Hl Ht. apply undisplayable_report; [assumption|].
    unfold displayable.
    pose proof (Hhost (timestamp_ms (header_of data) / 1000)). lia. }
  split; [|exact Hgen].
  exists late_header, [sample_sink], [sample_app].
  split; [|split; [|split; [|split; [|split; [|split]]]]].
  - unfold wf_header. simpl. lia.
  - constructor; [exact wf_sample_sink|constructor].
  - constructor; [exact wf_sample_app|constructor].
  - discriminate.
  - discriminate.
  - vm_compute. discriminate.
  - change (put_snapshot late_header [sample_sink] [sample_app]) with late_snapshot.
    rewrite Hgen.
    + replace (header_of late_snapshot) with late_header by (vm_compute; reflexivity).
      reflexivity.
    + vm_compute. discriminate.
    + vm_compute. discriminate.
Qed.

Lemma late_timestamp_hides_records_witness :
  stdout (parse_shared_memory utc (Some late_snapshot))
  = [ Text "Shared Memory Cache Debug"; Text "========================";
      Version 1; Generation 42; ErrorParsing TimestampError ].
Proof.
  destruct (late_timestamp_hides_records utc) as [_ H].
  - intros second. vm_compute. reflexivity.
  - rewrite (H late_snapshot); vm_compute; [reflexivity|discriminate|discriminate].
Defined.

(* ================================================================== *)
(** * Reading what the layout writes *)

Section LayoutFacts.

Lemma slice_eq (data pre mid post : bytes) (lo hi : Z) :
  data = pre ++ mid ++ post -> lo = len pre -> hi = lo + len mid ->
  slice data lo hi = mid.
Proof. intros -> -> ->. apply slice_app. Qed.

Lemma byte_at_eq (data pre post : bytes) (b : byte) (i : Z) :
  data = pre ++ b :: post -> i = len pre -> byte_at data i = to_Z b.
Proof. intros -> ->. apply byte_at_app. Qed.

Lemma len_put_string (s : str) : len (put_string s) = 1 + len (encode s).
Proof. unfold put_string. now rewrite len_cons. Qed.

Lemma len_put_sink (s : sink) :
  len (put_sink s) = 1 + len (encode (sink_name s)) + 9.
Proof.
  unfold put_sink. rewrite !len_app, len_put_string, !len_le_encode, len_cons, len_nil.
  lia.
Qed.

Lemma len_put_app (a : app) :
  len (put_app a)
  = 1 + len (encode (app_name a)) + (1 + len (encode (app_current_sink a))) + 1.
Proof.
  unfold put_app. rewrite !len_app, !len_put_string, len_cons, len_nil. lia.
Qed.

Lemma len_put_header (h : header) : wf_header h -> len (put_header h) = 32.
Proof.
  intros (_ & _ & _ & Hr). unfold put_header.
  rewrite !len_app, !len_le_encode. unfold len. rewrite Hr. reflexivity.
Qed.

Lemma to_Z_put_bool (b : bool) : (to_Z (put_bool b) =? 1) = b.
Proof. now destruct b. Qed.

(** A string field written by the layout is read back whole. *)
Lemma read_string_put (data pre post : bytes) (s : str) :
  wf_string s ->
  data = pre ++ put_string s ++ post ->
  read_string data (len pre)
  = ([Index (len pre); Slice (len pre + 1) (len pre + 1 + len (encode s))],
     inr (Some s, len pre + 1 + len (encode s))).
Proof.
  intros [Hs Hl] E.
  pose proof (len_nonneg pre) as Hp. pose proof (len_nonneg (encode s)) as He.
  pose proof (len_nonneg post) as Hq.
  assert (Hlen : len data = len pre + (1 + len (encode s)) + len post).
  { rewrite E, !len_app, len_put_string. lia. }
  assert (Hb : byte_at data (len pre) = len (encode s)).
  { rewrite (byte_at_eq data pre (encode s ++ post) (of_Z (len (encode s))));
      [apply to_Z_of_Z; lia|assumption|reflexivity]. }
  rewrite read_string_whole by lia. rewrite Hb.
  rewrite (slice_eq data (pre ++ [of_Z (len (encode s))]) (encode s) post).
  - pose proof (decode_encode Ignore s Hs) as D. unfold decode in D.
    injection D as ->. reflexivity.
  - rewrite E. unfold put_string. rewrite <- app_assoc. reflexivity.
  - rewrite len_app, len_cons, len_nil. lia.
  - reflexivity.
Qed.

(** The header fields written are the header fields read. *)
Lemma header_of_put (h : header) (rest : bytes) :
  wf_header h -> header_of (put_header h ++ rest) = h.
Proof.
  intros (Hv & Hg & Ht & Hr). destruct h as [v g t r]. cbn in Hv, Hg, Ht, Hr.
  unfold header_of, put_header. cbn [version generation timestamp_ms reserved].
  assert (Lr : len r = 12) by (unfold len; rewrite Hr; reflexivity).
  rewrite (slice_eq _ [] (le_encode 4 v) (le_encode 8 g ++ le_encode 8 t ++ r ++ rest));
    [|now rewrite <- !app_assoc|reflexivity|now rewrite len_le_encode].
  rewrite (slice_eq _ (le_encode 4 v) (le_encode 8 g) (le_encode 8 t ++ r ++ rest));
    [|now rewrite <- !app_assoc|now rewrite len_le_encode|now rewrite len_le_encode].
  rewrite (slice_eq _ (le_encode 4 v ++ le_encode 8 g) (le_encode 8 t) (r ++ rest));
    [|now rewrite <- !app_assoc
     |now rewrite len_app, !len_le_encode|now rewrite len_le_encode].
  rewrite (slice_eq _ (le_encode 4 v ++ le_encode 8 g ++ le_encode 8 t) r rest);
    [|now rewrite <- !app_assoc
     |now rewrite !len_app, !len_le_encode|now rewrite Lr].
  rewrite !le_decode_encode by assumption. reflexivity.
Qed.

(** The count written after the header is the count read. *)
Lemma count_of_put (h : header) (n : Z) (rest : bytes) :
  wf_header h -> 0 <= n < 2 ^ 32 ->
  le_decode (slice (put_header h ++ le_encode 4 n ++ rest) 32 36) = n.
Proof.
  intros Hh Hn.
  rewrite (slice_eq _ (put_header h) (le_encode 4 n) rest);
    [|reflexivity|now rewrite len_put_header|now rewrite len_le_encode].
  now apply le_decode_encode.
Qed.

End LayoutFacts.

Section RecordFacts.

Lemma F32_bits (v : float32) : F32 (float32_bits v) = v.
Proof. now destruct v. Qed.

(** One turn of the sink loop over a record the layout wrote. *)
Lemma sink_loop_record (data pre post : bytes) (s : sink) (n : nat) :
  wf_sink s ->
  data = pre ++ put_sink s ++ post ->
  exists tr,
    stdout tr = [sink_line s]
    /\ sink_loop data (S n) (len pre)
       = (tr ++ events (sink_loop data n (len pre + len (put_sink s))),
          outcome (sink_loop data n (len pre + len (put_sink s)))).
Proof.
  intros (Hname & Hid & Hvol) E.
  destruct s as [name id vol muted].
  cbn [sink_name sink_id sink_volume sink_muted] in *.
  pose proof (len_nonneg pre) as Hp. pose proof (len_nonneg (encode name)) as He.
  pose proof (len_nonneg post) as Hq.
  assert (Hlen : len data = len pre + (1 + len (encode name) + 9) + len post).
  { rewrite E, !len_app, len_put_sink. cbn [sink_name]. lia. }
  unfold put_sink in E. cbn [sink_name sink_id sink_volume sink_muted] in E.
  set (c1 := len pre + 1 + len (encode name)).
  assert (Hr : read_string data (len pre)
               = ([Index (len pre); Slice (len pre + 1) c1], inr (Some name, c1))).
  { apply read_string_put with
      (post := le_encode 4 id ++ le_encode 4 (float32_bits vol)
               ++ [put_bool muted] ++ post); [assumption|].
    rewrite E, <- !app_assoc. reflexivity. }
  eexists. split.
  2:{ rewrite (sink_loop_step data n (len pre) _ name c1 Hr) by (subst c1; lia).
      rewrite len_put_sink. cbn [sink_name].
      replace (c1 + 4 + 4 + 1) with (len pre + (1 + len (encode name) + 9))
        by (subst c1; lia).
      rewrite app_assoc. reflexivity. }
  rewrite stdout_app. cbn [stdout List.app]. unfold sink_line.
  cbn [sink_name sink_id sink_volume sink_muted].
  rewrite (slice_eq data (pre ++ put_string name) (le_encode 4 id)
             (le_encode 4 (float32_bits vol) ++ [put_bool muted] ++ post));
    [|rewrite E, <- !app_assoc; reflexivity
     |rewrite len_app, len_put_string; subst c1; lia
     |now rewrite len_le_encode].
  rewrite (slice_eq data (pre ++ put_string name ++ le_encode 4 id)
             (le_encode 4 (float32_bits vol)) ([put_bool muted] ++ post));
    [|rewrite E, <- !app_assoc; reflexivity
     |rewrite !len_app, len_put_string, len_le_encode; subst c1; lia
     |now rewrite len_le_encode].
  rewrite (byte_at_eq data
             (pre ++ put_string name ++ le_encode 4 id ++ le_encode 4 (float32_bits vol))
             post (put_bool muted));
    [|rewrite E, <- !app_assoc; reflexivity
     |rewrite !len_app, len_put_string, !len_le_encode; subst c1; lia].
  rewrite !le_decode_encode by assumption.
  now rewrite to_Z_put_bool.
Qed.

(** The sink loop over the records the layout wrote, with [n] turns to
    spare: it prints the records in order and goes on after them. *)
Lemma sink_loop_records (sinks : list sink) : forall (data pre post : bytes) (n : nat),
  Forall wf_sink sinks ->
  data = pre ++ flat_map put_sink sinks ++ post ->
  exists tr,
    stdout tr = map sink_line sinks
    /\ sink_loop data (length sinks + n) (len pre)
       = (tr ++ events (sink_loop data n (len pre + len (flat_map put_sink sinks))),
          outcome (sink_loop data n (len pre + len (flat_map put_sink sinks)))).
Proof.
  induction sinks as [|s sinks IH]; intros data pre post n Hwf E.
  - exists []. split; [reflexivity|].
    cbn [flat_map length Nat.add List.app]. rewrite len_nil, Z.add_0_r.
    now destruct (sink_loop data n (len pre)).
  - inversion Hwf as [|? ? Hs Hrest]; subst.
    cbn [flat_map length Nat.add].
    destruct (sink_loop_record (pre ++ (put_sink s ++ flat_map put_sink sinks) ++ post)
                pre (flat_map put_sink sinks ++ post) s (length sinks + n) Hs)
      as (tr1 & Ho1 & E1); [now rewrite <- app_assoc|].
    destruct (IH (pre ++ (put_sink s ++ flat_map put_sink sinks) ++ post)
                (pre ++ put_sink s) post n Hrest)
      as (tr2 & Ho2 & E2); [now rewrite <- !app_assoc|].
    rewrite len_app in E2. rewrite E1, E2. cbn [events outcome fst snd].
    exists (tr1 ++ tr2). split.
    + rewrite stdout_app, Ho1, Ho2. reflexivity.
    + rewrite len_app, <- !app_assoc, !Z.add_assoc. reflexivity.
Qed.

(** One turn of the app loop over a record the layout wrote. *)
Lemma app_loop_record (data pre post : bytes) (a : app) (n : nat) :
  wf_app a ->
  data = pre ++ put_app a ++ post ->
  exists tr,
    stdout tr = [app_line a]
    /\ app_loop data (S n) (len pre)
       = (tr ++ events (app_loop data n (len pre + len (put_app a))),
          outcome (app_loop data n (len pre + len (put_app a)))).
Proof.
  intros (Hname & Hcur) E.
  destruct a as [name cur active].
  cbn [app_name app_current_sink app_active] in *.
  pose proof (len_nonneg pre) as Hp. pose proof (len_nonneg (encode name)) as He.
  pose proof (len_nonneg (encode cur)) as He2. pose proof (len_nonneg post) as Hq.
  assert (Hlen : len data
                 = len pre + (1 + len (encode name) + (1 + len (encode cur)) + 1)
                   + len post).
  { rewrite E, !len_app, len_put_app. cbn [app_name app_current_sink]. lia. }
  unfold put_app in E. cbn [app_name app_current_sink app_active] in E.
  set (c1 := len pre + 1 + len (encode name)).
  set (c2 := c1 + 1 + len (encode cur)).
  assert (Hr : read_string data (len pre)
               = ([Index (len pre); Slice (len pre + 1) c1], inr (Some name, c1))).
  { apply read_string_put with (post := put_string cur ++ [put_bool active] ++ post);
      [assumption|].
    rewrite E, <- !app_assoc. reflexivity. }
  assert (Hr2 : read_string data c1
                = ([Index c1; Slice (c1 + 1) c2], inr (Some cur, c2))).
  { subst c2.
    assert (Hc1 : c1 = len (pre ++ put_string name))
      by (rewrite len_app, len_put_string; subst c1; lia).
    rewrite !Hc1.
    apply read_string_put with (post := [put_bool active] ++ post); [assumption|].
    rewrite E, <- !app_assoc. reflexivity. }
  eexists. split.
  2:{ rewrite (app_loop_step data n (len pre) _ name c1 _ cur c2 Hr Hr2)
        by (subst c2 c1; lia).
      rewrite len_put_app. cbn [app_name app_current_sink].
      replace (c2 + 1)
        with (len pre + (1 + len (encode name) + (1 + len (encode cur)) + 1))
        by (subst c2 c1; lia).
      rewrite !app_assoc. reflexivity. }
  rewrite !stdout_app. cbn [stdout List.app]. unfold app_line.
  cbn [app_name app_current_sink app_active].
  rewrite (byte_at_eq data (pre ++ put_string name ++ put_string cur)
             post (put_bool active));
    [|rewrite E, <- !app_assoc; reflexivity
     |rewrite !len_app, !len_put_string; subst c2 c1; lia].
  now rewrite to_Z_put_bool.
Qed.

Lemma app_loop_records (apps : list app) : forall (data pre post : bytes) (n : nat),
  Forall wf_app apps ->
  data = pre ++ flat_map put_app apps ++ post ->
  exists tr,
    stdout tr = map app_line apps
    /\ app_loop data (length apps + n) (len pre)
       = (tr ++ events (app_loop data n (len pre + len (flat_map put_app apps))),
          outcome (app_loop data n (len pre + len (flat_map put_app apps)))).
Proof.
  induction apps as [|a apps IH]; intros data pre post n Hwf E.
  - exists []. split; [reflexivity|].
    cbn [flat_map length Nat.add List.app]. rewrite len_nil, Z.add_0_r.
    now destruct (app_loop data n (len pre)).
  - inversion Hwf as [|? ? Ha Hrest]; subst.
    cbn [flat_map length Nat.add].
    destruct (app_loop_record (pre ++ (put_app a ++ flat_map put_app apps) ++ post)
                pre (flat_map put_app apps ++ post) a (length apps + n) Ha)
      as (tr1 & Ho1 & E1); [now rewrite <- app_assoc|].
    destruct (IH (pre ++ (put_app a ++ flat_map put_app apps) ++ post)
                (pre ++ put_app a) post n Hrest)
      as (tr2 & Ho2 & E2); [now rewrite <- !app_assoc|].
    rewrite len_app in E2. rewrite E1, E2. cbn [events outcome fst snd].
    exists (tr1 ++ tr2). split.
    + rewrite stdout_app, Ho1, Ho2. reflexivity.
    + rewrite len_app, <- !app_assoc, !Z.add_assoc. reflexivity.
Qed.

End RecordFacts.

(* ================================================================== *)
(** * The round trip *)

Section RoundTrip.

Variable utcoffset : Z -> Z.

(** The body on a snapshot the layout wrote: it runs to its end, the cursor
    at the end of the buffer, and prints what was written. *)
Lemma parse_body_put (h : header) (sinks : list sink) (apps : list app) :
  wf_header h -> Forall wf_sink sinks -> Forall wf_app apps ->
  Z.of_nat (length sinks) < 2 ^ 32 -> Z.of_nat (length apps) < 2 ^ 32 ->
  displayable utcoffset (timestamp_ms h) ->
  exists tr,
    parse_body utcoffset (put_snapshot h sinks apps)
    = (tr, inr (Finished (len (put_snapshot h sinks apps))))
    /\ stdout tr
       = header_lines utcoffset h
         ++ SinksHeader (Z.of_nat (length sinks)) :: map sink_line sinks
         ++ Text "" :: AppsHeader (Z.of_nat (length apps)) :: map app_line apps
         ++ [Text ""; TotalSize (len (put_snapshot h sinks apps))].
Proof.
  intros Hh Hs Ha Hn Hm Hd.
  set (data := put_snapshot h sinks apps).
  set (N := Z.of_nat (length sinks)). set (M := Z.of_nat (length apps)).
  set (sb := flat_map put_sink sinks). set (ab := flat_map put_app apps).
  assert (E : data = put_header h ++ le_encode 4 N ++ sb ++ le_encode 4 M ++ ab).
  { unfold data, put_snapshot, put_sinks, put_apps. now rewrite <- !app_assoc. }
  pose proof (len_put_header h Hh) as Lh.
  pose proof (len_nonneg sb) as Lsb. pose proof (len_nonneg ab) as Lab.
  assert (Ld : len data = 36 + len sb + 4 + len ab).
  { rewrite E, !len_app, !len_le_encode, Lh. lia. }
  assert (Hhdr : header_of data = h) by (rewrite E; now apply header_of_put).
  assert (Hcnt : le_decode (slice data 32 36) = N).
  { rewrite E. apply count_of_put; [assumption|subst N; lia]. }
  destruct (sink_loop_records sinks data (put_header h ++ le_encode 4 N)
              (le_encode 4 M ++ ab) 0 Hs) as (tr1 & Ho1 & E1).
  { rewrite E, <- !app_assoc. reflexivity. }
  rewrite Nat.add_0_r, len_app, len_le_encode, Lh in E1.
  cbn [sink_loop events outcome ret fst snd] in E1. rewrite app_nil_r in E1.
  change (32 + Z.of_nat 4) with 36 in E1. fold sb in E1.
  destruct (app_loop_records apps data
              (put_header h ++ le_encode 4 N ++ sb ++ le_encode 4 M) [] 0 Ha)
    as (tr2 & Ho2 & E2).
  { rewrite E, app_nil_r, <- !app_assoc. reflexivity. }
  rewrite Nat.add_0_r, !len_app, !len_le_encode, Lh in E2.
  cbn [app_loop events outcome ret fst snd] in E2. rewrite app_nil_r in E2.
  fold ab in E2.
  replace (32 + (Z.of_nat 4 + (len sb + Z.of_nat 4))) with (36 + len sb + 4) in E2
    by lia.
  replace (36 + len sb + 4 + len ab) with (len data) in E2 by lia.
  assert (Hcnt2 : le_decode (slice data (36 + len sb) (36 + len sb + 4)) = M).
  { rewrite (slice_eq data (put_header h ++ le_encode 4 N ++ sb) (le_encode 4 M) ab).
    - apply le_decode_encode. subst M. lia.
    - rewrite E, <- !app_assoc. reflexivity.
    - rewrite !len_app, len_le_encode, Lh. lia.
    - now rewrite len_le_encode. }
  eexists. split.
  - rewrite (parse_body_sinks utcoffset data tr1 (36 + len sb)).
    + rewrite (app_section_present data (36 + len sb) tr2 (len data)).
      * cbn [events outcome fst snd]. reflexivity.
      * lia.
      * lia.
      * rewrite Hcnt2. subst M. now rewrite Nat2Z.id.
    + lia.
    + now rewrite Hhdr.
    + rewrite Hcnt. subst N. now rewrite Nat2Z.id.
  - rewrite Hhdr, Hcnt, Hcnt2.
    repeat first [ rewrite stdout_app | rewrite stdout_prints
                 | progress cbn [stdout header_reads List.app] ].
    rewrite Ho1, Ho2. reflexivity.
Qed.

End RoundTrip.

Section Lines.

Lemma filter_sink_lines (sinks : list sink) :
  filter is_sink_line (map sink_line sinks) = map sink_line sinks.
Proof. induction sinks as [|s l IH]; simpl; [reflexivity|now rewrite IH]. Qed.

Lemma filter_app_lines (apps : list app) :
  filter is_app_line (map app_line apps) = map app_line apps.
Proof. induction apps as [|a l IH]; simpl; [reflexivity|now rewrite IH]. Qed.

Lemma filter_none {A : Type} (p q : A -> bool) (l : list A) :
  (forall x, q x = true -> p x = false) ->
  Forall (fun x => q x = true) l -> filter p l = [].
Proof.
  intros Hpq H. induction H as [|x l Hx Hl IH]; simpl; [reflexivity|].
  now rewrite (Hpq x Hx).
Qed.

Lemma no_sink_line_among_apps (apps : list app) :
  filter is_sink_line (map app_line apps) = [].
Proof. induction apps as [|a l IH]; simpl; [reflexivity|exact IH]. Qed.

Lemma no_app_line_among_sinks (sinks : list sink) :
  filter is_app_line (map sink_line sinks) = [].
Proof. induction sinks as [|s l IH]; simpl; [reflexivity|exact IH]. Qed.

End Lines.

Lemma sink_lines_as_written (sinks : list sink) :
  Forall (fun s => signaling_nan (float32_bits (sink_volume s)) = false) sinks ->
  map sink_line sinks = map sink_as_written sinks.
Proof.
  induction 1 as [|s l Hs Hl IH]; [reflexivity|].
  cbn [map]. rewrite IH. f_equal.
  unfold sink_line, sink_as_written. now rewrite (widen_quiet _ Hs), F32_bits.
Qed.

(** C1, against the code: two snapshots built per the layout, every field in
    range, one sink and one app.  In the first the timestamp field holds
    2^64 - 1: the run shows neither the sink nor the app.  In the second
    the timestamp converts and the volume written is the signaling NaN
    0x7FA00000: the float the run decodes is the quiet NaN 0x7FE00000, not
    the pattern written. *)
Lemma round_trip_counterexamples :
  (wf_header late_header /\ Forall wf_sink [sample_sink] /\ Forall wf_app [sample_app]
   /\ late_snapshot = put_snapshot late_header [sample_sink] [sample_app]
   /\ stdout (parse_shared_memory utc (Some late_snapshot))
      = opening_lines late_header ++ [ErrorParsing TimestampError]
   /\ filter is_sink_line (stdout (parse_shared_memory utc (Some late_snapshot)))
      <> map sink_as_written [sample_sink]
   /\ filter is_app_line (stdout (parse_shared_memory utc (Some late_snapshot)))
      <> map app_line [sample_app])
  /\ (wf_header sample_header /\ Forall wf_sink [nan_sink]
      /\ displayable utc (timestamp_ms sample_header)
      /\ nan_snapshot = put_snapshot sample_header [nan_sink] [sample_app]
      /\ sink_volume nan_sink = F32 0x7FA00000
      /\ filter is_sink_line (stdout (parse_shared_memory utc (Some nan_snapshot)))
         = [SinkLine speakers 7 (F32 0x7FE00000) false]
      /\ filter is_sink_line (stdout (parse_shared_memory utc (Some nan_snapshot)))
         <> map sink_as_written [nan_sink]).
Proof.
  split.
  - split; [unfold wf_header; simpl; lia|].
    split; [constructor; [exact wf_sample_sink|constructor]|].
    split; [constructor; [exact wf_sample_app|constructor]|].
    split; [reflexivity|].
    split; [vm_compute; reflexivity|].
    split; vm_compute; discriminate.
  - split; [unfold wf_header; simpl; lia|].
    split; [constructor; [|constructor]; split; [exact wf_speakers|simpl; lia]|].
    split; [vm_compute; reflexivity|].
    split; [reflexivity|]. split; [reflexivity|].
    split; [vm_compute; reflexivity|].
    vm_compute. discriminate.
Qed.

(** C1, as the code has it.  A snapshot built per the layout: a header whose
    timestamp [datetime] can hold, a count [N] and [N] well-formed sink
    records, a count [M] and [M] well-formed app records, the counts below
    2^32, no volume a signaling NaN.  The run prints the header, then
    exactly the [N] sinks and the [M] apps in the order written, each with
    the name, id and flag that were written and a float whose binary32
    pattern is the one written, then the length of the buffer; no other
    sink or app line is printed. *)
Theorem round_trip (utcoffset : Z -> Z)
        (h : header) (sinks : list sink) (apps : list app) :
  wf_header h -> Forall wf_sink sinks -> Forall wf_app apps ->
  Z.of_nat (length sinks) < 2 ^ 32 -> Z.of_nat (length apps) < 2 ^ 32 ->
  displayable utcoffset (timestamp_ms h) ->
  Forall (fun s => signaling_nan (float32_bits (sink_volume s)) = false) sinks ->
  let out := stdout (parse_shared_memory utcoffset (Some (put_snapshot h sinks apps))) in
  out = header_lines utcoffset h
        ++ SinksHeader (Z.of_nat (length sinks)) :: map sink_as_written sinks
        ++ Text "" :: AppsHeader (Z.of_nat (length apps)) :: map app_line apps
        ++ [Text ""; TotalSize (len (put_snapshot h sinks apps))]
  /\ filter is_sink_line out = map sink_as_written sinks
  /\ filter is_app_line out = map app_line apps.
Proof.
  intros Hh Hs Ha Hn Hm Hd Hq.
  destruct (parse_body_put utcoffset h sinks apps Hh Hs Ha Hn Hm Hd) as (tr & E & Ho).
  cbv zeta. unfold parse_shared_memory. rewrite E, Ho.
  rewrite <- (sink_lines_as_written sinks Hq).
  split; [reflexivity|]. split.
  - cbn [header_lines List.app filter is_sink_line].
    rewrite filter_app, filter_sink_lines. cbn [filter is_sink_line].
    rewrite filter_app, no_sink_line_among_apps. cbn [filter is_sink_line List.app].
    apply app_nil_r.
  - cbn [header_lines List.app filter is_app_line].
    rewrite filter_app, no_app_line_among_sinks. cbn [filter is_app_line List.app].
    rewrite filter_app, filter_app_lines. cbn [filter is_app_line].
    apply app_nil_r.
Qed.

Lemma round_trip_witness :
  stdout (parse_shared_memory utc (Some sample_snapshot))
  = header_lines utc sample_header
    ++ [ SinksHeader 1; SinkLine speakers 7 (F32 0x3F400000) false; Text "";
         AppsHeader 1; AppLine firefox speakers true; Text ""; TotalSize 76 ].
Proof.
  destruct (round_trip utc sample_header [sample_sink] [sample_app]) as [H _].
  - unfold wf_header. simpl. lia.
  - constructor; [exact wf_sample_sink|constructor].
  - constructor; [exact wf_sample_app|constructor].
  - simpl. lia.
  - simpl. lia.
  - vm_compute. reflexivity.
  - repeat constructor.
  - exact H.
Defined.




(* ================================================================== *)
(** * Truncation *)

Section Truncation.

Lemma len_firstn (n : nat) (l : bytes) :
  (n <= length l)%nat -> len (firstn n l) = Z.of_nat n.
Proof. intros H. unfold len. rewrite length_firstn. lia. Qed.

Lemma complete_before_small (room : Z) (sinks : list sink) :
  room < 10 -> complete_before room sinks = [].
Proof.
  intros H. destruct sinks as [|s rest]; [reflexivity|].
  cbn [complete_before]. pose proof (len_put_sink s) as L.
  pose proof (len_nonneg (encode (sink_name s))).
  destruct (Z.leb_spec (len (put_sink s)) room); [lia|reflexivity].
Qed.

Lemma complete_before_Forall (P : sink -> Prop) (sinks : list sink) :
  Forall P sinks -> forall room, Forall P (complete_before room sinks).
Proof.
  induction 1 as [|s rest Hs Hrest IH]; intros room; cbn [complete_before].
  - constructor.
  - destruct (len (put_sink s) <=? room); [|constructor].
    constructor; [assumption|apply IH].
Qed.

(** A cut inside the sink records leaves the records that fit, whole, and
    then a proper beginning of the next one. *)
Lemma firstn_sinks (sinks : list sink) : forall room : Z,
  0 <= room < len (flat_map put_sink sinks) ->
  exists (s : sink) (partial missing : bytes),
    firstn (Z.to_nat room) (flat_map put_sink sinks)
    = flat_map put_sink (complete_before room sinks) ++ partial
    /\ put_sink s = partial ++ missing /\ missing <> [] /\ In s sinks
    /\ (length (complete_before room sinks) < length sinks)%nat.
Proof.
  induction sinks as [|s rest IH]; intros room Hr.
  - cbn in Hr. lia.
  - cbn [flat_map complete_before] in *. rewrite len_app in Hr.
    pose proof (len_nonneg (put_sink s)) as Lp.
    destruct (Z.leb_spec (len (put_sink s)) room) as [Hfit|Hcut].
    + destruct (IH (room - len (put_sink s))) as (s' & p & m & E & Es & Hm & Hin & Hlen);
        [lia|].
      exists s', p, m. split; [|split; [|split; [|split]]]; auto.
      * rewrite firstn_app, firstn_all2 by (unfold len in Hfit; lia).
        cbn [flat_map]. rewrite <- app_assoc. f_equal.
        replace (Z.to_nat room - length (put_sink s))%nat
          with (Z.to_nat (room - len (put_sink s))) by (unfold len; lia).
        exact E.
      * now right.
      * cbn [length]. lia.
    + exists s, (firstn (Z.to_nat room) (put_sink s)),
             (skipn (Z.to_nat room) (put_sink s)).
      split; [|split; [|split; [|split]]].
      * rewrite firstn_app.
        replace (Z.to_nat room - length (put_sink s))%nat with 0%nat
          by (unfold len in Hcut; lia).
        cbn [firstn flat_map List.app]. apply app_nil_r.
      * symmetry. apply firstn_skipn.
      * intros Hnil. apply (f_equal (@length byte)) in Hnil.
        rewrite length_skipn in Hnil. cbn [length] in Hnil.
        unfold len in Hcut. lia.
      * now left.
      * cbn [length]. lia.
Qed.

(** A turn of the sink loop that meets a record cut short leaves the loop
    and prints nothing. *)
Lemma sink_loop_partial (data pre partial missing : bytes) (s : sink) (n : nat) :
  wf_sink s ->
  data = pre ++ partial ->
  put_sink s = partial ++ missing -> missing <> [] ->
  exists tr c,
    sink_loop data (S n) (len pre) = (tr, inr c)
    /\ stdout tr = [] /\ len pre <= c <= len data.
Proof.
  intros ((Hs & Hl) & _) E Ep Hm.
  pose proof (len_nonneg pre) as Lp. pose proof (len_nonneg (encode (sink_name s))) as Le.
  assert (Lm : 1 <= len missing).
  { destruct missing; [congruence|]. rewrite len_cons. pose proof (len_nonneg missing). lia. }
  assert (Ls : len partial + len missing = 1 + len (encode (sink_name s)) + 9).
  { rewrite <- len_app, <- Ep. apply len_put_sink. }
  assert (Ld : len data = len pre + len partial) by (rewrite E; apply len_app).
  destruct partial as [|b p].
  - rewrite len_nil in Ld.
    exists [], (len pre). split; [|split; [reflexivity|lia]].
    apply sink_loop_break_name. apply read_string_past. lia.
  - rewrite len_cons in Ld, Ls. pose proof (len_nonneg p) as Lq.
    assert (Hb : byte_at data (len pre) = len (encode (sink_name s))).
    { rewrite (byte_at_eq data pre p b); [|assumption|reflexivity].
      unfold put_sink, put_string in Ep. cbn [List.app] in Ep.
      injection Ep as <- _. apply to_Z_of_Z. lia. }
    destruct (Z.le_gt_cases (len pre + 1 + byte_at data (len pre)) (len data)) as [Hw|Hw].
    + eexists _, _. split; [|split].
      * eapply sink_loop_break_fixed; [apply read_string_whole; lia|lia].
      * reflexivity.
      * lia.
    + eexists _, _. split; [|split].
      * eapply sink_loop_break_name. apply read_string_short; lia.
      * reflexivity.
      * lia.
Qed.

(** What the app section prints starts with the blank line that ends the
    sink section. *)
Lemma app_section_stdout (data : bytes) (c : Z) :
  0 <= c <= len data ->
  exists tail,
    stdout (events (app_section data c)) = Text "" :: tail
    /\ Forall (fun l => is_app_section_line l = true) tail.
Proof.
  intros Hc. destruct (app_section_safe data c Hc) as (tr & e & E & _ & Ho & _).
  destruct (Z.le_gt_cases (c + 4) (len data)) as [Hl|Hl].
  - destruct (app_loop_safe data (Z.to_nat (le_decode (slice data c (c + 4)))) (c + 4))
      as (tr2 & c2 & E2 & _ & _ & _); [lia|].
    rewrite (app_section_present data c tr2 c2) in E |- * by (assumption || lia).
    injection E as <- _. cbn [events fst]. cbn [stdout] in Ho |- *.
    eexists. split; [reflexivity|]. now inversion Ho.
  - rewrite app_section_absent by lia. cbn [events fst stdout].
    eexists. split; [reflexivity|]. repeat constructor.
Qed.

End Truncation.

Section Cut.

Variable utcoffset : Z -> Z.

Lemma firstn_past (pre l : bytes) (t : Z) :
  len pre <= t ->
  firstn (Z.to_nat t) (pre ++ l) = pre ++ firstn (Z.to_nat (t - len pre)) l.
Proof.
  intros H. unfold len in *. rewrite firstn_app, firstn_all2 by lia.
  f_equal. f_equal. lia.
Qed.

Lemma firstn_within (l rest : bytes) (t : Z) :
  t <= len l -> firstn (Z.to_nat t) (l ++ rest) = firstn (Z.to_nat t) l.
Proof.
  intros H. unfold len in *. rewrite firstn_app.
  replace (Z.to_nat t - length l)%nat with 0%nat by lia.
  cbn [firstn]. apply app_nil_r.
Qed.

(** The run on a snapshot cut inside its sink records. *)
Lemma parse_cut (h : header) (sinks : list sink) (rest : bytes) (t : Z) :
  wf_header h -> Forall wf_sink sinks -> Z.of_nat (length sinks) < 2 ^ 32 ->
  displayable utcoffset (timestamp_ms h) ->
  36 <= t < len (put_header h ++ put_sinks sinks) ->
  exists tail,
    stdout (parse_shared_memory utcoffset
              (Some (firstn (Z.to_nat t) (put_header h ++ put_sinks sinks ++ rest))))
    = header_lines utcoffset h
      ++ SinksHeader (Z.of_nat (length sinks))
      :: map sink_line (complete_before (t - 36) sinks) ++ Text "" :: tail
    /\ Forall (fun l => is_app_section_line l = true) tail.
Proof.
  intros Hh Hs Hn Hd Ht.
  set (N := Z.of_nat (length sinks)). set (sb := flat_map put_sink sinks).
  set (kept := complete_before (t - 36) sinks).
  pose proof (len_put_header h Hh) as Lh.
  unfold put_sinks in *. fold N sb in Ht |- *.
  rewrite !len_app, len_le_encode, Lh in Ht.
  destruct (firstn_sinks sinks (t - 36)) as (s & partial & missing & E & Es & Hm & Hin & Hk);
    [fold sb; lia|].
  fold sb kept in E, Hk.
  set (pre := put_header h ++ le_encode 4 N).
  assert (Lpre : len pre = 36) by (unfold pre; rewrite len_app, len_le_encode, Lh; lia).
  set (data := firstn (Z.to_nat t) (put_header h ++ (le_encode 4 N ++ sb) ++ rest)).
  assert (Ed : data = pre ++ flat_map put_sink kept ++ partial).
  { unfold data. rewrite <- app_assoc, app_assoc. fold pre.
    rewrite firstn_past by lia. rewrite Lpre.
    rewrite firstn_within by lia. now rewrite E. }
  clearbody data.
  assert (Hhdr : header_of data = h).
  { rewrite Ed. unfold pre. rewrite <- app_assoc. now apply header_of_put. }
  assert (Hcnt : le_decode (slice data 32 36) = N).
  { rewrite Ed. unfold pre. rewrite <- app_assoc.
    apply count_of_put; [assumption|subst N; lia]. }
  assert (Hwf : wf_sink s) by (rewrite Forall_forall in Hs; now apply Hs).
  destruct (sink_loop_records kept data pre partial
              (S (length sinks - length kept - 1))
              (complete_before_Forall wf_sink sinks Hs (t - 36)) Ed)
    as (tr1 & Ho1 & E1).
  destruct (sink_loop_partial data (pre ++ flat_map put_sink kept) partial missing s
              (length sinks - length kept - 1) Hwf)
    as (tr2 & c & E2 & Ho2 & Hc); [now rewrite <- app_assoc|assumption|assumption|].
  rewrite len_app in E2, Hc. rewrite E2 in E1. cbn [events outcome fst snd] in E1.
  replace (length kept + S (length sinks - length kept - 1))%nat
    with (Z.to_nat N) in E1 by (subst N; lia).
  rewrite Lpre in E1, Hc.
  pose proof (len_nonneg (flat_map put_sink kept)) as Lk.
  assert (Ld : 36 <= len data).
  { rewrite Ed, !len_app, Lpre. pose proof (len_nonneg partial). lia. }
  destruct (app_section_safe data c) as (tr3 & e & E3 & _ & _ & _); [lia|].
  destruct (app_section_stdout data c) as (tail & Ho3 & Htail); [lia|].
  exists tail. split; [|assumption].
  unfold parse_shared_memory.
  rewrite (parse_body_sinks utcoffset data (tr1 ++ tr2) c);
    [|assumption|now rewrite Hhdr|now rewrite Hcnt].
  rewrite E3 in Ho3 |- *. cbn [events outcome fst snd] in Ho3 |- *.
  rewrite Hhdr, Hcnt.
  repeat first [ rewrite stdout_app | rewrite stdout_prints
               | progress cbn [stdout header_reads List.app] ].
  rewrite Ho1, Ho2, Ho3. rewrite app_nil_r. reflexivity.
Qed.

End Cut.

(** C2, against the code: two well-formed sinks under a header whose
    timestamp field holds 2^64 - 1, cut five bytes into the second sink.
    The first sink lies whole before the cut, and the run shows no sink. *)
Lemma late_cut_shows_no_sink :
  wf_header late_header /\ Forall wf_sink [sample_sink; sample_sink]
  /\ late_two_sinks_cut
     = firstn 59 (put_header late_header ++ put_sinks [sample_sink; sample_sink])
  /\ 59 < len (put_header late_header ++ put_sinks [sample_sink; sample_sink])
  /\ complete_before (59 - 36) [sample_sink; sample_sink] = [sample_sink]
  /\ filter is_sink_line (stdout (parse_shared_memory utc (Some late_two_sinks_cut))) = []
  /\ stdout (parse_shared_memory utc (Some late_two_sinks_cut))
     = opening_lines late_header ++ [ErrorParsing TimestampError].
Proof.
  split; [unfold wf_header; simpl; lia|].
  split; [repeat (constructor; [exact wf_sample_sink|]); constructor|].
  repeat split; vm_compute; reflexivity.
Qed.

(** C2, as the code has it.  A header whose timestamp [datetime] can hold,
    a count and that many well-formed sink records, whatever follows them,
    and a cut at any byte before the end of the last sink record.  The sink
    lines of the run are exactly the sinks whose records lie whole before
    the cut, in order, and the run prints no error line.  When the cut is
    past the sink count, these lines follow the sinks header and are
    followed at once by the blank line that ends the sink section: the
    record cut short ends the loop and prints nothing.  After it come only
    lines of the app section. *)
Theorem truncated_sinks (utcoffset : Z -> Z)
        (h : header) (sinks : list sink) (rest : bytes) (t : Z) :
  wf_header h -> Forall wf_sink sinks -> Z.of_nat (length sinks) < 2 ^ 32 ->
  displayable utcoffset (timestamp_ms h) ->
  0 <= t < len (put_header h ++ put_sinks sinks) ->
  let data := firstn (Z.to_nat t) (put_header h ++ put_sinks sinks ++ rest) in
  let kept := complete_before (t - 36) sinks in
  let out := stdout (parse_shared_memory utcoffset (Some data)) in
  filter is_sink_line out = map sink_line kept
  /\ Forall (fun l => is_error_line l = false) out
  /\ (36 <= t ->
      exists tail,
        out = header_lines utcoffset h
              ++ SinksHeader (Z.of_nat (length sinks))
              :: map sink_line kept ++ Text "" :: tail
        /\ Forall (fun l => is_app_section_line l = true) tail).
Proof.
  intros Hh Hs Hn Hd Ht. cbv zeta.
  pose proof (len_put_header h Hh) as Lh.
  destruct (Z.lt_ge_cases t 36) as [Hlow|Hhigh].
  - rewrite complete_before_small by lia.
    assert (Lfull : t <= len (put_header h ++ put_sinks sinks ++ rest)).
    { rewrite app_assoc, len_app. pose proof (len_nonneg rest). lia. }
    split; [|split; [|lia]].
    + destruct (Z.lt_ge_cases t 32) as [H32|H32].
      * unfold parse_shared_memory. rewrite parse_body_too_small; [reflexivity|].
        rewrite len_firstn by (unfold len in Lfull; lia). lia.
      * rewrite firstn_past by lia. unfold parse_shared_memory.
        rewrite parse_body_no_sink.
        -- rewrite !stdout_app, stdout_prints. reflexivity.
        -- rewrite <- firstn_past by lia.
           rewrite len_firstn by (unfold len in Lfull; lia). lia.
        -- now rewrite header_of_put.
    + destruct (Z.lt_ge_cases t 32) as [H32|H32].
      * unfold parse_shared_memory. rewrite parse_body_too_small;
          [repeat constructor|].
        rewrite len_firstn by (unfold len in Lfull; lia). lia.
      * rewrite firstn_past by lia. unfold parse_shared_memory.
        rewrite parse_body_no_sink.
        -- rewrite !stdout_app, stdout_prints. repeat constructor.
        -- rewrite <- firstn_past by lia.
           rewrite len_firstn by (unfold len in Lfull; lia). lia.
        -- now rewrite header_of_put.
  - destruct (parse_cut utcoffset h sinks rest t Hh Hs Hn Hd) as (tail & E & Htail);
      [lia|].
    rewrite E. split; [|split].
    + cbn [header_lines List.app filter is_sink_line].
      rewrite filter_app, filter_sink_lines. cbn [filter is_sink_line].
      rewrite (filter_none is_sink_line is_app_section_line tail);
        [apply app_nil_r| |assumption].
      intros l Hl. now destruct l.
    + apply Forall_app. split; [repeat constructor|].
      constructor; [reflexivity|]. apply Forall_app. split.
      * apply Forall_forall. intros l Hl. apply in_map_iff in Hl.
        destruct Hl as (s & <- & _). reflexivity.
      * constructor; [reflexivity|].
        eapply Forall_impl; [|exact Htail]. intros l Hl. now destruct l.
    + intros _. exists tail. split; [reflexivity|assumption].
Qed.

Lemma truncated_sinks_witness :
  filter is_sink_line (stdout (parse_shared_memory utc (Some two_sinks_cut)))
  = [SinkLine speakers 7 (F32 0x3F400000) false].
Proof.
  destruct (truncated_sinks utc sample_header [sample_sink; sample_sink] [] 59)
    as [H _].
  - unfold wf_header. simpl. lia.
  - repeat (constructor; [exact wf_sample_sink|]); constructor.
  - simpl. lia.
  - vm_compute. reflexivity.
  - vm_compute. split; [discriminate|reflexivity].
  - exact H.
Defined.

(* ================================================================== *)
(** * Framing: records of arbitrary bytes *)

Section Framing.

Lemma len_put_field (p : bytes) : len (put_field p) = 1 + len p.
Proof. unfold put_field. now rewrite len_cons. Qed.

Lemma len_put_sink_record (r : sink_record) :
  len (put_sink_record r) = 1 + len (rs_name r) + 9.
Proof.
  unfold put_sink_record.
  rewrite !len_app, len_put_field, !len_le_encode, len_cons, len_nil. lia.
Qed.

Lemma len_put_app_record (r : app_record) :
  len (put_app_record r) = 1 + len (ra_name r) + (1 + len (ra_current_sink r)) + 1.
Proof.
  unfold put_app_record. rewrite !len_app, !len_put_field, len_cons, len_nil. lia.
Qed.

(** A string field is read whole whatever its payload holds. *)
Lemma read_string_field (data pre post payload : bytes) :
  len payload <= 255 ->
  data = pre ++ put_field payload ++ post ->
  read_string data (len pre)
  = ([Index (len pre); Slice (len pre + 1) (len pre + 1 + len payload)],
     inr (Some (lenient payload), len pre + 1 + len payload)).
Proof.
  intros Hl E.
  pose proof (len_nonneg pre) as Hp. pose proof (len_nonneg payload) as He.
  pose proof (len_nonneg post) as Hq.
  assert (Hlen : len data = len pre + (1 + len payload) + len post).
  { rewrite E, !len_app, len_put_field. lia. }
  assert (Hb : byte_at data (len pre) = len payload).
  { rewrite (byte_at_eq data pre (payload ++ post) (of_Z (len payload)));
      [apply to_Z_of_Z; lia|assumption|reflexivity]. }
  rewrite read_string_whole by lia. rewrite Hb.
  rewrite (slice_eq data (pre ++ [of_Z (len payload)]) payload post).
  - reflexivity.
  - rewrite E. unfold put_field. rewrite <- app_assoc. reflexivity.
  - rewrite len_app, len_cons, len_nil. lia.
  - reflexivity.
Qed.

(** One turn of the sink loop over one framed record. *)
Lemma sink_loop_framed (data pre post : bytes) (r : sink_record) (n : nat) :
  framed_sink r ->
  data = pre ++ put_sink_record r ++ post ->
  exists tr,
    stdout tr = [shown_sink r]
    /\ reach (len pre) tr = len pre + len (put_sink_record r)
    /\ sink_loop data (S n) (len pre)
       = (tr ++ events (sink_loop data n (len pre + len (put_sink_record r))),
          outcome (sink_loop data n (len pre + len (put_sink_record r)))).
Proof.
  intros (Hname & Hid & Hvol) E.
  destruct r as [name id vol flag].
  cbn [rs_name rs_id rs_volume rs_flag] in *.
  pose proof (len_nonneg pre) as Hp. pose proof (len_nonneg name) as He.
  pose proof (len_nonneg post) as Hq.
  assert (Hlen : len data = len pre + (1 + len name + 9) + len post).
  { rewrite E, !len_app, len_put_sink_record. cbn [rs_name]. lia. }
  unfold put_sink_record in E. cbn [rs_name rs_id rs_volume rs_flag] in E.
  set (c1 := len pre + 1 + len name).
  assert (Hr : read_string data (len pre)
               = ([Index (len pre); Slice (len pre + 1) c1],
                  inr (Some (lenient name), c1))).
  { apply read_string_field with
      (post := le_encode 4 id ++ le_encode 4 (float32_bits vol) ++ [flag] ++ post);
      [assumption|].
    rewrite E, <- !app_assoc. reflexivity. }
  eexists. split; [|split].
  3:{ rewrite (sink_loop_step data n (len pre) _ (lenient name) c1 Hr) by (subst c1; lia).
      rewrite len_put_sink_record. cbn [rs_name].
      replace (c1 + 4 + 4 + 1) with (len pre + (1 + len name + 9)) by (subst c1; lia).
      rewrite app_assoc. reflexivity. }
  - rewrite stdout_app. cbn [stdout List.app]. unfold shown_sink.
    cbn [rs_name rs_id rs_volume rs_flag].
    rewrite (slice_eq data (pre ++ put_field name) (le_encode 4 id)
               (le_encode 4 (float32_bits vol) ++ [flag] ++ post));
      [|rewrite E, <- !app_assoc; reflexivity
       |rewrite len_app, len_put_field; subst c1; lia
       |now rewrite len_le_encode].
    rewrite (slice_eq data (pre ++ put_field name ++ le_encode 4 id)
               (le_encode 4 (float32_bits vol)) ([flag] ++ post));
      [|rewrite E, <- !app_assoc; reflexivity
       |rewrite !len_app, len_put_field, len_le_encode; subst c1; lia
       |now rewrite len_le_encode].
    rewrite (byte_at_eq data
               (pre ++ put_field name ++ le_encode 4 id ++ le_encode 4 (float32_bits vol))
               post flag);
      [|rewrite E, <- !app_assoc; reflexivity
       |rewrite !len_app, len_put_field, !len_le_encode; subst c1; lia].
    rewrite !le_decode_encode by assumption.
    reflexivity.
  - cbn [List.app reach]. rewrite len_put_sink_record. cbn [rs_name].
    subst c1. lia.
Qed.

Lemma reach_app (a b : list event) (pos : Z) :
  reach pos (a ++ b) = reach (reach pos a) b.
Proof.
  revert pos. induction a as [|ev a IH]; intros pos; [reflexivity|].
  destruct ev; cbn [List.app reach]; apply IH.
Qed.

(** The sink loop over framed records, with [n] turns to spare. *)
Lemma sink_loop_framed_all (sinks : list sink_record) :
  forall (data pre post : bytes) (n : nat),
  Forall framed_sink sinks ->
  data = pre ++ flat_map put_sink_record sinks ++ post ->
  exists tr,
    stdout tr = map shown_sink sinks
    /\ reach (len pre) tr = len pre + len (flat_map put_sink_record sinks)
    /\ sink_loop data (length sinks + n) (len pre)
       = (tr ++ events (sink_loop data n (len pre + len (flat_map put_sink_record sinks))),
          outcome (sink_loop data n (len pre + len (flat_map put_sink_record sinks)))).
Proof.
  induction sinks as [|s sinks IH]; intros data pre post n Hwf E.
  - exists []. split; [reflexivity|].
    cbn [flat_map length Nat.add List.app reach]. rewrite len_nil, Z.add_0_r.
    split; [reflexivity|]. now destruct (sink_loop data n (len pre)).
  - inversion Hwf as [|? ? Hs Hrest]; subst.
    cbn [flat_map length Nat.add].
    destruct (sink_loop_framed
                (pre ++ (put_sink_record s ++ flat_map put_sink_record sinks) ++ post)
                pre (flat_map put_sink_record sinks ++ post) s (length sinks + n) Hs)
      as (tr1 & Ho1 & Hr1 & E1); [now rewrite <- app_assoc|].
    destruct (IH (pre ++ (put_sink_record s ++ flat_map put_sink_record sinks) ++ post)
                (pre ++ put_sink_record s) post n Hrest)
      as (tr2 & Ho2 & Hr2 & E2); [now rewrite <- !app_assoc|].
    rewrite len_app in E2, Hr2. rewrite E1, E2. cbn [events outcome fst snd].
    exists (tr1 ++ tr2). split; [|split].
    + rewrite stdout_app, Ho1, Ho2. reflexivity.
    + rewrite reach_app, Hr1, Hr2, len_app. lia.
    + rewrite len_app, <- !app_assoc, !Z.add_assoc. reflexivity.
Qed.

(** One turn of the app loop over one framed record. *)
Lemma app_loop_framed (data pre post : bytes) (a : app_record) (n : nat) :
  framed_app a ->
  data = pre ++ put_app_record a ++ post ->
  exists tr,
    stdout tr = [shown_app a]
    /\ app_loop data (S n) (len pre)
       = (tr ++ events (app_loop data n (len pre + len (put_app_record a))),
          outcome (app_loop data n (len pre + len (put_app_record a)))).
Proof.
  intros (Hname & Hcur) E.
  destruct a as [name cur flag].
  cbn [ra_name ra_current_sink ra_flag] in *.
  pose proof (len_nonneg pre) as Hp. pose proof (len_nonneg name) as He.
  pose proof (len_nonneg cur) as He2. pose proof (len_nonneg post) as Hq.
  assert (Hlen : len data = len pre + (1 + len name + (1 + len cur) + 1) + len post).
  { rewrite E, !len_app, len_put_app_record. cbn [ra_name ra_current_sink]. lia. }
  unfold put_app_record in E. cbn [ra_name ra_current_sink ra_flag] in E.
  set (c1 := len pre + 1 + len name).
  set (c2 := c1 + 1 + len cur).
  assert (Hr : read_string data (len pre)
               = ([Index (len pre); Slice (len pre + 1) c1],
                  inr (Some (lenient name), c1))).
  { apply read_string_field with (post := put_field cur ++ [flag] ++ post);
      [assumption|].
    rewrite E, <- !app_assoc. reflexivity. }
  assert (Hr2 : read_string data c1
                = ([Index c1; Slice (c1 + 1) c2], inr (Some (lenient cur), c2))).
  { subst c2.
    assert (Hc1 : c1 = len (pre ++ put_field name))
      by (rewrite len_app, len_put_field; subst c1; lia).
    rewrite !Hc1.
    apply read_string_field with (post := [flag] ++ post); [assumption|].
    rewrite E, <- !app_assoc. reflexivity. }
  eexists. split.
  2:{ rewrite (app_loop_step data n (len pre) _ (lenient name) c1 _ (lenient cur) c2 Hr Hr2)
        by (subst c2 c1; lia).
      rewrite len_put_app_record. cbn [ra_name ra_current_sink].
      replace (c2 + 1) with (len pre + (1 + len name + (1 + len cur) + 1))
        by (subst c2 c1; lia).
      rewrite !app_assoc. reflexivity. }
  rewrite !stdout_app. cbn [stdout List.app]. unfold shown_app.
  cbn [ra_name ra_current_sink ra_flag].
  rewrite (byte_at_eq data (pre ++ put_field name ++ put_field cur) post flag);
    [|rewrite E, <- !app_assoc; reflexivity
     |rewrite !len_app, !len_put_field; subst c2 c1; lia].
  reflexivity.
Qed.

Lemma app_loop_framed_all (apps : list app_record) :
  forall (data pre post : bytes) (n : nat),
  Forall framed_app apps ->
  data = pre ++ flat_map put_app_record apps ++ post ->
  exists tr,
    stdout tr = map shown_app apps
    /\ app_loop data (length apps + n) (len pre)
       = (tr ++ events (app_loop data n (len pre + len (flat_map put_app_record apps))),
          outcome (app_loop data n (len pre + len (flat_map put_app_record apps)))).
Proof.
  induction apps as [|a apps IH]; intros data pre post n Hwf E.
  - exists []. split; [reflexivity|].
    cbn [flat_map length Nat.add List.app]. rewrite len_nil, Z.add_0_r.
    now destruct (app_loop data n (len pre)).
  - inversion Hwf as [|? ? Ha Hrest]; subst.
    cbn [flat_map length Nat.add].
    destruct (app_loop_framed
                (pre ++ (put_app_record a ++ flat_map put_app_record apps) ++ post)
                pre (flat_map put_app_record apps ++ post) a (length apps + n) Ha)
      as (tr1 & Ho1 & E1); [now rewrite <- app_assoc|].
    destruct (IH (pre ++ (put_app_record a ++ flat_map put_app_record apps) ++ post)
                (pre ++ put_app_record a) post n Hrest)
      as (tr2 & Ho2 & E2); [now rewrite <- !app_assoc|].
    rewrite len_app in E2. rewrite E1, E2. cbn [events outcome fst snd].
    exists (tr1 ++ tr2). split.
    + rewrite stdout_app, Ho1, Ho2. reflexivity.
    + rewrite len_app, <- !app_assoc, !Z.add_assoc. reflexivity.
Qed.

End Framing.

Section FramedBody.

Variable utcoffset : Z -> Z.

(** The sink loop over framed records stops after them when the count is
    used up, or when the buffer ends there. *)
Lemma sink_loop_ends (sinks : list sink_record) (data pre rest : bytes) (n : nat) :
  Forall framed_sink sinks ->
  data = pre ++ flat_map put_sink_record sinks ++ rest ->
  n = 0%nat \/ rest = [] ->
  exists tr,
    stdout tr = map shown_sink sinks
    /\ sink_loop data (length sinks + n) (len pre)
       = (tr, inr (len pre + len (flat_map put_sink_record sinks))).
Proof.
  intros Hf E Hn.
  destruct (sink_loop_framed_all sinks data pre rest n Hf E) as (tr & Ho & _ & El).
  exists tr. split; [assumption|]. rewrite El.
  destruct n as [|n].
  - cbn [sink_loop events outcome ret fst snd]. now rewrite app_nil_r.
  - destruct Hn as [Hn| ->]; [discriminate|].
    rewrite (sink_loop_break_name data n _ [] (len pre + len (flat_map put_sink_record sinks))).
    + cbn [events outcome fst snd]. now rewrite app_nil_r.
    + apply read_string_past. rewrite E, app_nil_r, len_app. lia.
Qed.

Lemma app_loop_ends (apps : list app_record) (data pre rest : bytes) (n : nat) :
  Forall framed_app apps ->
  data = pre ++ flat_map put_app_record apps ++ rest ->
  n = 0%nat \/ rest = [] ->
  exists tr,
    stdout tr = map shown_app apps
    /\ app_loop data (length apps + n) (len pre)
       = (tr, inr (len pre + len (flat_map put_app_record apps))).
Proof.
  intros Hf E Hn.
  destruct (app_loop_framed_all apps data pre rest n Hf E) as (tr & Ho & El).
  exists tr. split; [assumption|]. rewrite El.
  destruct n as [|n].
  - cbn [app_loop events outcome ret fst snd]. now rewrite app_nil_r.
  - destruct Hn as [Hn| ->]; [discriminate|].
    rewrite (app_loop_break_name data n _ [] (len pre + len (flat_map put_app_record apps))).
    + cbn [events outcome fst snd]. now rewrite app_nil_r.
    + apply read_string_past. rewrite E, app_nil_r, len_app. lia.
Qed.

(** The body over a header, a count and framed sink records: the sink lines
    are the records, and the body ends as the app section does from the end
    of the records. *)
Lemma parse_body_sink_section
      (h : header) (count : Z) (sinks : list sink_record) (rest : bytes) :
  wf_header h -> Forall framed_sink sinks ->
  Z.of_nat (length sinks) <= count < 2 ^ 32 ->
  count = Z.of_nat (length sinks) \/ rest = [] ->
  displayable utcoffset (timestamp_ms h) ->
  let data := put_sink_section h count sinks ++ rest in
  let c := 36 + len (flat_map put_sink_record sinks) in
  exists tr,
    stdout tr = map shown_sink sinks
    /\ parse_body utcoffset data
       = (header_reads ++ map Print (header_lines utcoffset h)
            ++ Slice 32 36 :: Print (SinksHeader count)
            :: tr ++ events (app_section data c),
          outcome (app_section data c)).
Proof.
  intros Hh Hf Hc Hn Hd. cbv zeta.
  set (data := put_sink_section h count sinks ++ rest).
  pose proof (len_put_header h Hh) as Lh.
  assert (E : data = put_header h ++ le_encode 4 count
                     ++ flat_map put_sink_record sinks ++ rest).
  { unfold data, put_sink_section. now rewrite <- !app_assoc. }
  assert (Hhdr : header_of data = h) by (rewrite E; now apply header_of_put).
  assert (Hcnt : le_decode (slice data 32 36) = count).
  { rewrite E. apply count_of_put; [assumption|lia]. }
  destruct (sink_loop_ends sinks data (put_header h ++ le_encode 4 count) rest
              (Z.to_nat count - length sinks) Hf) as (tr & Ho & El).
  { rewrite E, <- !app_assoc. reflexivity. }
  { destruct Hn as [Hn|Hn]; [left; lia|now right]. }
  rewrite len_app, len_le_encode, Lh in El. change (32 + Z.of_nat 4) with 36 in El.
  replace (length sinks + (Z.to_nat count - length sinks))%nat with (Z.to_nat count)
    in El by lia.
  exists tr. split; [assumption|].
  rewrite (parse_body_sinks utcoffset data tr (36 + len (flat_map put_sink_record sinks))).
  - now rewrite Hhdr, Hcnt.
  - rewrite E, !len_app, len_le_encode, Lh.
    pose proof (len_nonneg (flat_map put_sink_record sinks)). pose proof (len_nonneg rest).
    lia.
  - now rewrite Hhdr.
  - now rewrite Hcnt.
Qed.

(** The app section over a count and framed app records. *)
Lemma app_section_framed
      (data pre rest : bytes) (count : Z) (apps : list app_record) :
  Forall framed_app apps ->
  Z.of_nat (length apps) <= count < 2 ^ 32 ->
  count = Z.of_nat (length apps) \/ rest = [] ->
  data = pre ++ put_app_section count apps ++ rest ->
  exists tr,
    stdout tr = map shown_app apps
    /\ app_section data (len pre)
       = (Print (Text "") :: Slice (len pre) (len pre + 4) :: Print (AppsHeader count)
            :: tr ++ [Print (Text ""); Print (TotalSize (len data))],
          inr (Finished (len data - len rest))).
Proof.
  intros Hf Hc Hn E.
  pose proof (len_nonneg pre) as Lp. pose proof (len_nonneg rest) as Lr.
  pose proof (len_nonneg (flat_map put_app_record apps)) as La.
  unfold put_app_section in E.
  assert (Ld : len data = len pre + 4 + len (flat_map put_app_record apps) + len rest).
  { rewrite E, !len_app, len_le_encode. lia. }
  assert (Hcnt : le_decode (slice data (len pre) (len pre + 4)) = count).
  { rewrite (slice_eq data pre (le_encode 4 count) (flat_map put_app_record apps ++ rest)).
    - apply le_decode_encode. lia.
    - rewrite E, <- !app_assoc. reflexivity.
    - reflexivity.
    - now rewrite len_le_encode. }
  destruct (app_loop_ends apps data (pre ++ le_encode 4 count) rest
              (Z.to_nat count - length apps) Hf) as (tr & Ho & El).
  { rewrite E, <- !app_assoc. reflexivity. }
  { destruct Hn as [Hn|Hn]; [left; lia|now right]. }
  rewrite len_app, len_le_encode in El.
  replace (length apps + (Z.to_nat count - length apps))%nat with (Z.to_nat count)
    in El by lia.
  exists tr. split; [assumption|].
  rewrite (app_section_present data (len pre) tr
             (len pre + Z.of_nat 4 + len (flat_map put_app_record apps))).
  - rewrite Hcnt. do 2 f_equal. f_equal. lia.
  - lia.
  - lia.
  - rewrite Hcnt. exact El.
Qed.

End FramedBody.

(* ================================================================== *)
(** * Records of arbitrary bytes, counts that do not match *)

(** X1.  A buffer made of a header whose timestamp [datetime] can hold, a
    count [N] and [N] framed sink records, a count [M] and [M] framed app
    records, and then any bytes at all.  The names may hold any bytes and
    the flags any byte.  The run prints the [N] sinks and [M] apps in order:
    each name as the [ignore] handler decodes it, the id as written, the
    volume as [struct.unpack] gives it (the pattern written, a signaling NaN
    quieted), the flag true exactly when its byte is 1.  The cursor stops at
    the end of the last app record: the bytes after it change no line but
    the total size. *)
Theorem framed_records_shown (utcoffset : Z -> Z) (h : header)
        (sinks : list sink_record) (apps : list app_record) (rest : bytes) :
  wf_header h -> Forall framed_sink sinks -> Forall framed_app apps ->
  Z.of_nat (length sinks) < 2 ^ 32 -> Z.of_nat (length apps) < 2 ^ 32 ->
  displayable utcoffset (timestamp_ms h) ->
  let data := put_sink_section h (Z.of_nat (length sinks)) sinks
              ++ put_app_section (Z.of_nat (length apps)) apps ++ rest in
  stdout (parse_shared_memory utcoffset (Some data))
  = header_lines utcoffset h
    ++ SinksHeader (Z.of_nat (length sinks)) :: map shown_sink sinks
    ++ Text "" :: AppsHeader (Z.of_nat (length apps)) :: map shown_app apps
    ++ [Text ""; TotalSize (len data)]
  /\ outcome (parse_body utcoffset data) = inr (Finished (len data - len rest)).
Proof.
  intros Hh Hs Ha Hn Hm Hd. cbv zeta.
  set (N := Z.of_nat (length sinks)). set (M := Z.of_nat (length apps)).
  set (data := put_sink_section h N sinks ++ put_app_section M apps ++ rest).
  destruct (parse_body_sink_section utcoffset h N sinks (put_app_section M apps ++ rest)
              Hh Hs) as (tr1 & Ho1 & E1); [subst N; lia|now left|assumption|].
  fold data in E1.
  assert (Lp : len (put_sink_section h N sinks)
               = 36 + len (flat_map put_sink_record sinks)).
  { unfold put_sink_section. rewrite !len_app, len_le_encode, (len_put_header h Hh). lia. }
  destruct (app_section_framed data (put_sink_section h N sinks) rest M apps Ha)
    as (tr2 & Ho2 & E2); [subst M; lia|now left|reflexivity|].
  rewrite Lp in E2. rewrite E2 in E1. cbn [events outcome fst snd] in E1.
  unfold parse_shared_memory. rewrite E1. split; [|reflexivity].
  repeat first [ rewrite stdout_app | rewrite stdout_prints
               | progress cbn [stdout header_reads List.app] ].
  rewrite Ho1, Ho2. reflexivity.
Qed.

Lemma framed_records_shown_witness :
  stdout (parse_shared_memory utc
            (Some (put_sink_section sample_header 1 [odd_sink]
                   ++ put_app_section 1 [odd_app] ++ [xff; xff; xff])))
  = header_lines utc sample_header
    ++ [ SinksHeader 1; SinkLine [40] 7 (F32 0x3F400000) false; Text "";
         AppsHeader 1; AppLine [65] [66] true; Text ""; TotalSize 61 ].
Proof.
  destruct (framed_records_shown utc sample_header [odd_sink] [odd_app] [xff; xff; xff])
    as [H _].
  - unfold wf_header. simpl. lia.
  - repeat constructor; vm_compute; congruence.
  - repeat constructor; vm_compute; congruence.
  - simpl. lia.
  - simpl. lia.
  - vm_compute. reflexivity.
  - exact H.
Defined.

(** X2.  A count larger than the records that follow it, in a buffer that
    ends with the last record and whose header timestamp [datetime] can
    hold.  When it is the sink count, every sink
    record is shown, and then only a blank line and "No app data found": the
    body returns there.  When it is the app count, every app record is
    shown and the run ends as a complete one does, with a blank line and
    the total size, the cursor at the end of the buffer. *)
Theorem overstated_counts (utcoffset : Z -> Z) (h : header)
        (sinks : list sink_record) (apps : list app_record) (count : Z) :
  wf_header h -> Forall framed_sink sinks -> Forall framed_app apps ->
  displayable utcoffset (timestamp_ms h) ->
  (Z.of_nat (length sinks) < count < 2 ^ 32 ->
   let data := put_sink_section h count sinks in
   stdout (parse_shared_memory utcoffset (Some data))
   = header_lines utcoffset h
     ++ SinksHeader count :: map shown_sink sinks
     ++ [Text ""; Text "No app data found"]
   /\ outcome (parse_body utcoffset data) = inr (NoAppData (len data)))
  /\ (Z.of_nat (length sinks) < 2 ^ 32 -> Z.of_nat (length apps) < count < 2 ^ 32 ->
      let data := put_sink_section h (Z.of_nat (length sinks)) sinks
                  ++ put_app_section count apps in
      stdout (parse_shared_memory utcoffset (Some data))
      = header_lines utcoffset h
        ++ SinksHeader (Z.of_nat (length sinks)) :: map shown_sink sinks
        ++ Text "" :: AppsHeader count :: map shown_app apps
        ++ [Text ""; TotalSize (len data)]
      /\ outcome (parse_body utcoffset data) = inr (Finished (len data))).
Proof.
  intros Hh Hs Ha Hd. split.
  - intros Hc. cbv zeta.
    destruct (parse_body_sink_section utcoffset h count sinks [] Hh Hs)
      as (tr1 & Ho1 & E1); [lia|now right|assumption|].
    rewrite app_nil_r in E1.
    assert (Lp : len (put_sink_section h count sinks)
                 = 36 + len (flat_map put_sink_record sinks)).
    { unfold put_sink_section.
      rewrite !len_app, len_le_encode, (len_put_header h Hh). lia. }
    rewrite app_section_absent in E1 by lia.
    cbn [events outcome fst snd] in E1.
    unfold parse_shared_memory. rewrite E1, Lp. split; [|reflexivity].
    repeat first [ rewrite stdout_app | rewrite stdout_prints
                 | progress cbn [stdout header_reads List.app] ].
    rewrite Ho1. reflexivity.
  - intros Hn Hc. cbv zeta.
    set (N := Z.of_nat (length sinks)).
    set (data := put_sink_section h N sinks ++ put_app_section count apps).
    destruct (parse_body_sink_section utcoffset h N sinks (put_app_section count apps)
                Hh Hs) as (tr1 & Ho1 & E1); [subst N; lia|now left|assumption|].
    fold data in E1.
    assert (Lp : len (put_sink_section h N sinks)
                 = 36 + len (flat_map put_sink_record sinks)).
    { unfold put_sink_section.
      rewrite !len_app, len_le_encode, (len_put_header h Hh). lia. }
    destruct (app_section_framed data (put_sink_section h N sinks) [] count apps Ha)
      as (tr2 & Ho2 & E2); [lia|now right|unfold data; now rewrite app_nil_r|].
    rewrite Lp in E2. rewrite E2 in E1. cbn [events outcome fst snd] in E1.
    rewrite len_nil, Z.sub_0_r in E1.
    unfold parse_shared_memory. rewrite E1. split; [|reflexivity].
    repeat first [ rewrite stdout_app | rewrite stdout_prints
                 | progress cbn [stdout header_reads List.app] ].
    rewrite Ho1, Ho2. reflexivity.
Qed.

Lemma overstated_counts_witness :
  stdout (parse_shared_memory utc (Some (put_sink_section sample_header 5 [odd_sink])))
  = header_lines utc sample_header
    ++ [ SinksHeader 5; SinkLine [40] 7 (F32 0x3F400000) false; Text "";
         Text "No app data found" ].
Proof.
  destruct (overstated_counts utc sample_header [odd_sink] [] 5) as [H _].
  - unfold wf_header. simpl. lia.
  - repeat constructor; vm_compute; congruence.
  - constructor.
  - vm_compute. reflexivity.
  - destruct H as [H _]; [simpl; lia|]. exact H.
Defined.

Lemma put_sink_section_facts (h : header) (count : Z) (sinks : list sink_record)
      (rest : bytes) :
  wf_header h -> 0 <= count < 2 ^ 32 ->
  let data := put_sink_section h count sinks ++ rest in
  data = (put_header h ++ le_encode 4 count) ++ flat_map put_sink_record sinks ++ rest
  /\ len (put_header h ++ le_encode 4 count) = 36
  /\ len data = 36 + len (flat_map put_sink_record sinks) + len rest
  /\ header_of data = h
  /\ le_decode (slice data 32 36) = count.
Proof.
  intros Hh Hc. cbv zeta. pose proof (len_put_header h Hh) as Lh.
  assert (E : put_sink_section h count sinks ++ rest
              = put_header h ++ le_encode 4 count
                ++ flat_map put_sink_record sinks ++ rest).
  { unfold put_sink_section. now rewrite <- !app_assoc. }
  split; [rewrite E; now rewrite <- !app_assoc|].
  split; [rewrite len_app, len_le_encode, Lh; reflexivity|].
  split; [rewrite E, !len_app, len_le_encode, Lh; lia|].
  split; [rewrite E; now apply header_of_put|].
  rewrite E. now apply count_of_put.
Qed.

(** X3.  The sink count alone decides where the sink section ends.  In a
    buffer whose header timestamp [datetime] can hold, after [N] framed
    sink records the loop is over, whatever follows: the next
    four bytes are read as the app count and what comes after them as app
    records.  So the sink records a count fails to announce are not shown
    as sinks; the first four bytes of the first of them are shown as the
    number of apps. *)
Theorem app_count_follows_counted_sinks (utcoffset : Z -> Z) (h : header)
        (sinks : list sink_record) (rest : bytes) :
  wf_header h -> Forall framed_sink sinks ->
  Z.of_nat (length sinks) < 2 ^ 32 ->
  displayable utcoffset (timestamp_ms h) ->
  4 <= len rest ->
  let data := put_sink_section h (Z.of_nat (length sinks)) sinks ++ rest in
  exists (tail : list line) (c : Z),
    stdout (parse_shared_memory utcoffset (Some data))
    = header_lines utcoffset h
      ++ SinksHeader (Z.of_nat (length sinks)) :: map shown_sink sinks
      ++ Text "" :: AppsHeader (le_decode (firstn 4 rest)) :: tail
      ++ [Text ""; TotalSize (len data)]
    /\ Forall (fun l => is_app_line l = true) tail
    /\ outcome (parse_body utcoffset data) = inr (Finished c).
Proof.
  intros Hh Hs Hn Hd Hr. cbv zeta.
  set (N := Z.of_nat (length sinks)).
  set (data := put_sink_section h N sinks ++ rest).
  destruct (put_sink_section_facts h N sinks rest Hh) as (E & Lp & Ld & _ & _);
    [subst N; lia|].
  fold data in E, Ld.
  destruct (parse_body_sink_section utcoffset h N sinks rest Hh Hs)
    as (tr1 & Ho1 & E1); [subst N; lia|now left|assumption|].
  fold data in E1.
  set (c := 36 + len (flat_map put_sink_record sinks)) in *.
  pose proof (len_nonneg (flat_map put_sink_record sinks)) as Ls.
  assert (Hcnt : slice data c (c + 4) = firstn 4 rest).
  { apply (slice_eq data (put_header h ++ le_encode 4 N ++ flat_map put_sink_record sinks)
                    (firstn 4 rest) (skipn 4 rest)).
    - rewrite E, <- !app_assoc, firstn_skipn. reflexivity.
    - rewrite !len_app, len_le_encode, (len_put_header h Hh). subst c. lia.
    - rewrite len_firstn by (unfold len in Hr; lia). lia. }
  destruct (app_loop_safe data (Z.to_nat (le_decode (slice data c (c + 4)))) (c + 4))
    as (tr2 & c2 & E2 & _ & Ho2 & _); [subst c; lia|].
  rewrite (app_section_present data c tr2 c2) in E1 by (subst c; lia || exact E2).
  cbn [events outcome fst snd] in E1. rewrite Hcnt in E1.
  exists (stdout tr2), c2. unfold parse_shared_memory. rewrite E1.
  split; [|split; [assumption|reflexivity]].
  repeat first [ rewrite stdout_app | rewrite stdout_prints
               | progress cbn [stdout header_reads List.app] ].
  rewrite Ho1. reflexivity.
Qed.

Lemma app_count_follows_counted_sinks_witness :
  exists (tail : list line) (c : Z),
    stdout (parse_shared_memory utc
              (Some (put_sink_section sample_header 1 [odd_sink]
                     ++ put_sink_record odd_sink_muted)))
    = header_lines utc sample_header
      ++ SinksHeader 1 :: map shown_sink [odd_sink]
      ++ Text "" :: AppsHeader (le_decode (firstn 4 (put_sink_record odd_sink_muted)))
      :: tail ++ [Text ""; TotalSize 60]
    /\ Forall (fun l => is_app_line l = true) tail
    /\ outcome (parse_body utc (put_sink_section sample_header 1 [odd_sink]
                                ++ put_sink_record odd_sink_muted))
       = inr (Finished c).
Proof.
  apply (app_count_follows_counted_sinks utc sample_header [odd_sink]
           (put_sink_record odd_sink_muted)).
  - unfold wf_header. simpl. lia.
  - repeat constructor; vm_compute; congruence.
  - simpl. lia.
  - vm_compute. reflexivity.
  - vm_compute. discriminate.
Defined.

(** X4.  A sink record cut short after its id.  When the header timestamp
    is one [datetime] can hold and the buffer ends inside the last nine
    bytes of a sink record but holds its four id bytes, the
    turn leaves the sink loop with the cursor after the name, and the app
    section starts there: the id of the sink cut short is printed as the
    number of apps. *)
Theorem cut_sink_id_shown_as_app_count (utcoffset : Z -> Z) (h : header)
        (sinks : list sink_record) (count : Z) (name : bytes) (id : Z)
        (partial : bytes) :
  wf_header h -> Forall framed_sink sinks ->
  Z.of_nat (length sinks) < count < 2 ^ 32 ->
  displayable utcoffset (timestamp_ms h) ->
  len name <= 255 -> 0 <= id < 2 ^ 32 -> len partial < 5 ->
  let data := put_sink_section h count sinks
              ++ put_field name ++ le_encode 4 id ++ partial in
  exists (tail : list line) (c : Z),
    stdout (parse_shared_memory utcoffset (Some data))
    = header_lines utcoffset h
      ++ SinksHeader count :: map shown_sink sinks
      ++ Text "" :: AppsHeader id :: tail ++ [Text ""; TotalSize (len data)]
    /\ Forall (fun l => is_app_line l = true) tail
    /\ outcome (parse_body utcoffset data) = inr (Finished c).
Proof.
  intros Hh Hs Hc Hd Hname Hid Hp. cbv zeta.
  set (rest := put_field name ++ le_encode 4 id ++ partial).
  set (data := put_sink_section h count sinks ++ rest).
  destruct (put_sink_section_facts h count sinks rest Hh) as (E & Lp & Ld & Hhdr & Hcnt);
    [lia|].
  fold data in E, Ld, Hhdr, Hcnt.
  set (pre := put_header h ++ le_encode 4 count) in *.
  set (sb := flat_map put_sink_record sinks) in *.
  pose proof (len_nonneg sb) as Ls. pose proof (len_nonneg name) as Ln.
  pose proof (len_nonneg partial) as Lq.
  assert (Lr : len rest = 1 + len name + 4 + len partial).
  { unfold rest. rewrite !len_app, len_put_field, len_le_encode. lia. }
  destruct (sink_loop_framed_all sinks data pre rest
              (S (Z.to_nat count - length sinks - 1)) Hs E) as (tr1 & Ho1 & _ & E1).
  replace (length sinks + S (Z.to_nat count - length sinks - 1))%nat
    with (Z.to_nat count) in E1 by lia.
  rewrite Lp in E1. fold sb in E1.
  set (c1 := 36 + len sb + 1 + len name).
  assert (Hr : read_string data (36 + len sb)
               = ([Index (36 + len sb); Slice (36 + len sb + 1) c1],
                  inr (Some (lenient name), c1))).
  { replace (36 + len sb) with (len (pre ++ sb)) by (rewrite len_app, Lp; reflexivity).
    unfold c1. replace (36 + len sb) with (len (pre ++ sb))
      by (rewrite len_app, Lp; reflexivity).
    apply read_string_field with (post := le_encode 4 id ++ partial); [assumption|].
    rewrite E. unfold rest. rewrite <- !app_assoc. reflexivity. }
  rewrite (sink_loop_break_fixed data _ (36 + len sb) _ (lenient name) c1 Hr) in E1
    by (subst c1; lia).
  cbn [events outcome fst snd] in E1.
  assert (Hid4 : slice data c1 (c1 + 4) = le_encode 4 id).
  { apply (slice_eq data (pre ++ sb ++ put_field name) (le_encode 4 id) partial).
    - rewrite E. unfold rest. rewrite <- !app_assoc. reflexivity.
    - rewrite !len_app, Lp, len_put_field. subst c1. lia.
    - now rewrite len_le_encode. }
  destruct (app_loop_safe data (Z.to_nat (le_decode (slice data c1 (c1 + 4)))) (c1 + 4))
    as (tr2 & c2 & E2 & _ & Ho2 & _); [subst c1; lia|].
  exists (stdout tr2), c2. unfold parse_shared_memory.
  rewrite (parse_body_sinks utcoffset data
             (tr1 ++ [Index (36 + len sb); Slice (36 + len sb + 1) c1]) c1);
    [|lia|now rewrite Hhdr|rewrite Hcnt; exact E1].
  rewrite (app_section_present data c1 tr2 c2) by (subst c1; lia || exact E2).
  cbn [events outcome fst snd]. rewrite Hhdr, Hcnt, Hid4.
  rewrite le_decode_encode by assumption.
  split; [|split; [assumption|reflexivity]].
  repeat first [ rewrite stdout_app | rewrite stdout_prints
               | progress cbn [stdout header_reads List.app] ].
  rewrite Ho1, app_nil_r. reflexivity.
Qed.

Lemma cut_sink_id_shown_as_app_count_witness :
  exists (tail : list line) (c : Z),
    stdout (parse_shared_memory utc
              (Some (put_sink_section sample_header 2 [odd_sink]
                     ++ put_field [x41] ++ le_encode 4 77 ++ [x00; x00])))
    = header_lines utc sample_header
      ++ SinksHeader 2 :: map shown_sink [odd_sink]
      ++ Text "" :: AppsHeader 77 :: tail ++ [Text ""; TotalSize 56]
    /\ Forall (fun l => is_app_line l = true) tail
    /\ outcome (parse_body utc (put_sink_section sample_header 2 [odd_sink]
                                ++ put_field [x41] ++ le_encode 4 77 ++ [x00; x00]))
       = inr (Finished c).
Proof.
  apply (cut_sink_id_shown_as_app_count utc sample_header [odd_sink] 2 [x41] 77
           [x00; x00]).
  - unfold wf_header. simpl. lia.
  - repeat constructor; vm_compute; congruence.
  - simpl. lia.
  - vm_compute. reflexivity.
  - vm_compute. discriminate.
  - lia.
  - vm_compute. reflexivity.
Defined.

(* ================================================================== *)
(** * A cut inside the app records *)

Section AppCut.

Lemma prefix_split {A : Type} (partial missing front back : list A) (x : A) :
  partial ++ missing = front ++ x :: back ->
  (length front < length partial)%nat ->
  exists back', partial = front ++ x :: back'.
Proof.
  intros E Hl.
  exists (firstn (length partial - length front - 1) back).
  assert (H : firstn (length partial) (partial ++ missing) = partial).
  { rewrite firstn_app, Nat.sub_diag, firstn_all. cbn [firstn]. apply app_nil_r. }
  rewrite E in H. rewrite firstn_app, firstn_all2 in H by lia.
  replace (length partial - length front)%nat
    with (S (length partial - length front - 1)) in H by lia.
  cbn [firstn] in H. now symmetry.
Qed.

Lemma whole_apps_Forall (P : app_record -> Prop) (apps : list app_record) :
  Forall P apps -> forall room, Forall P (whole_apps room apps).
Proof.
  induction 1 as [|a rest Ha Hrest IH]; intros room; cbn [whole_apps].
  - constructor.
  - destruct (len (put_app_record a) <=? room); [|constructor].
    constructor; [assumption|apply IH].
Qed.

(** A cut inside the app records leaves the records that fit, whole, and
    then a proper beginning of the next one. *)
Lemma firstn_apps (apps : list app_record) : forall room : Z,
  0 <= room < len (flat_map put_app_record apps) ->
  exists (a : app_record) (partial missing : bytes),
    firstn (Z.to_nat room) (flat_map put_app_record apps)
    = flat_map put_app_record (whole_apps room apps) ++ partial
    /\ put_app_record a = partial ++ missing /\ missing <> [] /\ In a apps
    /\ (length (whole_apps room apps) < length apps)%nat.
Proof.
  induction apps as [|a rest IH]; intros room Hr.
  - cbn in Hr. lia.
  - cbn [flat_map whole_apps] in *. rewrite len_app in Hr.
    pose proof (len_nonneg (put_app_record a)) as Lp.
    destruct (Z.leb_spec (len (put_app_record a)) room) as [Hfit|Hcut].
    + destruct (IH (room - len (put_app_record a)))
        as (a' & p & m & E & Es & Hm & Hin & Hlen); [lia|].
      exists a', p, m. split; [|split; [|split; [|split]]]; auto.
      * rewrite firstn_app, firstn_all2 by (unfold len in Hfit; lia).
        cbn [flat_map]. rewrite <- app_assoc. f_equal.
        replace (Z.to_nat room - length (put_app_record a))%nat
          with (Z.to_nat (room - len (put_app_record a))) by (unfold len; lia).
        exact E.
      * now right.
      * cbn [length]. lia.
    + exists a, (firstn (Z.to_nat room) (put_app_record a)),
             (skipn (Z.to_nat room) (put_app_record a)).
      split; [|split; [|split; [|split]]].
      * rewrite firstn_app.
        replace (Z.to_nat room - length (put_app_record a))%nat with 0%nat
          by (unfold len in Hcut; lia).
        cbn [firstn flat_map List.app]. apply app_nil_r.
      * symmetry. apply firstn_skipn.
      * intros Hnil. apply (f_equal (@length byte)) in Hnil.
        rewrite length_skipn in Hnil. cbn [length] in Hnil.
        unfold len in Hcut. lia.
      * now left.
      * cbn [length]. lia.
Qed.

(** A turn of the app loop that meets a record cut short, in the name, in
    the sink name or before the flag, leaves the loop and prints nothing. *)
Lemma app_loop_cut (data pre partial missing : bytes) (a : app_record) (n : nat) :
  framed_app a ->
  data = pre ++ partial ->
  put_app_record a = partial ++ missing -> missing <> [] ->
  exists tr c,
    app_loop data (S n) (len pre) = (tr, inr c)
    /\ stdout tr = [] /\ len pre <= c <= len data.
Proof.
  intros (Hn & Hc) E Ep Hm.
  destruct a as [name cur flag]. cbn [ra_name ra_current_sink ra_flag] in *.
  pose proof (len_nonneg pre) as Lp. pose proof (len_nonneg name) as Ln.
  pose proof (len_nonneg cur) as Lc. pose proof (len_nonneg partial) as Lq.
  assert (Lm : 1 <= len missing).
  { destruct missing; [congruence|]. rewrite len_cons. pose proof (len_nonneg missing). lia. }
  assert (Ls : len partial + len missing = 1 + len name + (1 + len cur) + 1).
  { rewrite <- len_app, <- Ep. apply len_put_app_record. }
  assert (Ld : len data = len pre + len partial) by (rewrite E; apply len_app).
  unfold put_app_record, put_field in Ep. cbn [ra_name ra_current_sink ra_flag] in Ep.
  destruct (Z.le_gt_cases (len partial) 0) as [H0|H0].
  { exists [], (len pre). split; [|split; [reflexivity|lia]].
    apply app_loop_break_name. apply read_string_past. lia. }
  assert (Hb : byte_at data (len pre) = len name).
  { destruct (prefix_split partial missing [] (name ++ of_Z (len cur) :: cur ++ [flag])
                (of_Z (len name))) as (b' & Eb).
    - rewrite <- Ep. cbn [List.app]. reflexivity.
    - unfold len in H0. cbn [length]. lia.
    - rewrite (byte_at_eq data pre b' (of_Z (len name)));
        [apply to_Z_of_Z; lia|now rewrite E, Eb|reflexivity]. }
  destruct (Z.le_gt_cases (len pre + 1 + byte_at data (len pre)) (len data)) as [Hw|Hw].
  2:{ eexists _, _. split; [|split].
      - eapply app_loop_break_name. apply read_string_short; lia.
      - reflexivity.
      - lia. }
  set (c1 := len pre + 1 + len name).
  assert (Hr : read_string data (len pre)
               = ([Index (len pre); Slice (len pre + 1) c1],
                  inr (Some (lenient (slice data (len pre + 1) c1)), c1))).
  { rewrite read_string_whole by lia. rewrite Hb. reflexivity. }
  destruct (Z.le_gt_cases (len data) c1) as [H1|H1].
  { eexists _, _. split; [|split].
    - eapply app_loop_break_sink; [exact Hr|]. apply read_string_past. lia.
    - reflexivity.
    - subst c1. lia. }
  assert (Hb2 : byte_at data c1 = len cur).
  { destruct (prefix_split partial missing (of_Z (len name) :: name) (cur ++ [flag])
                (of_Z (len cur))) as (b' & Eb).
    - rewrite <- Ep. cbn [List.app]. reflexivity.
    - subst c1. unfold len in *. cbn [length]. lia.
    - rewrite (byte_at_eq data (pre ++ of_Z (len name) :: name) b' (of_Z (len cur))).
      + apply to_Z_of_Z. lia.
      + rewrite E, Eb, <- app_assoc. reflexivity.
      + rewrite len_app, len_cons. subst c1. lia. }
  destruct (Z.le_gt_cases (c1 + 1 + byte_at data c1) (len data)) as [Hw2|Hw2].
  - eexists _, _. split; [|split].
    + eapply app_loop_break_flag; [exact Hr| |].
      * apply read_string_whole; subst c1; lia.
      * subst c1. lia.
    + rewrite stdout_app. reflexivity.
    + subst c1. lia.
  - eexists _, _. split; [|split].
    + eapply app_loop_break_sink; [exact Hr|]. apply read_string_short; subst c1; lia.
    + rewrite stdout_app. reflexivity.
    + subst c1. lia.
Qed.

End AppCut.

Lemma len_firstn_Z (t : Z) (l : bytes) :
  0 <= t <= len l -> len (firstn (Z.to_nat t) l) = t.
Proof.
  intros H. rewrite len_firstn by (unfold len in H; lia). lia.
Qed.

(** X5.  A cut inside the app records.  A header whose timestamp [datetime]
    can hold, [N] framed sinks, the app count [M] and [M] framed apps, cut
    at any byte after the app count and before the end of the last app
    record.  The run shows every sink, then exactly the apps whose records
    lie whole before the cut, in order, and ends like a complete run, with a
    blank line and the length of the cut buffer: no line tells that apps
    are missing, and no exception is raised. *)
Theorem truncated_apps (utcoffset : Z -> Z) (h : header)
        (sinks : list sink_record) (apps : list app_record) (t : Z) :
  wf_header h -> Forall framed_sink sinks -> Forall framed_app apps ->
  Z.of_nat (length sinks) < 2 ^ 32 -> Z.of_nat (length apps) < 2 ^ 32 ->
  displayable utcoffset (timestamp_ms h) ->
  let sink_part := put_sink_section h (Z.of_nat (length sinks)) sinks in
  let full := sink_part ++ put_app_section (Z.of_nat (length apps)) apps in
  len sink_part + 4 <= t < len full ->
  let kept := whole_apps (t - (len sink_part + 4)) apps in
  stdout (parse_shared_memory utcoffset (Some (firstn (Z.to_nat t) full)))
  = header_lines utcoffset h
    ++ SinksHeader (Z.of_nat (length sinks)) :: map shown_sink sinks
    ++ Text "" :: AppsHeader (Z.of_nat (length apps)) :: map shown_app kept
    ++ [Text ""; TotalSize t]
  /\ exists c, outcome (parse_body utcoffset (firstn (Z.to_nat t) full))
               = inr (Finished c) /\ c <= t.
Proof.
  intros Hh Hs Ha Hn Hm Hd. cbv zeta.
  set (N := Z.of_nat (length sinks)). set (M := Z.of_nat (length apps)).
  set (sp := put_sink_section h N sinks). set (ab := flat_map put_app_record apps).
  intros Ht.
  assert (Lsp : len sp = 36 + len (flat_map put_sink_record sinks)).
  { unfold sp, put_sink_section.
    rewrite !len_app, len_le_encode, (len_put_header h Hh). lia. }
  pose proof (len_nonneg (flat_map put_sink_record sinks)) as Lsb.
  unfold put_app_section in *. fold ab in Ht |- *.
  rewrite !len_app, len_le_encode in Ht.
  set (room := t - (len sp + 4)).
  destruct (firstn_apps apps room) as (a & partial & missing & E & Ea & Hmiss & Hin & Hk);
    [fold ab; subst room; lia|].
  fold ab in E. set (kept := whole_apps room apps) in *.
  set (data := firstn (Z.to_nat t) (sp ++ le_encode 4 M ++ ab)).
  assert (Ed : data = sp ++ le_encode 4 M ++ flat_map put_app_record kept ++ partial).
  { unfold data. rewrite firstn_past by lia.
    rewrite firstn_past by (rewrite len_le_encode; lia). rewrite len_le_encode.
    replace (t - len sp - Z.of_nat 4) with room by (subst room; lia).
    now rewrite E. }
  assert (Lt : len data = t).
  { unfold data. apply len_firstn_Z. rewrite !len_app, len_le_encode. fold ab. lia. }
  clearbody data.
  destruct (parse_body_sink_section utcoffset h N sinks
              (le_encode 4 M ++ flat_map put_app_record kept ++ partial) Hh Hs)
    as (tr1 & Ho1 & E1); [subst N; lia|now left|assumption|].
  fold sp in E1. rewrite <- Ed in E1. rewrite <- Lsp in E1.
  assert (Hfa : framed_app a) by (rewrite Forall_forall in Ha; now apply Ha).
  destruct (app_loop_framed_all kept data (sp ++ le_encode 4 M) partial
              (S (length apps - length kept - 1))
              (whole_apps_Forall framed_app apps Ha room))
    as (tr2 & Ho2 & E2); [rewrite Ed, <- !app_assoc; reflexivity|].
  destruct (app_loop_cut data ((sp ++ le_encode 4 M) ++ flat_map put_app_record kept)
              partial missing a (length apps - length kept - 1) Hfa)
    as (tr3 & c & E3 & Ho3 & Hc);
    [rewrite Ed, <- !app_assoc; reflexivity|assumption|assumption|].
  rewrite len_app in E3, Hc. rewrite E3 in E2. cbn [events outcome fst snd] in E2.
  replace (length kept + S (length apps - length kept - 1))%nat with (Z.to_nat M)
    in E2 by (subst M; lia).
  rewrite len_app, len_le_encode in E2. change (Z.of_nat 4) with 4 in E2.
  assert (Hcnt : le_decode (slice data (len sp) (len sp + 4)) = M).
  { rewrite (slice_eq data sp (le_encode 4 M) (flat_map put_app_record kept ++ partial)).
    - apply le_decode_encode. subst M. lia.
    - exact Ed.
    - reflexivity.
    - now rewrite len_le_encode. }
  rewrite (app_section_present data (len sp) (tr2 ++ tr3) c) in E1;
    [|lia|lia|rewrite Hcnt; exact E2].
  cbn [events outcome fst snd] in E1. rewrite Hcnt, Lt in E1.
  unfold parse_shared_memory. rewrite E1. split.
  - repeat first [ rewrite stdout_app | rewrite stdout_prints
                 | progress cbn [stdout header_reads List.app] ].
    rewrite Ho1, Ho2, Ho3, app_nil_r. reflexivity.
  - exists c. split; [reflexivity|]. lia.
Qed.

Lemma truncated_apps_witness :
  stdout (parse_shared_memory utc
            (Some (firstn 60 (put_sink_section sample_header 1 [odd_sink]
                              ++ put_app_section 2 [odd_app; odd_app]))))
  = header_lines utc sample_header
    ++ [ SinksHeader 1; SinkLine [40] 7 (F32 0x3F400000) false; Text "";
         AppsHeader 2; AppLine [65] [66] true; Text ""; TotalSize 60 ].
Proof.
  destruct (truncated_apps utc sample_header [odd_sink] [odd_app; odd_app] 60) as [H _].
  - unfold wf_header. simpl. lia.
  - repeat constructor; vm_compute; congruence.
  - repeat constructor; vm_compute; congruence.
  - simpl. lia.
  - simpl. lia.
  - vm_compute. reflexivity.
  - vm_compute. split; [discriminate|reflexivity].
  - exact H.
Defined.

(* ================================================================== *)
(** * What a decoded name can be *)

Section LenientFacts.

Local Ltac shifts :=
  rewrite !Z.shiftl_mul_pow2 by lia;
  change (2 ^ 6) with 64; change (2 ^ 12) with 4096; change (2 ^ 18) with 262144.

(** The code points the [ignore] handler returns are scalar values, at most
    one for each byte. *)
Lemma lenient_aux (n : nat) : forall s : bytes,
  (length s <= n)%nat ->
  Forall scalar (lenient s) /\ (length (lenient s) <= length s)%nat.
Proof.
  unfold lenient.
  induction n as [|n IH]; intros s Hn.
  { destruct s; [split; [constructor|reflexivity]|simpl in Hn; lia]. }
  destruct s as [|b1 s1]; [split; [constructor|reflexivity]|].
  cbn [length] in Hn. cbn [scan]; cbv zeta. unfold is_continuation.
  pose proof (to_Z_range b1) as R1.
  assert (Hdrop : forall s' : bytes, (length s' <= n)%nat ->
            (length s' <= length (b1 :: s1))%nat ->
            Forall scalar (resolve [] (scan s'))
            /\ (length (resolve [] (scan s')) <= length (b1 :: s1))%nat).
  { intros s' H1 H2. destruct (IH s' H1). split; [assumption|lia]. }
  assert (Hkeep : forall (cp : Z) (s' : bytes), scalar cp -> (length s' <= n)%nat ->
            (S (length s') <= length (b1 :: s1))%nat ->
            Forall scalar (cp :: resolve [] (scan s'))
            /\ (length (cp :: resolve [] (scan s')) <= length (b1 :: s1))%nat).
  { intros cp s' Hcp H1 H2. destruct (IH s' H1). split; [now constructor|].
    cbn [length] in *. lia. }
  assert (Hend : Forall scalar (@nil Z) /\ (length (@nil Z) <= length (b1 :: s1))%nat).
  { split; [constructor|cbn [length]; lia]. }
  destruct (Z.ltb_spec (to_Z b1) 0x80).
  { cbn [resolve]. apply Hkeep; [unfold scalar; lia|lia|cbn [length]; lia]. }
  destruct (Z.ltb_spec (to_Z b1) 0xC2).
  { cbn [resolve List.app]. apply Hdrop; cbn [length]; lia. }
  destruct (Z.ltb_spec (to_Z b1) 0xE0).
  { destruct s1 as [|b2 s2]; [exact Hend|].
    cbn [length] in Hn. pose proof (to_Z_range b2).
    destruct (Z.leb_spec 0x80 (to_Z b2)); destruct (Z.ltb_spec (to_Z b2) 0xC0);
      cbn [negb andb orb resolve List.app];
      try (apply Hdrop; cbn [length]; lia).
    apply Hkeep; [unfold scalar; shifts; lia|lia|cbn [length]; lia]. }
  destruct (Z.ltb_spec (to_Z b1) 0xF0).
  { destruct s1 as [|b2 s2]; [exact Hend|].
    cbn [length] in Hn. pose proof (to_Z_range b2).
    destruct (Z.leb_spec 0x80 (to_Z b2)); destruct (Z.ltb_spec (to_Z b2) 0xC0);
      destruct (Z.ltb_spec (to_Z b2) 0xA0);
      destruct (Z.eqb_spec (to_Z b1) 0xE0); destruct (Z.eqb_spec (to_Z b1) 0xED);
      cbn [negb andb orb resolve List.app];
      try lia; try (apply Hdrop; cbn [length]; lia).
    all: destruct s2 as [|b3 s3]; [exact Hend|]; cbn [length] in Hn;
      pose proof (to_Z_range b3);
      destruct (Z.leb_spec 0x80 (to_Z b3)); destruct (Z.ltb_spec (to_Z b3) 0xC0);
      cbn [negb andb orb resolve List.app];
      try (apply Hdrop; cbn [length]; lia);
      (apply Hkeep; [unfold scalar; shifts; lia|lia|cbn [length]; lia]). }
  destruct (Z.ltb_spec (to_Z b1) 0xF5).
  { destruct s1 as [|b2 s2]; [exact Hend|].
    cbn [length] in Hn. pose proof (to_Z_range b2).
    destruct (Z.leb_spec 0x80 (to_Z b2)); destruct (Z.ltb_spec (to_Z b2) 0xC0);
      destruct (Z.ltb_spec (to_Z b2) 0x90);
      destruct (Z.eqb_spec (to_Z b1) 0xF0); destruct (Z.eqb_spec (to_Z b1) 0xF4);
      cbn [negb andb orb resolve List.app];
      try lia; try (apply Hdrop; cbn [length]; lia).
    all: destruct s2 as [|b3 s3]; [exact Hend|]; cbn [length] in Hn;
      pose proof (to_Z_range b3);
      destruct (Z.leb_spec 0x80 (to_Z b3)); destruct (Z.ltb_spec (to_Z b3) 0xC0);
      cbn [negb andb orb resolve List.app];
      try (apply Hdrop; cbn [length]; lia);
      (destruct s3 as [|b4 s4]; [exact Hend|]); cbn [length] in Hn;
      pose proof (to_Z_range b4);
      destruct (Z.leb_spec 0x80 (to_Z b4)); destruct (Z.ltb_spec (to_Z b4) 0xC0);
      cbn [negb andb orb resolve List.app];
      try (apply Hdrop; cbn [length]; lia);
      (apply Hkeep; [unfold scalar; shifts; lia|lia|cbn [length]; lia]). }
  cbn [resolve List.app]. apply Hdrop; cbn [length]; lia.
Qed.

Lemma lenient_in_range (payload : bytes) :
  len payload <= 255 -> name_in_range (lenient payload).
Proof.
  intros H. destruct (lenient_aux (length payload) payload (le_n _)) as [Hs Hl].
  split; [|assumption]. unfold len in H. lia.
Qed.

End LenientFacts.

(* ================================================================== *)
(** * What every run keeps *)

Section Invariants.

Lemma forward_weaken (t : list event) : forall p q : Z,
  p <= q -> forward q t -> forward p t.
Proof.
  induction t as [|ev t IH]; intros p q Hpq H; [exact I|].
  destruct ev; cbn [forward] in *.
  - eapply IH; eassumption.
  - split; [lia|tauto].
  - split; [lia|tauto].
Qed.

Lemma reach_mono (t : list event) : forall p q : Z, p <= q -> reach p t <= reach q t.
Proof.
  induction t as [|ev t IH]; intros p q Hpq; [exact Hpq|].
  destruct ev; cbn [reach]; [now apply IH|lia|lia].
Qed.

Lemma forward_seq (a b : list event) (p q r : Z) :
  forward p a -> reach p a <= q -> forward q b -> reach q b <= r ->
  forward p (a ++ b) /\ reach p (a ++ b) <= r.
Proof.
  revert p. induction a as [|ev a IH]; intros p Ha Hq Hb Hr.
  - cbn [List.app reach] in *. split; [now apply (forward_weaken b p q)|].
    pose proof (reach_mono b p q Hq). lia.
  - destruct ev; cbn [List.app forward reach] in *.
    + now apply IH.
    + destruct Ha as [H1 H2]. destruct (IH (i + 1)) as [H3 H4]; auto.
    + destruct Ha as [H1 H2]. destruct (IH hi) as [H3 H4]; auto.
Qed.

(** No read of a trace that goes forward from [p] is below [p]. *)
Lemma forward_above (t : list event) : forall p k : Z,
  k < p -> forward p t -> Forall (fun ev => ~ reads_byte k ev) t.
Proof.
  induction t as [|ev t IH]; intros p k Hk H; [constructor|].
  destruct ev; cbn [forward] in H.
  - constructor; [intros []|]. now apply (IH p).
  - destruct H as [H1 H2]. constructor; [cbn; lia|]. apply (IH (i + 1)); [lia|assumption].
  - destruct H as [H1 H2]. constructor; [cbn; lia|]. apply (IH hi); [lia|assumption].
Qed.

Variable data : bytes.

(** The string helper from a cursor inside the buffer. *)
Lemma read_string_facts (c : Z) :
  0 <= c <= len data ->
  exists tr r c1,
    read_string data c = (tr, inr (r, c1))
    /\ stdout tr = [] /\ forward c tr /\ reach c tr <= c1 /\ c <= c1 <= len data
    /\ match r with
       | Some s => c + 1 <= c1 /\ name_in_range s
       | None => True
       end.
Proof.
  intros H.
  destruct (Z.le_gt_cases (len data) c) as [Hc|Hc].
  { exists [], None, c. rewrite read_string_past by assumption.
    cbn [stdout forward reach]. repeat split; auto; lia. }
  pose proof (byte_at_range data c) as Hb.
  destruct (Z.le_gt_cases (c + 1 + byte_at data c) (len data)) as [Hl|Hl].
  - eexists _, _, _. rewrite read_string_whole by lia.
    split; [reflexivity|]. cbn [stdout forward reach].
    split; [reflexivity|]. split; [lia|]. split; [lia|]. split; [lia|].
    split; [lia|]. apply lenient_in_range. rewrite len_slice by lia. lia.
  - eexists _, _, _. rewrite read_string_short by lia.
    split; [reflexivity|]. cbn [stdout forward reach].
    split; [reflexivity|]. split; [lia|]. split; [lia|]. split; [lia|]. exact I.
Qed.

Lemma field4_in_range (lo : Z) :
  0 <= lo -> lo + 4 <= len data -> 0 <= le_decode (slice data lo (lo + 4)) < 2 ^ 32.
Proof.
  intros H1 H2. pose proof (le_decode_range (slice data lo (lo + 4))) as R.
  rewrite len_slice in R by lia. replace (lo + 4 - lo) with 4 in R by lia.
  exact R.
Qed.

(** The sink loop from a cursor inside the buffer, for any count. *)
Lemma sink_loop_invariants (n : nat) : forall c : Z,
  0 <= c <= len data ->
  exists tr c',
    sink_loop data n c = (tr, inr c')
    /\ Forall (fun l => is_sink_line l = true /\ line_in_range l) (stdout tr)
    /\ (length (stdout tr) <= n)%nat
    /\ c + 10 * Z.of_nat (length (stdout tr)) <= c' <= len data
    /\ forward c tr /\ reach c tr <= c'.
Proof.
  induction n as [|n IH]; intros c Hc.
  { exists [], c. cbn. repeat split; auto; lia. }
  destruct (read_string_facts c Hc) as (tr & r & c1 & Hr & Ho & Hf & Hre & Hc1 & Hs).
  destruct r as [name|].
  2:{ rewrite (sink_loop_break_name data n c tr c1 Hr).
      exists tr, c1. rewrite Ho. cbn [length]. repeat split; auto; lia. }
  destruct Hs as [Hadv Hname].
  destruct (Z.le_gt_cases (c1 + 9) (len data)) as [Hl|Hl].
  2:{ rewrite (sink_loop_break_fixed data n c tr name c1 Hr) by lia.
      exists tr, c1. rewrite Ho. cbn [length]. repeat split; auto; lia. }
  rewrite (sink_loop_step data n c tr name c1 Hr) by lia.
  destruct (IH (c1 + 4 + 4 + 1)) as (tr' & c' & E & Hl' & Hn' & Hc' & Hf' & Hr'); [lia|].
  rewrite E. cbn [events outcome fst snd].
  set (shown := SinkLine name (le_decode (slice data c1 (c1 + 4)))
                         (F32 (widen (le_decode (slice data (c1 + 4) (c1 + 4 + 4)))))
                         (byte_at data (c1 + 4 + 4) =? 1)).
  set (mid := [Slice c1 (c1 + 4); Slice (c1 + 4) (c1 + 4 + 4); Index (c1 + 4 + 4);
               Print shown]).
  assert (Hom : stdout mid = [shown]) by reflexivity.
  assert (Hfm : forward c1 mid) by (cbn [mid forward]; repeat split; lia).
  assert (Hrm : reach c1 mid <= c1 + 4 + 4 + 1) by (cbn [mid reach]; lia).
  destruct (forward_seq mid tr' c1 (c1 + 4 + 4 + 1) c' Hfm Hrm Hf' Hr') as [Hf2 Hr2].
  destruct (forward_seq tr (mid ++ tr') c c1 c' Hf Hre Hf2 Hr2) as [Hf3 Hr3].
  exists (tr ++ mid ++ tr'), c'. split; [reflexivity|].
  rewrite !stdout_app, Ho, Hom. cbn [List.app length].
  split; [|split; [|split; [|split]]]; try assumption; try lia.
  constructor; [|assumption]. split; [reflexivity|].
  unfold shown. cbn [line_in_range float32_bits]. split; [assumption|].
  split; [apply field4_in_range; lia|].
  apply widen_range.
  replace (c1 + 4 + 4) with ((c1 + 4) + 4) by lia. apply field4_in_range; lia.
Qed.

(** The app loop from a cursor inside the buffer, for any count. *)
Lemma app_loop_invariants (n : nat) : forall c : Z,
  0 <= c <= len data ->
  exists tr c',
    app_loop data n c = (tr, inr c')
    /\ Forall (fun l => is_app_line l = true /\ line_in_range l) (stdout tr)
    /\ (length (stdout tr) <= n)%nat
    /\ c + 3 * Z.of_nat (length (stdout tr)) <= c' <= len data
    /\ forward c tr /\ reach c tr <= c'.
Proof.
  induction n as [|n IH]; intros c Hc.
  { exists [], c. cbn. repeat split; auto; lia. }
  destruct (read_string_facts c Hc) as (tr & r & c1 & Hr & Ho & Hf & Hre & Hc1 & Hs).
  destruct r as [name|].
  2:{ rewrite (app_loop_break_name data n c tr c1 Hr).
      exists tr, c1. rewrite Ho. cbn [length]. repeat split; auto; lia. }
  destruct Hs as [Hadv Hname].
  destruct (read_string_facts c1) as (tr2 & r2 & c2 & Hr2 & Ho2 & Hf2 & Hre2 & Hc2 & Hs2);
    [lia|].
  destruct (forward_seq tr tr2 c c1 c2 Hf Hre Hf2 Hre2) as [Hf12 Hre12].
  destruct r2 as [current|].
  2:{ rewrite (app_loop_break_sink data n c tr name c1 tr2 c2 Hr Hr2).
      exists (tr ++ tr2), c2. rewrite stdout_app, Ho, Ho2. cbn [length List.app].
      repeat split; auto; lia. }
  destruct Hs2 as [Hadv2 Hcur].
  destruct (Z.le_gt_cases (len data) c2) as [Hl|Hl].
  { rewrite (app_loop_break_flag data n c tr name c1 tr2 current c2 Hr Hr2 Hl).
    exists (tr ++ tr2), c2. rewrite stdout_app, Ho, Ho2. cbn [length List.app].
    repeat split; auto; lia. }
  rewrite (app_loop_step data n c tr name c1 tr2 current c2 Hr Hr2) by lia.
  destruct (IH (c2 + 1)) as (tr' & c' & E & Hl' & Hn' & Hc' & Hf' & Hr'); [lia|].
  rewrite E. cbn [events outcome fst snd].
  set (shown := AppLine name current (byte_at data c2 =? 1)).
  set (mid := [Index c2; Print shown]).
  assert (Hom : stdout mid = [shown]) by reflexivity.
  assert (Hfm : forward c2 mid) by (cbn [mid forward]; repeat split; lia).
  assert (Hrm : reach c2 mid <= c2 + 1) by (cbn [mid reach]; lia).
  destruct (forward_seq mid tr' c2 (c2 + 1) c' Hfm Hrm Hf' Hr') as [Hf3 Hr3].
  destruct (forward_seq (tr ++ tr2) (mid ++ tr') c c2 c' Hf12 Hre12 Hf3 Hr3) as [Hf4 Hr4].
  exists (tr ++ tr2 ++ mid ++ tr'), c'. split; [reflexivity|].
  rewrite !stdout_app, Ho, Ho2, Hom. cbn [List.app length].
  rewrite <- app_assoc in Hf4, Hr4.
  split; [|split; [|split; [|split]]]; try assumption; try lia.
  constructor; [|assumption]. split; [reflexivity|].
  unfold shown. cbn [line_in_range]. split; assumption.
Qed.

End Invariants.

Section Runs.

Variable utcoffset : Z -> Z.
Variable data : bytes.

(** The five ways a run on a buffer goes, with what the loops keep. *)
Lemma run_structure :
  let run := parse_shared_memory utcoffset (Some data) in
  let hl := header_lines utcoffset (header_of data) in
  let n := le_decode (slice data 32 36) in
  (len data < 32 /\ run = [Print (Text "File too small to contain valid data")])
  \/ (32 <= len data
      /\ run = header_reads
               ++ map Print (opening_lines (header_of data) ++ [ErrorParsing TimestampError]))
  \/ (32 <= len data < 36
      /\ run = header_reads ++ map Print hl ++ [Print (Text "No sink data found")])
  \/ (36 <= len data
      /\ exists tr c,
          Forall (fun l => is_sink_line l = true /\ line_in_range l) (stdout tr)
          /\ Z.of_nat (length (stdout tr)) <= n
          /\ 36 + 10 * Z.of_nat (length (stdout tr)) <= c <= len data
          /\ forward 36 tr /\ reach 36 tr <= c
          /\ ((len data < c + 4
               /\ run = header_reads ++ map Print hl
                        ++ Slice 32 36 :: Print (SinksHeader n)
                        :: tr ++ [Print (Text ""); Print (Text "No app data found")])
              \/ (c + 4 <= len data
                  /\ exists tr2 c2,
                      Forall (fun l => is_app_line l = true /\ line_in_range l) (stdout tr2)
                      /\ Z.of_nat (length (stdout tr2)) <= le_decode (slice data c (c + 4))
                      /\ c + 4 + 3 * Z.of_nat (length (stdout tr2)) <= c2 <= len data
                      /\ forward (c + 4) tr2
                      /\ run = header_reads ++ map Print hl
                               ++ Slice 32 36 :: Print (SinksHeader n)
                               :: tr ++ Print (Text "") :: Slice c (c + 4)
                               :: Print (AppsHeader (le_decode (slice data c (c + 4))))
                               :: tr2 ++ [Print (Text ""); Print (TotalSize (len data))]))).
Proof.
  cbv zeta.
  destruct (Z.lt_ge_cases (len data) 32) as [Hs|Hs].
  { left. split; [assumption|]. unfold parse_shared_memory.
    now rewrite parse_body_too_small. }
  right.
  destruct (displayable_dec utcoffset (timestamp_ms (header_of data))) as [Hd|Hd].
  2:{ left. split; [assumption|]. now apply undisplayable_report. }
  right.
  destruct (Z.lt_ge_cases (len data) 36) as [Hc|Hc].
  { left. split; [lia|]. unfold parse_shared_memory.
    rewrite parse_body_no_sink by (assumption || lia). reflexivity. }
  right. split; [assumption|].
  destruct (sink_loop_invariants data (Z.to_nat (le_decode (slice data 32 36))) 36)
    as (tr & c & E & Hl & Hn & Hcc & Hf & Hr); [lia|].
  exists tr, c.
  assert (R32 : 0 <= le_decode (slice data 32 36) < 2 ^ 32)
    by (apply (field4_in_range data 32); lia).
  split; [assumption|]. split; [lia|].
  split; [assumption|]. split; [assumption|]. split; [assumption|].
  unfold parse_shared_memory.
  rewrite (parse_body_sinks utcoffset data tr c) by assumption.
  destruct (Z.le_gt_cases (c + 4) (len data)) as [Hl4|Hl4].
  - right. split; [assumption|].
    destruct (app_loop_invariants data (Z.to_nat (le_decode (slice data c (c + 4)))) (c + 4))
      as (tr2 & c2 & E2 & Hl2 & Hn2 & Hc2 & Hf2 & _); [lia|].
    exists tr2, c2.
    assert (Rc : 0 <= le_decode (slice data c (c + 4)) < 2 ^ 32)
      by (apply field4_in_range; lia).
    split; [assumption|]. split; [lia|]. split; [assumption|]. split; [assumption|].
    rewrite (app_section_present data c tr2 c2) by (assumption || lia).
    reflexivity.
  - left. split; [assumption|]. rewrite app_section_absent by lia. reflexivity.
Qed.

Lemma forward_prints (ls : list line) (t : list event) (p : Z) :
  forward p t -> forward p (map Print ls ++ t).
Proof. intros H. induction ls as [|l ls IH]; [exact H|exact IH]. Qed.

Lemma no_read_in_prints (k : Z) (ls : list line) :
  Forall (fun ev => ~ reads_byte k ev) (map Print ls).
Proof. induction ls; constructor; [intros []|assumption]. Qed.

Lemma header_lines_in_range :
  32 <= len data -> Forall line_in_range (header_lines utcoffset (header_of data)).
Proof.
  intros H. unfold header_lines, header_of.
  cbn [version generation timestamp_ms].
  pose proof (le_decode_range (slice data 0 4)) as R1.
  pose proof (le_decode_range (slice data 4 12)) as R2.
  rewrite len_slice in R1, R2 by lia.
  repeat apply Forall_cons; try apply Forall_nil; cbn [line_in_range]; try exact I.
  - exact R1.
  - exact R2.
Qed.

End Runs.

(** X6.  Whatever the buffer holds, what a run prints has one of five
    shapes: the one line of a buffer under 32 bytes; the banner, rule,
    version and generation and then the error line, when the timestamp does
    not convert; the header and "No sink data found"; the header, the sinks
    header, sink lines, a blank line and "No app data found"; or the
    header, both sections and the total size.  There are never more sink
    lines than the sinks header announces nor more app lines than the apps
    header announces, and every sink line stands for at least 10 bytes of
    the buffer and every app line for at least 3. *)
Theorem run_shapes (utcoffset : Z -> Z) (data : bytes) :
  let out := stdout (parse_shared_memory utcoffset (Some data)) in
  let hl := header_lines utcoffset (header_of data) in
  (len data < 32 /\ out = [Text "File too small to contain valid data"])
  \/ (32 <= len data
      /\ out = opening_lines (header_of data) ++ [ErrorParsing TimestampError])
  \/ (32 <= len data < 36 /\ out = hl ++ [Text "No sink data found"])
  \/ (exists (n : Z) (sinks : list line),
        Forall (fun l => is_sink_line l = true) sinks
        /\ Z.of_nat (length sinks) <= n
        /\ 36 + 10 * Z.of_nat (length sinks) <= len data
        /\ (out = hl ++ SinksHeader n :: sinks ++ [Text ""; Text "No app data found"]
            \/ exists (m : Z) (apps : list line),
                Forall (fun l => is_app_line l = true) apps
                /\ Z.of_nat (length apps) <= m
                /\ 40 + 10 * Z.of_nat (length sinks) + 3 * Z.of_nat (length apps)
                   <= len data
                /\ out = hl ++ SinksHeader n :: sinks
                         ++ Text "" :: AppsHeader m :: apps
                         ++ [Text ""; TotalSize (len data)])).
Proof.
  cbv zeta.
  destruct (run_structure utcoffset data)
    as [[Hl ->]|[[Hl ->]|[[Hl ->]|(Hl & tr & c & Hs & Hn & Hc & _ & _ & Hrest)]]].
  - left. split; [assumption|reflexivity].
  - right. left. split; [assumption|].
    now rewrite stdout_app, stdout_prints.
  - right. right. left. split; [assumption|].
    now rewrite !stdout_app, stdout_prints.
  - right. right. right.
    exists (le_decode (slice data 32 36)), (stdout tr).
    split; [eapply Forall_impl; [|exact Hs]; now intros l [? _]|].
    split; [assumption|]. split; [lia|].
    destruct Hrest as [[Hl4 ->]|(Hl4 & tr2 & c2 & Ha & Hm & Hc2 & _ & ->)].
    + left.
      repeat first [ rewrite stdout_app | rewrite stdout_prints
                   | progress cbn [stdout header_reads List.app] ].
      reflexivity.
    + right. exists (le_decode (slice data c (c + 4))), (stdout tr2).
      split; [eapply Forall_impl; [|exact Ha]; now intros l [? _]|].
      split; [assumption|]. split; [lia|].
      repeat first [ rewrite stdout_app | rewrite stdout_prints
                   | progress cbn [stdout header_reads List.app] ].
      reflexivity.
Qed.

(** X7.  The scan only goes forward.  In every run each read of the buffer
    starts at or after the end of the read before it, so no byte is read
    twice and the cursor never steps back; and the reserved bytes 20 to 31
    of the header are never read. *)
Theorem reads_go_forward (utcoffset : Z -> Z) (data : bytes) :
  forward 0 (parse_shared_memory utcoffset (Some data))
  /\ forall k : Z, 20 <= k < 32 ->
       Forall (fun ev => ~ reads_byte k ev) (parse_shared_memory utcoffset (Some data)).
Proof.
  assert (Hh : forall t : list event, forward 32 t ->
            forward 0 (header_reads ++ t)
            /\ forall k : Z, 20 <= k < 32 ->
                 Forall (fun ev => ~ reads_byte k ev) (header_reads ++ t)).
  { intros t Ht. split.
    - cbn [header_reads List.app forward].
      repeat split; try lia. now apply (forward_weaken t 20 32).
    - intros k Hk. apply Forall_app. split.
      + unfold header_reads. repeat constructor; cbn; lia.
      + apply (forward_above t 32 k); [lia|assumption]. }
  destruct (run_structure utcoffset data)
    as [[Hl ->]|[[Hl ->]|[[Hl ->]|(Hl & tr & c & _ & _ & Hc & Hf & Hr & Hrest)]]].
  - split; [exact I|]. intros k Hk. repeat constructor. intros [].
  - apply Hh. rewrite <- (app_nil_r (map Print _)). now apply forward_prints.
  - apply Hh. now apply forward_prints.
  - assert (Htail : forall t : list event, forward c t ->
              forward 32 (map Print (header_lines utcoffset (header_of data))
                          ++ Slice 32 36 :: Print (SinksHeader (le_decode (slice data 32 36)))
                          :: tr ++ t)).
    { intros t Ht. apply forward_prints. cbn [forward]. split; [lia|].
      destruct (forward_seq tr t 36 c (reach c t) Hf Hr Ht) as [H _]; [lia|exact H]. }
    destruct Hrest as [[Hl4 ->]|(Hl4 & tr2 & c2 & _ & _ & Hc2 & Hf2 & ->)].
    + apply Hh, Htail. exact I.
    + apply Hh, Htail. cbn [forward]. split; [lia|].
      destruct (forward_seq tr2 [Print (Text ""); Print (TotalSize (len data))]
                  (c + 4) (reach (c + 4) tr2) (reach (c + 4) tr2) Hf2) as [H _];
        [lia|exact I|cbn [reach]; lia|exact H].
Qed.

(** X8.  Every value a run shows fits the field it was read from, whatever
    the buffer holds: the version, both counts, every sink id and every
    volume pattern are below 2^32, the generation is below 2^64, and every
    name has at most 255 code points, none of them a surrogate or above
    U+10FFFF. *)
Theorem shown_values_in_range (utcoffset : Z -> Z) (data : bytes) :
  Forall line_in_range (stdout (parse_shared_memory utcoffset (Some data))).
Proof.
  assert (R4 : forall lo, 0 <= lo -> lo + 4 <= len data ->
            0 <= le_decode (slice data lo (lo + 4)) < 2 ^ 32)
    by (intros; now apply field4_in_range).
  destruct (run_structure utcoffset data)
    as [[Hl ->]|[[Hl ->]|[[Hl ->]|(Hl & tr & c & Hs & _ & Hc & _ & _ & Hrest)]]].
  - repeat constructor.
  - repeat first [ rewrite stdout_app | rewrite stdout_prints
                 | progress cbn [stdout header_reads List.app] ].
    pose proof (header_lines_in_range utcoffset data Hl) as H.
    unfold header_lines in H. unfold opening_lines.
    inversion H as [|? ? H1 H']; subst. inversion H' as [|? ? H2 H'']; subst.
    inversion H'' as [|? ? H3 H3']; subst. inversion H3' as [|? ? H4 H4']; subst.
    repeat apply Forall_cons; try apply Forall_nil; try assumption; exact I.
  - repeat first [ rewrite stdout_app | rewrite stdout_prints
                 | progress cbn [stdout header_reads List.app] ].
    apply Forall_app. split.
    + apply header_lines_in_range. lia.
    + repeat constructor.
  - assert (Hsl : Forall line_in_range (stdout tr))
      by (eapply Forall_impl; [|exact Hs]; now intros l [_ ?]).
    assert (Hn : line_in_range (SinksHeader (le_decode (slice data 32 36))))
      by (cbn [line_in_range]; apply (R4 32); lia).
    destruct Hrest as [[Hl4 ->]|(Hl4 & tr2 & c2 & Ha & _ & Hc2 & _ & ->)];
      repeat first [ rewrite stdout_app | rewrite stdout_prints
                   | progress cbn [stdout header_reads List.app] ].
    + apply Forall_app. split; [apply header_lines_in_range; lia|].
      constructor; [assumption|]. apply Forall_app. split; [assumption|].
      repeat constructor.
    + apply Forall_app. split; [apply header_lines_in_range; lia|].
      constructor; [assumption|]. apply Forall_app. split; [assumption|].
      constructor; [exact I|]. constructor; [cbn [line_in_range]; apply R4; lia|].
      apply Forall_app. split.
      * eapply Forall_impl; [|exact Ha]. now intros l [_ ?].
      * constructor; [exact I|]. constructor; [|constructor].
        cbn [line_in_range]. apply len_nonneg.
Qed.

(* ================================================================== *)
(** * Names that are UTF-8 *)

Section ValidNames.

Lemma resolve_decodable (subst : str) (cs : list chunk) :
  all_decodable cs = true -> resolve subst cs = resolve [] cs.
Proof.
  induction cs as [|[cp|k] cs IH]; intros H; cbn [resolve].
  - reflexivity.
  - f_equal. apply IH. exact H.
  - discriminate H.
Qed.

(** A buffer that is UTF-8 all through is the encoding of what it decodes
    to. *)
Lemma encode_decoded_aux (n : nat) : forall s : bytes,
  (length s <= n)%nat ->
  all_decodable (scan s) = true -> encode (resolve [] (scan s)) = s.
Proof.
  induction n as [|n IH]; intros s Hn.
  { destruct s; [reflexivity|simpl in Hn; lia]. }
  destruct s as [|b1 s1]; [reflexivity|].
  cbn [length] in Hn. cbn [scan]; cbv zeta. unfold is_continuation.
  pose proof (to_Z_range b1) as R1.
  assert (Hgood : forall (cp : Z) (s' front : bytes),
            encode_char cp = front -> (length s' <= n)%nat ->
            all_decodable (Char cp :: scan s') = true ->
            encode (resolve [] (Char cp :: scan s')) = front ++ s').
  { intros cp s' front Hf Hl Hd. cbn [resolve]. rewrite encode_cons, Hf.
    f_equal. apply IH; assumption. }
  destruct (Z.ltb_spec (to_Z b1) 0x80).
  { apply (Hgood _ s1 [b1]); [now apply encode_char_1|lia]. }
  destruct (Z.ltb_spec (to_Z b1) 0xC2); [discriminate|].
  destruct (Z.ltb_spec (to_Z b1) 0xE0).
  { destruct s1 as [|b2 s2]; [discriminate|].
    cbn [length] in Hn.
    destruct (Z.leb_spec 0x80 (to_Z b2)); destruct (Z.ltb_spec (to_Z b2) 0xC0);
      cbn [negb andb orb]; try discriminate.
    apply (Hgood _ s2 [b1; b2]); [apply encode_char_2; lia|lia]. }
  destruct (Z.ltb_spec (to_Z b1) 0xF0).
  { destruct s1 as [|b2 s2]; [discriminate|].
    cbn [length] in Hn.
    destruct (Z.leb_spec 0x80 (to_Z b2)); destruct (Z.ltb_spec (to_Z b2) 0xC0);
      destruct (Z.ltb_spec (to_Z b2) 0xA0);
      destruct (Z.eqb_spec (to_Z b1) 0xE0); destruct (Z.eqb_spec (to_Z b1) 0xED);
      cbn [negb andb orb]; try lia; try discriminate.
    all: destruct s2 as [|b3 s3]; [discriminate|]; cbn [length] in Hn;
      destruct (Z.leb_spec 0x80 (to_Z b3)); destruct (Z.ltb_spec (to_Z b3) 0xC0);
      cbn [negb andb orb]; try discriminate;
      (apply (Hgood _ s3 [b1; b2; b3]); [apply encode_char_3; lia|lia]). }
  destruct (Z.ltb_spec (to_Z b1) 0xF5); [|discriminate].
  destruct s1 as [|b2 s2]; [discriminate|].
  cbn [length] in Hn.
  destruct (Z.leb_spec 0x80 (to_Z b2)); destruct (Z.ltb_spec (to_Z b2) 0xC0);
    destruct (Z.ltb_spec (to_Z b2) 0x90);
    destruct (Z.eqb_spec (to_Z b1) 0xF0); destruct (Z.eqb_spec (to_Z b1) 0xF4);
    cbn [negb andb orb]; try lia; try discriminate.
  all: destruct s2 as [|b3 s3]; [discriminate|]; cbn [length] in Hn;
    destruct (Z.leb_spec 0x80 (to_Z b3)); destruct (Z.ltb_spec (to_Z b3) 0xC0);
    cbn [negb andb orb]; try discriminate;
    (destruct s3 as [|b4 s4]; [discriminate|]); cbn [length] in Hn;
    destruct (Z.leb_spec 0x80 (to_Z b4)); destruct (Z.ltb_spec (to_Z b4) 0xC0);
    cbn [negb andb orb]; try discriminate;
    (apply (Hgood _ s4 [b1; b2; b3; b4]); [apply encode_char_4; lia|lia]).
Qed.

End ValidNames.

(** X9.  A name whose bytes are UTF-8 is read exactly.  When the payload of
    a string field decodes under the [strict] handler, [read_string] returns
    that very string, the [replace] handler would return it too, and the
    string encodes back to the payload byte for byte: the lenient handler
    changes nothing for a valid name. *)
Theorem valid_name_read_exactly (data : bytes) (c : Z) (s : str) :
  0 <= c < len data ->
  byte_at data c <= len data - (c + 1) ->
  let payload := slice data (c + 1) (c + 1 + byte_at data c) in
  decode Strict payload = Some s ->
  outcome (read_string data c) = inr (Some s, c + 1 + byte_at data c)
  /\ decode Replace payload = Some s
  /\ encode s = payload.
Proof.
  intros Hc Hl. cbv zeta. unfold decode.
  destruct (all_decodable (scan (slice data (c + 1) (c + 1 + byte_at data c)))) eqn:Hd;
    [|discriminate].
  intros Hs. injection Hs as <-.
  split; [|split].
  - rewrite read_string_whole by lia. reflexivity.
  - now rewrite (resolve_decodable [REPLACEMENT_CHARACTER]).
  - apply (encode_decoded_aux (length (slice data (c + 1) (c + 1 + byte_at data c))));
      [lia|assumption].
Qed.

Lemma valid_name_read_exactly_witness :
  outcome (read_string [x03; xe2; x82; xac; x00] 0) = inr (Some [0x20AC], 4)
  /\ decode Replace [xe2; x82; xac] = Some [0x20AC]
  /\ encode [0x20AC] = [xe2; x82; xac].
Proof.
  apply (valid_name_read_exactly [x03; xe2; x82; xac; x00] 0 [0x20AC]).
  - vm_compute. split; [discriminate|reflexivity].
  - vm_compute. discriminate.
  - vm_compute. reflexivity.
Defined.

(** X10.  A timestamp before the last day of the year 9999 never stops a
    run.  On a host whose local time is within a day of UTC, for every
    buffer of at least 32 bytes whose timestamp field is below
    253402214400000 ms (9999-12-31T00:00:00Z), the body raises nothing and
    ends at one of its [return]s or at its end: the run prints the six
    header lines first and no error line after them, whatever the rest of
    the buffer holds. *)
Theorem early_timestamp_never_raises (utcoffset : Z -> Z) (data : bytes) :
  (forall second, Z.abs (utcoffset second) < 86400) ->
  32 <= len data ->
  timestamp_ms (header_of data) < 253402214400000 ->
  exists (rest : list line) (e : ending),
    stdout (parse_shared_memory utcoffset (Some data))
    = header_lines utcoffset (header_of data) ++ rest
    /\ Forall (fun l => is_error_line l = false) rest
    /\ outcome (parse_body utcoffset data) = inr e.
Proof.
  intros Hhost Hl Ht.
  assert (Hd : displayable utcoffset (timestamp_ms (header_of data))).
  { unfold displayable, END_OF_MAXYEAR.
    pose proof (Hhost (timestamp_ms (header_of data) / 1000)).
    assert (timestamp_ms (header_of data) / 1000 < 253402214400)
      by (apply Z.div_lt_upper_bound; lia).
    lia. }
  unfold parse_shared_memory.
  destruct (Z.lt_ge_cases (len data) 36) as [Hc|Hc].
  { rewrite parse_body_no_sink by (assumption || lia).
    eexists _, _. split; [|split; [|reflexivity]].
    - repeat first [ rewrite stdout_app | rewrite stdout_prints
                   | progress cbn [stdout header_reads List.app] ].
      reflexivity.
    - repeat constructor. }
  destruct (sink_loop_safe data (Z.to_nat (le_decode (slice data 32 36))) 36)
    as (tr & c & E & _ & Ho & Hcc); [lia|].
  rewrite (parse_body_sinks utcoffset data tr c) by assumption.
  destruct (app_section_safe data c) as (tr2 & e & E2 & _ & Ho2 & _); [lia|].
  rewrite E2. cbn [events outcome fst snd].
  eexists _, e. split; [|split; [|reflexivity]].
  - repeat first [ rewrite stdout_app | rewrite stdout_prints
                 | progress cbn [stdout header_reads List.app] ].
    reflexivity.
  - constructor; [reflexivity|]. apply Forall_app. split.
    + eapply Forall_impl; [|exact Ho]. intros l Hl'. now destruct l.
    + eapply Forall_impl; [|exact Ho2]. intros l Hl'. now destruct l.
Qed.

Lemma early_timestamp_never_raises_witness :
  exists (rest : list line) (e : ending),
    stdout (parse_shared_memory utc (Some cut_in_name))
    = header_lines utc (header_of cut_in_name) ++ rest
    /\ Forall (fun l => is_error_line l = false) rest
    /\ outcome (parse_body utc cut_in_name) = inr e.
Proof.
  apply (early_timestamp_never_raises utc cut_in_name).
  - intros second. vm_compute. reflexivity.
  - vm_compute. discriminate.
  - vm_compute. reflexivity.
Defined.
